(** * ARPopulate: a shallow embedding of [arpopulate.py]

    The development follows the layout of the script: a small model of the
    Python run-time it relies on (exceptions, [ipaddress], [random.randrange]),
    then the classes [MAC], [MACRange], [MACRanges] and [IPNetworks], and last
    the body of the script (exclusion, spoof table, scheduling loop). *)

From Stdlib Require Import ZArith List Bool String Ascii Lia.
Import ListNotations.
Local Open Scope Z_scope.

(** ** Python outcomes

    A call either returns, raises, or (for the two unbounded [while] loops)
    is still running when the fuel of the model is spent. *)
Module Py.

Inductive exn : Type :=
| TypeError
| ValueError
| AttributeError
| AssertionError
| OverflowError
| AddressValueError
| NetmaskValueError.

Inductive outcome (A : Type) : Type :=
| Ok (a : A)
| Raise (e : exn)
| OutOfFuel.
Arguments Ok {A} a.
Arguments Raise {A} e.
Arguments OutOfFuel {A}.

Definition bind {A B : Type} (m : outcome A) (k : A -> outcome B) : outcome B :=
  match m with
  | Ok a => k a
  | Raise e => Raise e
  | OutOfFuel => OutOfFuel
  end.

Definition returns {A : Type} (m : outcome A) : bool :=
  match m with Ok _ => true | _ => false end.

Definition raises {A : Type} (m : outcome A) : bool :=
  match m with Raise _ => true | _ => false end.

(** [list.remove(x)]: drops the first item equal to [x]; [ValueError] when
    there is none. *)
Fixpoint list_remove {A : Type} (eqb : A -> A -> bool) (x : A) (l : list A)
  : outcome (list A) :=
  match l with
  | [] => Raise ValueError
  | y :: l' =>
      if eqb y x then Ok l'
      else bind (list_remove eqb x l') (fun r => Ok (y :: r))
  end.

(** [range(start, stop)] *)
Definition range (start stop : Z) : list Z :=
  map (fun i => start + Z.of_nat i) (seq 0 (Z.to_nat (stop - start))).

(** [range(start, stop, step)] for a positive step; a zero step is a
    [ValueError]. Negative steps do not occur in this program. *)
Definition range_step (start stop step : Z) : outcome (list Z) :=
  if step =? 0 then Raise ValueError
  else Ok (map (fun i => start + Z.of_nat i * step)
               (seq 0 (Z.to_nat ((stop - start + step - 1) / step)))).

(** [a >> b] and [a << b]: a negative count is a [ValueError]. *)
Definition rshift (a b : Z) : outcome Z :=
  if b <? 0 then Raise ValueError else Ok (Z.shiftr a b).
Definition lshift (a b : Z) : outcome Z :=
  if b <? 0 then Raise ValueError else Ok (Z.shiftl a b).

End Py.
Export Py.

Declare Scope py_scope.
Delimit Scope py_scope with py.
Notation "x <- m ;; k" := (Py.bind m (fun x => k))
  (at level 61, m at next level, right associativity) : py_scope.
Notation "' p <- m ;; k" := (Py.bind m (fun p => k))
  (at level 61, p pattern, m at next level, right associativity) : py_scope.
Local Open Scope py_scope.

(** ** The part of the standard [ipaddress] module the script calls *)
Module ipaddress.

Inductive ipversion : Type := V4 | V6.

Definition ipversion_eqb (a b : ipversion) : bool :=
  match a, b with
  | V4, V4 | V6, V6 => true
  | _, _ => false
  end.

Definition max_prefixlen (v : ipversion) : Z :=
  match v with V4 => 32 | V6 => 128 end.

Definition ALL_ONES (v : ipversion) : Z := 2 ^ max_prefixlen v - 1.

(** [IPv4Address] / [IPv6Address]: a version and the integer [_ip]. *)
Record IPAddress : Type := mkAddress { aversion : ipversion; ip : Z }.

(** [IPv4Network] / [IPv6Network]: the network address (as an integer) and
    the prefix length; netmask, hostmask and broadcast address are the
    derived properties of the class. *)
Record IPNetwork : Type :=
  mkNetwork { version : ipversion; network_address : Z; prefixlen : Z }.

Definition address_eqb (a b : IPAddress) : bool :=
  (ip a =? ip b) && ipversion_eqb (aversion a) (aversion b).

(** [_ip_int_from_prefix] *)
Definition ip_int_from_prefix (v : ipversion) (p : Z) : Z :=
  Z.lxor (ALL_ONES v) (Z.shiftr (ALL_ONES v) p).

Definition netmask (n : IPNetwork) : Z := ip_int_from_prefix (version n) (prefixlen n).
Definition hostmask (n : IPNetwork) : Z := Z.lxor (netmask n) (ALL_ONES (version n)).
Definition broadcast_address (n : IPNetwork) : Z :=
  Z.lor (network_address n) (hostmask n).
Definition num_addresses (n : IPNetwork) : Z :=
  broadcast_address n - network_address n + 1.

(** [_BaseNetwork.__eq__] *)
Definition network_eqb (a b : IPNetwork) : bool :=
  ipversion_eqb (version a) (version b)
  && (network_address a =? network_address b)
  && (netmask a =? netmask b).

(** The address constructor on an integer ([_check_int_address]). *)
Definition make_address (v : ipversion) (i : Z) : outcome IPAddress :=
  if i <? 0 then Raise AddressValueError
  else if i >? ALL_ONES v then Raise AddressValueError
  else Ok (mkAddress v i).

(** [_BaseAddress.__add__] *)
Definition address_add (a : IPAddress) (other : Z) : outcome IPAddress :=
  make_address (aversion a) (ip a + other).

(** The network constructor on [(address, prefixlen)], [strict=True]. *)
Definition make_network (v : ipversion) (addr p : Z) : outcome IPNetwork :=
  a <- make_address v addr ;;
  if (p <? 0) || (p >? max_prefixlen v) then Raise NetmaskValueError
  else if negb (Z.land (ip a) (ip_int_from_prefix v p) =? ip a) then Raise ValueError
  else Ok (mkNetwork v (ip a) p).

(** [ip_network(address)] on an address object: the one-address network. *)
Definition ip_network_of_address (a : IPAddress) : outcome IPNetwork :=
  make_network (aversion a) (ip a) (max_prefixlen (aversion a)).

(** [_is_subnet_of(a, b)], reached through [a.subnet_of(b)]. *)
Definition subnet_of (a b : IPNetwork) : outcome bool :=
  if negb (ipversion_eqb (version a) (version b)) then Raise TypeError
  else Ok ((network_address b <=? network_address a)
           && (broadcast_address b >=? broadcast_address a)).

(** [subnets()] with the default [prefixlen_diff=1]. *)
Definition subnets (self : IPNetwork) : outcome (list IPNetwork) :=
  if prefixlen self =? max_prefixlen (version self) then Ok [self]
  else
    let new_prefixlen := prefixlen self + 1 in
    if new_prefixlen >? max_prefixlen (version self) then Raise ValueError
    else
      let start := network_address self in
      let stop := broadcast_address self + 1 in
      step <- rshift (hostmask self + 1) 1 ;;
      addrs <- range_step start stop step ;;
      (fix each (l : list Z) : outcome (list IPNetwork) :=
         match l with
         | [] => Ok []
         | new_addr :: l' =>
             current <- make_network (version self) new_addr new_prefixlen ;;
             rest <- each l' ;;
             Ok (current :: rest)
         end) addrs.

(** [s1, s2 = x.subnets()]: unpacking anything but two items is a
    [ValueError]. *)
Definition two_subnets (x : IPNetwork) : outcome (IPNetwork * IPNetwork) :=
  l <- subnets x ;;
  match l with
  | [s1; s2] => Ok (s1, s2)
  | _ => Raise ValueError
  end.

(** The [while] loop of [address_exclude]. Every turn moves one prefix bit
    down, so the counter [k] bounds the turns by the address width. *)
Fixpoint address_exclude_loop (k : nat) (s1 s2 other : IPNetwork)
  : outcome (list IPNetwork) :=
  if negb (network_eqb s1 other) && negb (network_eqb s2 other) then
    match k with
    | O => OutOfFuel
    | S k' =>
        b1 <- subnet_of other s1 ;;
        if b1 then
          '(t1, t2) <- two_subnets s1 ;;
          rest <- address_exclude_loop k' t1 t2 other ;;
          Ok (s2 :: rest)
        else
          b2 <- subnet_of other s2 ;;
          if b2 then
            '(t1, t2) <- two_subnets s2 ;;
            rest <- address_exclude_loop k' t1 t2 other ;;
            Ok (s1 :: rest)
          else Raise AssertionError
    end
  else if network_eqb s1 other then Ok [s2]
  else if network_eqb s2 other then Ok [s1]
  else Raise AssertionError.

(** [address_exclude(other)], with the generator run to its end as
    [list.extend] does. *)
Definition address_exclude (self other : IPNetwork) : outcome (list IPNetwork) :=
  if negb (ipversion_eqb (version self) (version other)) then Raise TypeError
  else
    b <- subnet_of other self ;;
    if negb b then Raise ValueError
    else if network_eqb other self then Ok []
    else
      other' <- make_network (version other) (network_address other) (prefixlen other) ;;
      '(s1, s2) <- two_subnets self ;;
      address_exclude_loop (S (Z.to_nat (max_prefixlen (version self)))) s1 s2 other'.

(** [hosts()]: the constructors of [IPv4Network] and [IPv6Network] replace
    it for the two shortest networks. *)
Definition hosts (self : IPNetwork) : list IPAddress :=
  let network := network_address self in
  let broadcast := broadcast_address self in
  if prefixlen self =? max_prefixlen (version self) - 1 then
    map (mkAddress (version self)) (range network (broadcast + 1))
  else if prefixlen self =? max_prefixlen (version self) then
    [mkAddress (version self) network]
  else
    match version self with
    | V4 => map (mkAddress V4) (range (network + 1) broadcast)
    | V6 => map (mkAddress V6) (range (network + 1) (broadcast + 1))
    end.

(** The invariant of a constructed network object: the constructor accepts
    its fields. *)
Definition well_formed (n : IPNetwork) : Prop :=
  make_network (version n) (network_address n) (prefixlen n) = Ok n.

(** The addresses of a network, as [__iter__] lists them:
    [network_address .. broadcast_address]. *)
Definition covers (n : IPNetwork) (a : IPAddress) : Prop :=
  version n = aversion a /\ network_address n <= ip a <= broadcast_address n.

End ipaddress.
Export ipaddress.

(** ** The world of the script: the random source and what it does

    [random.randrange] reads a source of integers the model is given; the
    calls that leave the process ([print], [srp], [sleep]) are recorded. *)
Module World.

Inductive event : Type :=
| Print_spoofing (address : IPAddress) (mac : string) (host : IPAddress)
| Srp (pdst psrc : IPAddress) (hwsrc : string)
| Print_sleeping (seconds : Z)
| Sleep (seconds : Z).

Record world : Type :=
  mkWorld { gen : nat -> Z; pos : nat; trace : list event }.

(** A computation of the script: it reads and extends the world, and ends
    as a Python call does. What was done before a raise stays done. *)
Definition M (A : Type) : Type := world -> outcome A * world.

Definition ret {A : Type} (a : A) : M A := fun w => (Ok a, w).

Definition lift {A : Type} (o : outcome A) : M A := fun w => (o, w).

Definition mbind {A B : Type} (m : M A) (k : A -> M B) : M B :=
  fun w =>
    match m w with
    | (Ok a, w') => k a w'
    | (Raise e, w') => (Raise e, w')
    | (OutOfFuel, w') => (OutOfFuel, w')
    end.

Definition emit (e : event) : M unit :=
  fun w => (Ok tt, mkWorld (gen w) (pos w) (trace w ++ [e])).

(** [randrange(start, stop)]: some integer of [start .. stop - 1], here the
    next one of the source reduced into that interval; an empty interval is
    a [ValueError]. *)
Definition randrange (start stop : Z) : M Z :=
  fun w =>
    if stop <=? start then (Raise ValueError, w)
    else (Ok (start + gen w (pos w) mod (stop - start)),
          mkWorld (gen w) (S (pos w)) (trace w)).

(** [time.sleep(seconds)] on an [int]. The seconds are first turned into
    the nanoseconds of a signed 64-bit clock, an [OverflowError] when the
    product does not fit (the test the interpreter makes is on the quotients
    of the two ends of the clock by [10 ^ 9], rounded towards zero); a
    negative length is then a [ValueError]. *)
Definition sleep_min : Z := Z.quot (- 2 ^ 63) (10 ^ 9).
Definition sleep_max : Z := Z.quot (2 ^ 63 - 1) (10 ^ 9).

Definition sleep (seconds : Z) : M unit :=
  if (seconds <? sleep_min) || (sleep_max <? seconds) then lift (Raise OverflowError)
  else if seconds <? 0 then lift (Raise ValueError)
  else emit (Sleep seconds).

(** [for x in l: body(x)] over a list nobody edits meanwhile. *)
Fixpoint for_each {A : Type} (l : list A) (body : A -> M unit) : M unit :=
  match l with
  | [] => ret tt
  | x :: l' => mbind (body x) (fun _ => for_each l' body)
  end.

(** A list comprehension whose items may raise. *)
Fixpoint comprehension {A B : Type} (f : A -> outcome B) (l : list A)
  : outcome (list B) :=
  match l with
  | [] => Ok []
  | x :: l' => Py.bind (f x) (fun y => Py.bind (comprehension f l') (fun r => Ok (y :: r)))
  end.

End World.
Export World.

Declare Scope io_scope.
Delimit Scope io_scope with io.
Notation "x <- m ;; k" := (World.mbind m (fun x => k))
  (at level 61, m at next level, right associativity) : io_scope.
Notation "' p <- m ;; k" := (World.mbind m (fun p => k))
  (at level 61, p pattern, m at next level, right associativity) : io_scope.
Notation "m ;;; k" := (World.mbind m (fun _ => k))
  (at level 61, right associativity) : io_scope.

(** ** Text: the calls of [re], [int] and [format] the script makes

    The text of an option is a [str], the list of its code points, whatever
    they are. A text that holds ASCII characters only (the group [mac] of the
    match, the text [str] makes of a [MAC]) is a [string]. *)
Module Text.

Definition str : Type := list Z.

(** The decimal digits of Unicode 14, the characters that [\d] matches and
    [int] reads: 66 runs of ten, each from its zero on. *)
Definition decimal_zeros : list Z :=
  [48; 1632; 1776; 1984; 2406; 2534; 2662; 2790; 2918; 3046; 3174; 3302;
   3430; 3558; 3664; 3792; 3872; 4160; 4240; 6112; 6160; 6470; 6608; 6784;
   6800; 6992; 7088; 7232; 7248; 42528; 43216; 43264; 43472; 43504; 43600;
   44016; 65296; 66720; 68912; 69734; 69872; 69942; 70096; 70384; 70736;
   70864; 71248; 71360; 71472; 71904; 72016; 72784; 73040; 73120; 92768;
   92864; 93008; 120782; 120792; 120802; 120812; 120822; 123200; 123632;
   125264; 130032].

Definition decimal_value (c : Z) : option Z :=
  match find (fun zero => (zero <=? c) && (c <? zero + 10)) decimal_zeros with
  | Some zero => Some (c - zero)
  | None => None
  end.

(** The class [\d] *)
Definition is_decimal (c : Z) : bool :=
  match decimal_value c with Some _ => true | None => false end.

Fixpoint decimal_digits (acc : Z) (s : str) : outcome Z :=
  match s with
  | [] => Ok acc
  | c :: s' =>
      match decimal_value c with
      | Some d => decimal_digits (acc * 10 + d) s'
      | None => Raise ValueError
      end
  end.

(** [sys.int_max_str_digits], as the interpreter starts with it. *)
Definition int_max_str_digits : Z := 4300.

(** [int(s)] on the text the regular expression hands over, which holds
    decimal digits only (no sign, blank or underscore): no digit at all is a
    [ValueError], and so are more digits than [int_max_str_digits], leading
    zeros counted. *)
Definition int10 (s : str) : outcome Z :=
  match s with
  | [] => Raise ValueError
  | _ =>
      if int_max_str_digits <? Z.of_nat (List.length s) then Raise ValueError
      else decimal_digits 0 s
  end.

Local Open Scope char_scope.

(** The code point of a character, and the character of a code point below
    256. *)
Definition ord (c : ascii) : Z := Z.of_N (N_of_ascii c).

Definition chr (c : Z) : ascii := ascii_of_N (Z.to_N c).

(** The code points of an ASCII text. *)
Fixpoint code_points (s : string) : str :=
  match s with
  | EmptyString => []
  | String c s' => ord c :: code_points s'
  end.

(** The character of a code point that belongs to a class of characters
    below 256. *)
Definition in_class (class : ascii -> bool) (c : Z) : option ascii :=
  if (0 <=? c)%Z && (c <? 256)%Z && class (chr c) then Some (chr c) else None.

Definition between (lo hi : ascii) (c : ascii) : bool :=
  (ord lo <=? ord c)%Z && (ord c <=? ord hi)%Z.

(** The value of a hexadecimal digit of either case. *)
Definition hex_value (c : ascii) : option Z :=
  if between "0" "9" c then Some (ord c - ord "0")%Z
  else if between "a" "f" c then Some (ord c - ord "a" + 10)%Z
  else if between "A" "F" c then Some (ord c - ord "A" + 10)%Z
  else None.

(** The class [[0-9a-fA-F]] *)
Definition is_hex (c : ascii) : bool :=
  match hex_value c with Some _ => true | None => false end.

(** The class [[:.-]] *)
Definition is_sep (c : ascii) : bool :=
  Ascii.eqb c ":" || Ascii.eqb c "." || Ascii.eqb c "-".

(** The lowercase digit of a value below 16. *)
Definition hex_char (d : Z) : ascii :=
  ascii_of_N (Z.to_N (if d <? 10 then ord "0" + d else ord "a" + (d - 10)))%Z.

Local Open Scope string_scope.

(** [re.split(r"[^0-9a-fA-F]", s)]: the pieces between the characters that
    are no hexadecimal digit; a piece may be empty. *)
Fixpoint split_not_hex (s : string) : list string :=
  match s with
  | EmptyString => [EmptyString]
  | String c s' =>
      if is_hex c then
        match split_not_hex s' with
        | piece :: pieces => String c piece :: pieces
        | [] => [String c EmptyString]
        end
      else EmptyString :: split_not_hex s'
  end.

Fixpoint int_digits (base : Z) (value : ascii -> option Z) (acc : Z) (s : string)
  : outcome Z :=
  match s with
  | EmptyString => Ok acc
  | String c s' =>
      match value c with
      | Some d => int_digits base value (acc * base + d) s'
      | None => Raise ValueError
      end
  end.

(** [int(s, 16)] on a piece of the split, which holds hexadecimal digits
    only (no sign, blank, prefix or underscore); no digit at all is a
    [ValueError]. Base 16 has no cap on the number of digits. *)
Definition int16 (s : string) : outcome Z :=
  match s with
  | EmptyString => Raise ValueError
  | _ => int_digits 16 hex_value 0 s
  end.

(** [format(n, "x")] for [n >= 0]: lowercase digits, no padding. *)
Fixpoint hex_digits (fuel : nat) (n : Z) (acc : string) : string :=
  match fuel with
  | O => acc
  | S fuel' =>
      let acc' := String (hex_char (n mod 16)) acc in
      if (n / 16 =? 0)%Z then acc' else hex_digits fuel' (n / 16) acc'
  end.

Definition format_x (n : Z) : string :=
  hex_digits (S (Z.to_nat (Z.log2 n))) n "".

End Text.

(** ** [class MAC(int)] *)
Module MAC.
Import Text.

(** [int.from_bytes(items, byteorder="big", signed=False)] on a list of
    integers: each has to be a byte. *)
Fixpoint from_bytes_acc (acc : Z) (items : list Z) : outcome Z :=
  match items with
  | [] => Ok acc
  | b :: items' =>
      if (b <? 0) || (b >? 255) then Raise ValueError
      else from_bytes_acc (acc * 256 + b) items'
  end.

Definition from_bytes (items : list Z) : outcome Z := from_bytes_acc 0 items.

(** [self.to_bytes(byteorder="big", signed=False, length=n)] *)
Definition to_bytes (self : Z) (length : nat) : outcome (list Z) :=
  if self <? 0 then Raise OverflowError
  else if self >=? 256 ^ Z.of_nat length then Raise OverflowError
  else Ok (map (fun i => Z.land (Z.shiftr self (8 * Z.of_nat i)) 255)
               (rev (seq 0 length))).

Definition parse (mac : string) : outcome Z :=
  parts <- comprehension int16 (split_not_hex mac) ;;
  from_bytes parts.

Definition __str__ (self : Z) : outcome string :=
  parts <- to_bytes self 6 ;;
  Ok (String.concat ":" (map format_x parts)).

Definition __add__ (self other : Z) : Z := self + other.
Definition __sub__ (self other : Z) : Z := self - other.
Definition __and__ (self other : Z) : Z := Z.land self other.

End MAC.

(** ** [class MACRange] *)
Module MACRange.
Import Text.

Record t : Type := mk { mask : Z; mac : Z }.

(** [(?:[0-9a-fA-F]{2}[:.-]){n}] at the head of [s]: the text matched and
    the text left. *)
Fixpoint match_groups (n : nat) (s : str) : option (string * str) :=
  match n with
  | O => Some (EmptyString, s)
  | S n' =>
      match s with
      | a :: b :: p :: s' =>
          match in_class is_hex a, in_class is_hex b, in_class is_sep p with
          | Some a', Some b', Some p' =>
              match match_groups n' s' with
              | Some (m, r) => Some (String a' (String b' (String p' m)), r)
              | None => None
              end
          | _, _, _ => None
          end
      | _ => None
      end
  end.

(** The longest run of [\d] at the head of [s], and the text left. *)
Fixpoint span_digits (s : str) : str * str :=
  match s with
  | c :: s' =>
      if is_decimal c then let (ds, r) := span_digits s' in (c :: ds, r)
      else ([], s)
  | [] => ([], [])
  end.

(** [$]: the end of the text, or the newline that ends it. *)
Definition at_end (s : str) : bool :=
  match s with
  | [] => true
  | [c] => c =? ord "010"
  | _ => false
  end.

(** [search(r"^(?P<mac>(?:[0-9a-fA-F]{2}[:.-]){5}[0-9a-fA-F]{2})(/(?P<mask>\d+))?$", s)]:
    [None] when the text does not match, else the groups [mac] and [mask]
    (the latter [None] when the optional part matched nothing). *)
Definition search (s : str) : option (string * option str) :=
  match match_groups 5 s with
  | Some (m, a :: b :: r) =>
      match in_class is_hex a, in_class is_hex b with
      | Some a', Some b' =>
          let mac_group := (m ++ String a' (String b' EmptyString))%string in
          match r with
          | c :: r' =>
              if c =? ord "/" then
                let (ds, r'') := span_digits r' in
                match ds with
                | [] => None
                | _ => if at_end r'' then Some (mac_group, Some ds) else None
                end
              else if at_end r then Some (mac_group, None) else None
          | [] => Some (mac_group, None)
          end
      | _, _ => None
      end
  | _ => None
  end.

Definition __init__ (text : str) : outcome t :=
  match search text with
  | None => Raise AttributeError
  | Some (mac_group, mask_group) =>
      mask <- match mask_group with
              | None => Raise TypeError
              | Some ds => int10 ds
              end ;;
      mac <- MAC.parse mac_group ;;
      size <- lshift 1 (48 - mask) ;;
      Ok (mk mask (MAC.__and__ mac (Z.lnot (size - 1))))
  end.

(** [len(macs)]: [__len__], which has to fit the index type. *)
Definition __len__ (self : t) : outcome Z :=
  size <- lshift 1 (48 - mask self) ;;
  if size >? 2 ^ 63 - 1 then Raise OverflowError else Ok size.

End MACRange.

(** ** [class MACRanges(list)] *)
Module MACRanges.
Local Open Scope io_scope.

(** [len]: [sum([len(macs) for macs in self])] *)
Definition len (self : list MACRange.t) : outcome Z :=
  Py.bind (comprehension MACRange.__len__ self)
          (fun sizes => Ok (fold_left Z.add sizes 0)).

(** The [for] loop of [rand], from the drawn offset on; falling off the
    loop returns [None]. *)
Fixpoint rand_walk (self : list MACRange.t) (offset : Z) : outcome (option Z) :=
  match self with
  | [] => Ok None
  | macs :: self' =>
      Py.bind (MACRange.__len__ macs) (fun size =>
        if offset >=? size then
          Py.bind (MACRange.__len__ macs) (fun size' => rand_walk self' (offset - size'))
        else Ok (Some (MAC.__add__ (MACRange.mac macs) offset)))
  end.

Definition rand (self : list MACRange.t) : M (option Z) :=
  total <- lift (len self) ;;
  offset <- randrange 0 total ;;
  lift (rand_walk self offset).

End MACRanges.

(** ** [class IPNetworks(list)] *)
Module IPNetworks.

(** [subnets_of]: is some member of [self] inside some member of [others]? *)
Fixpoint subnets_of_one (s : IPNetwork) (others : list IPNetwork) : outcome bool :=
  match others with
  | [] => Ok false
  | o :: others' =>
      b <- subnet_of s o ;;
      if b then Ok true else subnets_of_one s others'
  end.

Fixpoint subnets_of (self others : list IPNetwork) : outcome bool :=
  match self with
  | [] => Ok false
  | s :: self' =>
      b <- subnets_of_one s others ;;
      if b then Ok true else subnets_of self' others
  end.

(** The inner [for o in others] of [addresses_exclude], for the member [s]
    the outer loop holds; it edits the list [self] in place. *)
Fixpoint exclude_others (s : IPNetwork) (others self : list IPNetwork)
  : outcome (list IPNetwork) :=
  match others with
  | [] => Ok self
  | o :: others' =>
      b <- subnet_of o s ;;
      if b then
        self1 <- list_remove network_eqb s self ;;
        pieces <- address_exclude s o ;;
        exclude_others s others' (self1 ++ pieces)
      else
        b' <- subnet_of s o ;;
        if b' then
          self1 <- list_remove network_eqb s self ;;
          exclude_others s others' self1
        else exclude_others s others' self
  end.

(** The outer [for s in self]: a list iterator is an index into the list it
    walks, so it sees the removals and the extensions of the body. *)
Fixpoint exclude_from (fuel : nat) (i : nat) (others self : list IPNetwork)
  : outcome (list IPNetwork) :=
  match fuel with
  | O => OutOfFuel
  | S fuel' =>
      match nth_error self i with
      | None => Ok self
      | Some s =>
          self' <- exclude_others s others self ;;
          exclude_from fuel' (S i) others self'
      end
  end.

(** [addresses_exclude]: returns the list [self] ends as. In both calls of
    the script [others] is another list than [self], so only [self] changes
    under the loops. *)
Fixpoint addresses_exclude (fuel : nat) (self others : list IPNetwork)
  : outcome (list IPNetwork) :=
  match fuel with
  | O => OutOfFuel
  | S fuel' =>
      b <- subnets_of self others ;;
      if b then
        self' <- exclude_from fuel 0 others self ;;
        addresses_exclude fuel' self' others
      else Ok self
  end.

(** [len]: [sum([network.num_addresses for network in self])] *)
Definition len (self : list IPNetwork) : Z :=
  fold_left Z.add (map num_addresses self) 0.

(** The [for] loop of [rand], from the drawn offset on; falling off the
    loop returns [None]. *)
Fixpoint rand_walk (self : list IPNetwork) (offset : Z) : outcome (option IPAddress) :=
  match self with
  | [] => Ok None
  | network :: self' =>
      if offset >=? num_addresses network then
        rand_walk self' (offset - num_addresses network)
      else
        a <- address_add (mkAddress (version network) (network_address network)) offset ;;
        Ok (Some a)
  end.

Definition rand (self : list IPNetwork) : M (option IPAddress) :=
  mbind (randrange 0 (len self)) (fun offset => lift (rand_walk self offset)).

End IPNetworks.

(** ** The body of the script *)
Module Main.
Local Open Scope io_scope.

(** A [float]: not a number, an infinity, or [m * 2 ^ e]. *)
Inductive float : Type :=
| Fnan
| Finf (negative : bool)
| Ffinite (m e : Z).

(** What [args.count] holds: the [int] default, or the [float] argparse
    made of the option. *)
Inductive number : Type :=
| Int (z : Z)
| Float (f : float).

(** [n < x] for an [int] [n]; Python compares an [int] with a [float]
    exactly. *)
Definition int_lt (n : Z) (x : number) : bool :=
  match x with
  | Int z => n <? z
  | Float Fnan => false
  | Float (Finf negative) => negb negative
  | Float (Ffinite m e) =>
      if 0 <=? e then n <? m * 2 ^ e else n * 2 ^ (- e) <? m
  end.

(** [min(x, n)]: the first argument unless the second is smaller. *)
Definition min (x : number) (n : Z) : number :=
  if int_lt n x then Int n else x.

(** [range(x)] as the number of turns of a [for] loop over it; a [float]
    is a [TypeError]. *)
Definition range_turns (x : number) : outcome nat :=
  match x with
  | Int z => Ok (Z.to_nat z)
  | Float _ => Raise TypeError
  end.

(** [spoofed]: a [dict], which keeps its keys in the order they came in. *)
Definition table : Type := list (IPAddress * option Z).

(** [spoofed[address] = mac] *)
Fixpoint setitem (spoofed : table) (address : IPAddress) (mac : option Z) : table :=
  match spoofed with
  | [] => [(address, mac)]
  | (k, v) :: spoofed' =>
      if address_eqb k address then (k, mac) :: spoofed'
      else (k, v) :: setitem spoofed' address mac
  end.

(** [ip_network(address)] on what [spoofs.rand()] returned. *)
Definition ip_network_of (address : option IPAddress) : outcome IPNetwork :=
  match address with
  | Some a => ip_network_of_address a
  | None => Raise ValueError
  end.

(** The turns of the loop that builds the spoof table. *)
Fixpoint build_loop (turns : nat) (fuel : nat) (spoof_macs : list MACRange.t)
  (spoofs : list IPNetwork) (spoofed : table) : M (list IPNetwork * table) :=
  match turns with
  | O => ret (spoofs, spoofed)
  | S turns' =>
      address <- IPNetworks.rand spoofs ;;
      single <- lift (ip_network_of address) ;;
      spoofs' <- lift (IPNetworks.addresses_exclude fuel spoofs [single]) ;;
      mac <- MACRanges.rand spoof_macs ;;
      match address with
      | Some a => build_loop turns' fuel spoof_macs spoofs' (setitem spoofed a mac)
      | None => lift (Raise ValueError)
      end
  end.

Definition build (fuel : nat) (spoof_macs : list MACRange.t) (count : number)
  (spoofs : list IPNetwork) : M (list IPNetwork * table) :=
  turns <- lift (range_turns (min count (IPNetworks.len spoofs))) ;;
  build_loop turns fuel spoof_macs spoofs [].

(** [str(mac)] for a value of the table, as the f-string of [print] and
    [spoof] call it. *)
Definition str_of (mac : option Z) : outcome string :=
  match mac with
  | Some m => MAC.__str__ m
  | None => Ok "None"%string
  end.

(** [spoof(dst, src, hwsrc)] *)
Definition spoof (dst src : IPAddress) (hwsrc : option Z) : M unit :=
  text <- lift (str_of hwsrc) ;;
  emit (Srp dst src text).

(** One turn of [while True]: the three nested [for] loops. *)
Definition pass (spoofed : table) (targets : list IPNetwork) : M unit :=
  for_each spoofed (fun '(address, mac) =>
    for_each targets (fun target =>
      for_each (hosts target) (fun host =>
        text <- lift (str_of mac) ;;
        emit (Print_spoofing address text host) ;;;
        spoof host address mac))).

(** [if args.seconds:] *)
Definition truthy (seconds : option Z) : bool :=
  match seconds with
  | None => false
  | Some n => negb (n =? 0)
  end.

(** The [while True] loop: a pass, then either the message and the sleep,
    or [break]. *)
Fixpoint scheduler (fuel : nat) (spoofed : table) (targets : list IPNetwork)
  (seconds : option Z) : M unit :=
  match fuel with
  | O => lift OutOfFuel
  | S fuel' =>
      pass spoofed targets ;;;
      match seconds with
      | Some n =>
          if truthy seconds then
            emit (Print_sleeping n) ;;;
            sleep n ;;;
            scheduler fuel' spoofed targets seconds
          else ret tt
      | None => ret tt
      end
  end.

(** The parsed command line. *)
Record Args : Type :=
  mkArgs { target : list Text.str;
           spoof_ : list Text.str;
           mac : list Text.str;
           count : number;
           seconds : option Z }.

Section Script.
(** [ip_network] on the text of an option: the parser of the standard
    library. *)
Variable ip_network : Text.str -> outcome IPNetwork.

Definition main (fuel : nat) (args : Args) : M unit :=
  targets <- lift (comprehension ip_network (target args)) ;;
  spoofs <- lift (comprehension ip_network (spoof_ args)) ;;
  spoofs <- lift (IPNetworks.addresses_exclude fuel spoofs targets) ;;
  spoof_macs <- lift (comprehension MACRange.__init__ (mac args)) ;;
  ' (_, spoofed) <- build fuel spoof_macs (count args) spoofs ;;
  scheduler fuel spoofed targets (seconds args).

End Script.

End Main.

(** * The vocabulary of the statements *)
Module Spec.
Import Text Main.

(** [n] lies inside [s]: same family, and its address block is a part of
    the block of [s]. *)
Definition within (n s : IPNetwork) : Prop :=
  version n = version s
  /\ network_address s <= network_address n
  /\ broadcast_address n <= broadcast_address s.

(** [n] is a well-formed part of a member of the list [original]. *)
Definition inside (original : list IPNetwork) (n : IPNetwork) : Prop :=
  well_formed n /\ exists m, In m original /\ within n m.

(** The masks [MACRange.__init__] lets through. *)
Definition valid_range (r : MACRange.t) : Prop := 0 <= MACRange.mask r <= 48.

Definition size (r : MACRange.t) : Z := 2 ^ (48 - MACRange.mask r).

Definition total_size (l : list MACRange.t) : Z := fold_left Z.add (map size l) 0.

(** The addresses a network holds by its prefix length, and those of a
    list of networks. *)
Definition net_size (n : IPNetwork) : Z :=
  2 ^ (max_prefixlen (version n) - prefixlen n).

Definition total_addresses (l : list IPNetwork) : Z :=
  fold_left Z.add (map net_size l) 0.

(** The invariant of a constructed range: the block of [size] addresses
    from the base lies in the 48-bit space. *)
Definition aligned (r : MACRange.t) : Prop :=
  valid_range r /\ 0 <= MACRange.mac r /\ MACRange.mac r + size r <= 2 ^ 48.

(** The world after more events. *)
Definition after (w : world) (events : list event) : world :=
  mkWorld (gen w) (pos w) (trace w ++ events).

(** A value of the table that [str] accepts: a 48-bit [MAC], or [None]. *)
Definition valid_mac (mac : option Z) : Prop :=
  match mac with
  | Some m => 0 <= m < 2 ^ 48
  | None => True
  end.

Definition valid_table (spoofed : table) : Prop :=
  Forall (fun entry => valid_mac (snd entry)) spoofed.

Definition text_of (mac : option Z) : string :=
  match str_of mac with
  | Ok text => text
  | _ => EmptyString
  end.

(** The triples of one pass, in the order of the three nested loops. *)
Definition triples (spoofed : table) (targets : list IPNetwork)
  : list (IPAddress * option Z * IPAddress) :=
  flat_map (fun entry =>
    flat_map (fun target =>
      map (fun host => (fst entry, snd entry, host)) (hosts target)) targets) spoofed.

Definition events_of (t : IPAddress * option Z * IPAddress) : list event :=
  let '(address, mac, host) := t in
  [Print_spoofing address (text_of mac) host; Srp host address (text_of mac)].

Definition pass_events (spoofed : table) (targets : list IPNetwork) : list event :=
  flat_map events_of (triples spoofed targets).

(** The calls of the transport among some events: [(pdst, psrc, hwsrc)]. *)
Definition calls (events : list event) : list (IPAddress * IPAddress * string) :=
  flat_map (fun e => match e with
                     | Srp pdst psrc hwsrc => [(pdst, psrc, hwsrc)]
                     | _ => []
                     end) events.

Definition call_of (t : IPAddress * option Z * IPAddress)
  : IPAddress * IPAddress * string :=
  let '(address, mac, host) := t in (host, address, text_of mac).

(** The events of [n] turns in a row. *)
Fixpoint turns (n : nat) (events : list event) : list event :=
  match n with
  | O => []
  | S n' => events ++ turns n' events
  end.





Fixpoint all_hex (s : string) : bool :=
  match s with
  | EmptyString => true
  | String c s' => is_hex c && all_hex s'
  end.

(** An octet comes back from its text, which holds hexadecimal digits
    only: checked on each of the 256 octets. *)
Definition octet_ok (b : Z) : bool :=
  match int16 (format_x b) with
  | Ok v => (v =? b) && all_hex (format_x b)
  | _ => false
  end.

(** The octet of weight [256 ^ i]. *)
Definition octet (x : Z) (i : nat) : Z := Z.land (Z.shiftr x (8 * Z.of_nat i)) 255.

Local Open Scope string_scope.

Definition all_digits (s : str) : bool := forallb is_decimal s.

(** The number a text of decimal digits writes. *)
Definition digit (c : Z) : Z :=
  match decimal_value c with Some d => d | None => 0%Z end.

Definition prefix_number (s : str) : Z :=
  fold_left (fun acc c => (acc * 10 + digit c)%Z) s 0%Z.

(** [n] groups of two hexadecimal digits, each followed by a separator. *)
Inductive groups : nat -> string -> Prop :=
| groups_O : groups 0 ""
| groups_S (n : nat) (a b p : ascii) (s : string) :
    is_hex a = true -> is_hex b = true -> is_sep p = true ->
    groups n s -> groups (S n) (String a (String b (String p s))).

(** [AA:BB:CC:DD:EE:FF]: six groups of two hexadecimal digits, one of
    [:], [.] and [-] between two groups. *)
Definition mac_text (g : string) : Prop :=
  exists h a b,
    groups 5 h /\ is_hex a = true /\ is_hex b = true
    /\ g = h ++ String a (String b "").

(** The end of the text: nothing, or one newline. *)
Definition line_end (s : str) : Prop := s = [] \/ s = [ord "010"].

(** A range as the specification writes it: the address, a slash, and a
    decimal prefix length of [0 .. 48]. *)
Definition well_formed_as_specified (text : str) : Prop :=
  exists g ds nl,
    mac_text g /\ ds <> [] /\ all_digits ds = true /\ line_end nl
    /\ (0 <= prefix_number ds <= 48)%Z
    /\ text = (code_points g ++ ord "/" :: ds ++ nl)%list.

(** A well-formed range: as specified, and the prefix length written in
    no more than 4300 digits. *)
Definition well_formed_text (text : str) : Prop :=
  exists g ds nl,
    mac_text g /\ ds <> [] /\ all_digits ds = true
    /\ (Z.of_nat (List.length ds) <= 4300)%Z /\ line_end nl
    /\ (0 <= prefix_number ds <= 48)%Z
    /\ text = (code_points g ++ ord "/" :: ds ++ nl)%list.

(** The text left by [span_digits] does not start with a digit. *)
Definition no_digit_ahead (r : str) : Prop :=
  match r with
  | c :: _ => is_decimal c = false
  | [] => True
  end.

(** A call that ends, and raises nothing but [ValueError]. *)
Definition value_error_only {A : Type} (o : outcome A) : Prop :=
  match o with
  | Ok _ => True
  | Raise e => e = ValueError
  | OutOfFuel => False
  end.

Definition octets (l : list Z) : Prop := Forall (fun v => (0 <= v <= 255)%Z) l.

End Spec.
Export Spec.

(** ** Values for the examples *)
Module Examples.

Definition ip4 (a b c d : Z) : Z := ((a * 256 + b) * 256 + c) * 256 + d.
Definition addr4 (a b c d : Z) : IPAddress := mkAddress V4 (ip4 a b c d).
Definition net4 (a b c d p : Z) : IPNetwork := mkNetwork V4 (ip4 a b c d) p.

(** A random source that always yields [0], and one that counts. *)
Definition zeros : world := mkWorld (fun _ => 0) 0 [].
Definition counting : world := mkWorld (fun i => Z.of_nat i * 5 + 3) 0 [].

(** What [MACRange("02:00:00:00:00:00/40")] builds, and what
    [MACRange("02:00:00:00:01:00/47")] builds. *)
Definition macs40 : MACRange.t := MACRange.mk 40 2199023255552.
Definition macs47 : MACRange.t := MACRange.mk 47 2199023255808.

(** Two entries of a spoof table. *)
Definition two_entries : Main.table :=
  [(addr4 10 0 0 5, Some 2199023255553); (addr4 10 0 0 9, Some 2199023255554)].

(** A text of [--mac] with the prefix length 40 in Arabic-Indic digits,
    and one with the prefix length 40 behind 4299 zeros. *)
Definition arabic_prefix : Text.str :=
  Text.code_points "02:00:00:00:00:00/" ++ [1636; 1632].

Definition long_prefix : Text.str :=
  Text.code_points "02:00:00:00:00:00"
  ++ Text.ord "/" :: repeat 48 (Z.to_nat 4299) ++ [52; 48].

(** The parser of [ipaddress] on the two texts of the examples; here it
    refuses every other text, as the library does a text that is no
    network. *)
Fixpoint str_eqb (a b : Text.str) : bool :=
  match a, b with
  | [], [] => true
  | x :: a', y :: b' => (x =? y) && str_eqb a' b'
  | _, _ => false
  end.

Definition ip_network_few (text : Text.str) : outcome IPNetwork :=
  if str_eqb text (Text.code_points "10.0.0.0/30") then Ok (net4 10 0 0 0 30)
  else if str_eqb text (Text.code_points "10.0.0.8/29") then Ok (net4 10 0 0 8 29)
  else Raise ValueError.

(** Three command lines: one that runs, one with a prefix length above 48,
    one with a target that is no network. *)
Definition args_two : Main.Args :=
  Main.mkArgs [Text.code_points "10.0.0.0/30"] [Text.code_points "10.0.0.8/29"]
    [Text.code_points "02:00:00:00:00:00/40"] (Main.Int 2) None.

Definition args_bad_mac : Main.Args :=
  Main.mkArgs [Text.code_points "10.0.0.0/30"] [Text.code_points "10.0.0.8/29"]
    [Text.code_points "02:00:00:00:00:00/49"] (Main.Int 2) None.

End Examples.
Import Examples.

(** ** More vocabulary, for the properties beyond the specification *)
Module More.
Import Text Main.







(** A call of the model that returned or raised. *)
Definition ended {A : Type} (o : outcome A) : Prop :=
  (exists a, o = Ok a) \/ (exists e, o = Raise e).

(** A digit as [format(n, "x")] writes it: [0-9a-f]. *)
Definition is_lower_hex (c : ascii) : bool :=
  between "0" "9" c || between "a" "f" c.

Fixpoint all_lower_hex (s : string) : bool :=
  match s with
  | EmptyString => true
  | String c s' => is_lower_hex c && all_lower_hex s'
  end.

(** The text of an octet is one lowercase digit below 16 and two from 16
    on: checked on each of the 256 octets. *)
Definition octet_shape (b : Z) : bool :=
  all_lower_hex (format_x b)
  && Nat.eqb (String.length (format_x b)) (if (b <? 16)%Z then 1 else 2)%nat.

(** Two texts that [MAC.parse] cannot tell apart: the same length, and at
    each place either two hexadecimal digits of one value (whatever their
    case) or two characters that are none. *)
Fixpoint alike (s s' : string) : bool :=
  match s, s' with
  | EmptyString, EmptyString => true
  | String c s1, String c' s1' =>
      match hex_value c, hex_value c' with
      | Some v, Some v' => (v =? v') && alike s1 s1'
      | None, None => alike s1 s1'
      | _, _ => false
      end
  | _, _ => false
  end.

(** The groups of a text read digit by digit, [acc] the value of the group
    under way ([None] before its first digit). *)
Fixpoint read_groups (acc : option Z) (s : string) : outcome (list Z) :=
  match s with
  | EmptyString =>
      match acc with
      | None => Raise ValueError
      | Some a => Ok [a]
      end
  | String c s' =>
      match hex_value c with
      | Some v =>
          read_groups (Some (match acc with None => 0 | Some a => a end * 16 + v)) s'
      | None =>
          match acc with
          | None => Raise ValueError
          | Some a => Py.bind (read_groups None s') (fun r => Ok (a :: r))
          end
      end
  end.

(** The first group's value, given what was read of it before. *)
Definition first_group (acc : option Z) (p : string) : outcome Z :=
  match acc with
  | None => int16 p
  | Some a => int_digits 16 hex_value a p
  end.

(** An address of a member of the pool. *)
Definition drawn_from (pool : list IPNetwork) (a : IPAddress) : Prop :=
  exists n, In n pool /\ covers n a.

(** An address of one of the ranges. *)
Definition mac_from (macs : list MACRange.t) (mac : option Z) : Prop :=
  exists r m,
    In r macs /\ mac = Some m
    /\ MACRange.mac r <= m < MACRange.mac r + size r.

(** A table out of a pool and some ranges: no key twice, every key an
    address of the pool, every value an address of a range. *)
Definition table_from (pool : list IPNetwork) (macs : list MACRange.t)
  (spoofed : table) : Prop :=
  NoDup (map fst spoofed)
  /\ forall a mac, In (a, mac) spoofed -> drawn_from pool a /\ mac_from macs mac.

(** A host address in the sense of [hosts()]: an address of the network
    which, when the network holds more than two addresses, is not the
    network address, nor in IPv4 the broadcast address. *)
Definition host_of (target : IPNetwork) (a : IPAddress) : Prop :=
  covers target a
  /\ (prefixlen target <= max_prefixlen (version target) - 2 ->
      network_address target < ip a
      /\ (version target = V4 -> ip a < broadcast_address target)).

End More.
Export More.

(** * Proofs *)
(** * Facts about the [ipaddress] model *)
Module ipaddress_facts.

Lemma ALL_ONES_ones (v : ipversion) : ALL_ONES v = Z.ones (max_prefixlen v).
Proof. unfold ALL_ONES. rewrite Z.ones_equiv. lia. Qed.

Lemma max_prefixlen_pos (v : ipversion) : 0 < max_prefixlen v.
Proof. destruct v; simpl; lia. Qed.

Lemma ipversion_eqb_eq (a b : ipversion) : ipversion_eqb a b = true <-> a = b.
Proof. destruct a, b; simpl; split; congruence. Qed.

Lemma ipversion_eqb_refl (a : ipversion) : ipversion_eqb a a = true.
Proof. now apply ipversion_eqb_eq. Qed.

(** The netmask of a prefix [p] is ones above the [max - p] host bits. *)
Lemma ip_int_from_prefix_ones (v : ipversion) (p : Z) :
  0 <= p <= max_prefixlen v ->
  ip_int_from_prefix v p
  = Z.lxor (Z.ones (max_prefixlen v)) (Z.ones (max_prefixlen v - p)).
Proof.
  intros Hp. unfold ip_int_from_prefix. rewrite ALL_ONES_ones.
  rewrite Z.shiftr_div_pow2 by lia. now rewrite Z.ones_div_pow2 by lia.
Qed.

Lemma hostmask_ones (n : IPNetwork) :
  0 <= prefixlen n <= max_prefixlen (version n) ->
  hostmask n = Z.ones (max_prefixlen (version n) - prefixlen n).
Proof.
  intros Hp. unfold hostmask, netmask.
  rewrite ip_int_from_prefix_ones, ALL_ONES_ones by assumption.
  rewrite (Z.lxor_comm (Z.ones (max_prefixlen (version n)))).
  rewrite Z.lxor_assoc, Z.lxor_nilpotent. apply Z.lxor_0_r.
Qed.

Lemma hostmask_pow2 (n : IPNetwork) :
  0 <= prefixlen n <= max_prefixlen (version n) ->
  hostmask n = 2 ^ (max_prefixlen (version n) - prefixlen n) - 1.
Proof. intros Hp. rewrite hostmask_ones, Z.ones_equiv by assumption. lia. Qed.

(** The constructor's host-bit test, read arithmetically. *)
Lemma host_bits_clear (m k a : Z) :
  0 <= k <= m -> 0 <= a < 2 ^ m ->
  Z.land a (Z.lxor (Z.ones m) (Z.ones k)) = a <-> a mod 2 ^ k = 0.
Proof.
  intros Hk Ha. split; intros H.
  - rewrite <- Z.land_ones by lia. rewrite <- H, <- Z.land_assoc.
    replace (Z.land (Z.lxor (Z.ones m) (Z.ones k)) (Z.ones k)) with 0.
    + apply Z.land_0_r.
    + symmetry. apply Z.bits_inj'. intros i Hi.
      rewrite Z.land_spec, Z.lxor_spec, !Z.testbit_ones_nonneg, Z.bits_0 by lia.
      destruct (Z.ltb_spec i k), (Z.ltb_spec i m); simpl; try reflexivity; lia.
  - apply Z.bits_inj'. intros i Hi.
    rewrite Z.land_spec, Z.lxor_spec, !Z.testbit_ones_nonneg by lia.
    destruct (Z.ltb_spec i k) as [Hik | Hik].
    + rewrite <- (Z.mod_pow2_bits_low a k i Hik), H, Z.bits_0. reflexivity.
    + destruct (Z.ltb_spec i m) as [Him | Him]; simpl.
      * apply andb_true_r.
      * rewrite <- (Z.mod_small a (2 ^ m)) by lia.
        rewrite Z.mod_pow2_bits_high by lia. reflexivity.
Qed.

(** A network object is well formed when its prefix is in range and its
    address is a multiple of the block size inside the address space. *)
Lemma well_formed_iff (n : IPNetwork) :
  well_formed n <->
  0 <= prefixlen n <= max_prefixlen (version n)
  /\ 0 <= network_address n < 2 ^ max_prefixlen (version n)
  /\ network_address n mod 2 ^ (max_prefixlen (version n) - prefixlen n) = 0.
Proof.
  destruct n as [v a p]. unfold well_formed, make_network, make_address. simpl.
  unfold ALL_ONES.
  destruct (Z.ltb_spec a 0) as [Ha0 | Ha0]; simpl.
  { split; [discriminate | lia]. }
  destruct (Z.gtb_spec a (2 ^ max_prefixlen v - 1)) as [Ha1 | Ha1]; simpl.
  { split; [discriminate | lia]. }
  destruct (Z.ltb_spec p 0) as [Hp0 | Hp0]; simpl.
  { split; [discriminate | lia]. }
  destruct (Z.gtb_spec p (max_prefixlen v)) as [Hp1 | Hp1]; simpl.
  { split; [discriminate | lia]. }
  rewrite ip_int_from_prefix_ones by lia.
  pose proof (host_bits_clear (max_prefixlen v) (max_prefixlen v - p) a) as Hb.
  destruct (Z.eqb_spec (Z.land a (Z.lxor (Z.ones (max_prefixlen v))
                                         (Z.ones (max_prefixlen v - p)))) a)
    as [He | He]; simpl.
  - split; [intros _ | reflexivity].
    split; [lia | split; [lia | ]]. apply Hb; [lia | lia | exact He].
  - split; [discriminate | intros (_ & _ & Hm)].
    exfalso. apply He, Hb; [lia | lia | exact Hm].
Qed.

Lemma broadcast_address_eq (n : IPNetwork) :
  well_formed n ->
  broadcast_address n
  = network_address n + 2 ^ (max_prefixlen (version n) - prefixlen n) - 1.
Proof.
  intros Hwf. apply well_formed_iff in Hwf. destruct Hwf as (Hp & Ha & Hm).
  unfold broadcast_address. rewrite hostmask_ones by assumption.
  assert (Hl : Z.land (network_address n)
                 (Z.ones (max_prefixlen (version n) - prefixlen n)) = 0).
  { rewrite Z.land_ones by lia. exact Hm. }
  rewrite <- (Z.lxor_lor _ _ Hl), <- (Z.add_nocarry_lxor _ _ Hl), Z.ones_equiv.
  lia.
Qed.

Lemma num_addresses_eq (n : IPNetwork) :
  well_formed n ->
  num_addresses n = 2 ^ (max_prefixlen (version n) - prefixlen n).
Proof. intros Hwf. unfold num_addresses. rewrite broadcast_address_eq by assumption. lia. Qed.

Lemma num_addresses_pos (n : IPNetwork) : well_formed n -> 0 < num_addresses n.
Proof.
  intros Hwf. rewrite num_addresses_eq by assumption.
  apply well_formed_iff in Hwf. apply Z.pow_pos_nonneg; lia.
Qed.

Lemma within_refl (n : IPNetwork) : within n n.
Proof. unfold within. repeat split; lia. Qed.

Lemma within_trans (a b c : IPNetwork) : within a b -> within b c -> within a c.
Proof. unfold within. intros (? & ? & ?) (? & ? & ?). repeat split; [congruence | lia | lia]. Qed.

Lemma covers_within (n m : IPNetwork) (a : IPAddress) :
  within n m -> covers n a -> covers m a.
Proof. unfold within, covers. intros (? & ? & ?) (? & ? & ?). split; [congruence | lia]. Qed.

Lemma subnet_of_within (a b : IPNetwork) :
  subnet_of a b = Ok true <-> within a b.
Proof.
  unfold subnet_of, within.
  destruct (ipversion_eqb (version a) (version b)) eqn:Hv; simpl.
  - apply ipversion_eqb_eq in Hv. split.
    + intros H. injection H as H. apply andb_true_iff in H. destruct H as [H1 H2].
      apply Z.leb_le in H1. apply Z.geb_le in H2. repeat split; assumption.
    + intros (_ & H1 & H2). f_equal. apply andb_true_iff. split.
      * now apply Z.leb_le.
      * now apply Z.geb_le.
  - split; [discriminate | intros (H & _)].
    apply ipversion_eqb_eq in H. congruence.
Qed.

Lemma subnet_of_refl (a : IPNetwork) : subnet_of a a = Ok true.
Proof. apply subnet_of_within, within_refl. Qed.

Lemma network_eqb_subnet_of (a b : IPNetwork) :
  network_eqb a b = true -> subnet_of a b = Ok true.
Proof.
  unfold network_eqb. intros H.
  apply andb_true_iff in H. destruct H as [H Hm].
  apply andb_true_iff in H. destruct H as [Hv Ha].
  apply ipversion_eqb_eq in Hv. apply Z.eqb_eq in Ha, Hm.
  apply subnet_of_within. unfold within, broadcast_address, hostmask.
  rewrite Ha, Hm, Hv. repeat split; lia.
Qed.

Lemma make_network_ok (v : ipversion) (a p : Z) (n : IPNetwork) :
  make_network v a p = Ok n -> n = mkNetwork v a p /\ well_formed n.
Proof.
  intros H. assert (Hn : n = mkNetwork v a p).
  { unfold make_network, make_address in H.
    destruct (a <? 0); [discriminate |].
    destruct (a >? ALL_ONES v); [discriminate |]. simpl in H.
    destruct ((p <? 0) || (p >? max_prefixlen v)); [discriminate |].
    destruct (negb _); [discriminate |]. now injection H as <-. }
  split; [exact Hn |]. subst n. exact H.
Qed.

(** A network that is not a single address splits into its two halves. *)
Lemma subnets_halves (s : IPNetwork) :
  well_formed s -> prefixlen s <> max_prefixlen (version s) ->
  subnets s =
    (c1 <- make_network (version s) (network_address s) (prefixlen s + 1) ;;
     c2 <- make_network (version s)
             (network_address s + 2 ^ (max_prefixlen (version s) - prefixlen s - 1))
             (prefixlen s + 1) ;;
     Ok [c1; c2]).
Proof.
  intros Hwf Hp. pose proof (broadcast_address_eq s Hwf) as Hb.
  apply well_formed_iff in Hwf. destruct Hwf as (Hr & Ha & Hm).
  unfold subnets.
  destruct (Z.eqb_spec (prefixlen s) (max_prefixlen (version s))); [contradiction |].
  destruct (Z.gtb_spec (prefixlen s + 1) (max_prefixlen (version s))); [lia |].
  set (k := max_prefixlen (version s) - prefixlen s) in *.
  assert (Hk : 2 ^ k = 2 * 2 ^ (k - 1)).
  { replace k with (Z.succ (k - 1)) at 1 by lia. apply Z.pow_succ_r. lia. }
  assert (Hk1 : 0 < 2 ^ (k - 1)) by (apply Z.pow_pos_nonneg; lia).
  rewrite hostmask_pow2 by lia. fold k.
  unfold rshift. simpl (1 <? 0). cbv iota.
  replace (Z.shiftr (2 ^ k - 1 + 1) 1) with (2 ^ (k - 1)).
  2:{ rewrite Z.shiftr_div_pow2 by lia. rewrite Z.pow_1_r.
      replace (2 ^ k - 1 + 1) with (2 ^ (k - 1) * 2) by lia.
      now rewrite Z.div_mul by lia. }
  unfold range_step. simpl bind at 1.
  destruct (Z.eqb_spec (2 ^ (k - 1)) 0); [lia |].
  rewrite Hb. fold k.
  replace ((network_address s + 2 ^ k - 1 + 1 - network_address s + 2 ^ (k - 1) - 1)
           / 2 ^ (k - 1)) with 2.
  2:{ apply Z.div_unique with (r := 2 ^ (k - 1) - 1); lia. }
  simpl. rewrite Z.add_0_r.
  assert (E : forall z : Z,
             match z with 0 => 0 | Z.pos y => Z.pos y | Z.neg y => Z.neg y end = z)
    by (intros []; reflexivity).
  rewrite E.
  destruct (make_network (version s) (network_address s) (prefixlen s + 1)); simpl;
    try reflexivity.
  destruct (make_network (version s) (network_address s + 2 ^ (k - 1)) (prefixlen s + 1));
    reflexivity.
Qed.

Lemma two_subnets_within (s s1 s2 : IPNetwork) :
  well_formed s -> two_subnets s = Ok (s1, s2) ->
  (well_formed s1 /\ within s1 s) /\ (well_formed s2 /\ within s2 s).
Proof.
  intros Hwf H. unfold two_subnets in H.
  destruct (Z.eq_dec (prefixlen s) (max_prefixlen (version s))) as [Hp | Hp].
  { unfold subnets in H. apply Z.eqb_eq in Hp. rewrite Hp in H. discriminate. }
  rewrite subnets_halves in H by assumption.
  destruct (make_network _ _ _) as [c1 | |] eqn:H1 in H; try discriminate.
  simpl in H.
  destruct (make_network _ _ _) as [c2 | |] eqn:H2 in H; try discriminate.
  simpl in H. injection H as <- <-.
  apply make_network_ok in H1, H2. destruct H1 as [E1 W1], H2 as [E2 W2].
  pose proof (broadcast_address_eq _ W1) as B1.
  pose proof (broadcast_address_eq _ W2) as B2.
  pose proof (broadcast_address_eq _ Hwf) as B.
  apply well_formed_iff in Hwf. destruct Hwf as (Hr & Ha & Hm).
  set (k := max_prefixlen (version s) - prefixlen s) in *.
  assert (Hk : 2 ^ k = 2 * 2 ^ (k - 1)).
  { replace k with (Z.succ (k - 1)) at 1 by lia. apply Z.pow_succ_r. lia. }
  assert (Hk1 : 0 < 2 ^ (k - 1)) by (apply Z.pow_pos_nonneg; lia).
  subst c1 c2. simpl in B1, B2.
  replace (max_prefixlen (version s) - (prefixlen s + 1)) with (k - 1) in B1, B2 by lia.
  unfold within. simpl. rewrite B, B1, B2. repeat split; try assumption; lia.
Qed.

Lemma address_exclude_loop_within (s : IPNetwork) (k : nat) :
  forall (s1 s2 other : IPNetwork) (l : list IPNetwork),
  well_formed s1 /\ within s1 s -> well_formed s2 /\ within s2 s ->
  address_exclude_loop k s1 s2 other = Ok l ->
  Forall (fun n => well_formed n /\ within n s) l.
Proof.
  induction k as [| k IH]; intros s1 s2 other l H1 H2 H; simpl in H.
  - destruct (negb (network_eqb s1 other) && negb (network_eqb s2 other));
      [discriminate |].
    destruct (network_eqb s1 other); [injection H as <-; auto |].
    destruct (network_eqb s2 other); [injection H as <-; auto | discriminate].
  - destruct (negb (network_eqb s1 other) && negb (network_eqb s2 other)).
    + destruct (subnet_of other s1) as [[|] | |]; try discriminate; simpl in H.
      * destruct (two_subnets s1) as [[t1 t2] | |] eqn:Ht; try discriminate.
        simpl in H.
        destruct (address_exclude_loop k t1 t2 other) as [rest | |] eqn:Hr;
          try discriminate.
        injection H as <-.
        destruct (two_subnets_within s1 t1 t2 (proj1 H1) Ht) as [[W1 I1] [W2 I2]].
        constructor; [exact H2 |].
        apply (IH t1 t2 other); try assumption;
          (split; [assumption | eapply within_trans; [eassumption | apply H1]]).
      * destruct (subnet_of other s2) as [[|] | |]; try discriminate; simpl in H.
        destruct (two_subnets s2) as [[t1 t2] | |] eqn:Ht; try discriminate.
        simpl in H.
        destruct (address_exclude_loop k t1 t2 other) as [rest | |] eqn:Hr;
          try discriminate.
        injection H as <-.
        destruct (two_subnets_within s2 t1 t2 (proj1 H2) Ht) as [[W1 I1] [W2 I2]].
        constructor; [exact H1 |].
        apply (IH t1 t2 other); try assumption;
          (split; [assumption | eapply within_trans; [eassumption | apply H2]]).
    + destruct (network_eqb s1 other); [injection H as <-; auto |].
      destruct (network_eqb s2 other); [injection H as <-; auto | discriminate].
Qed.

(** What [address_exclude] yields are well-formed parts of [self]. *)
Lemma address_exclude_within (s o : IPNetwork) (l : list IPNetwork) :
  well_formed s -> address_exclude s o = Ok l ->
  Forall (fun n => well_formed n /\ within n s) l.
Proof.
  intros Hwf H. unfold address_exclude in H.
  destruct (negb (ipversion_eqb (version s) (version o))); [discriminate |].
  destruct (subnet_of o s) as [[|] | |]; cbn [bind negb] in H; try discriminate.
  destruct (network_eqb o s); [injection H as <-; constructor |].
  destruct (make_network _ _ _) as [o' | |]; try discriminate; cbn [bind] in H.
  destruct (two_subnets s) as [[s1 s2] | |] eqn:Ht; try discriminate; cbn [bind] in H.
  destruct (two_subnets_within s s1 s2 Hwf Ht) as [W1 W2].
  exact (address_exclude_loop_within s _ s1 s2 o' l W1 W2 H).
Qed.

(** *** Sizes *)

Lemma fold_left_add (l : list Z) (a : Z) :
  fold_left Z.add l a = a + fold_left Z.add l 0.
Proof.
  revert a. induction l as [| x l IH]; intros a; simpl; [lia |].
  rewrite (IH (a + x)), (IH x). lia.
Qed.

Lemma IPNetworks_len_cons (n : IPNetwork) (l : list IPNetwork) :
  IPNetworks.len (n :: l) = num_addresses n + IPNetworks.len l.
Proof. unfold IPNetworks.len. simpl. now rewrite fold_left_add. Qed.

Lemma IPNetworks_len_nonneg (l : list IPNetwork) :
  Forall well_formed l -> 0 <= IPNetworks.len l.
Proof.
  induction 1 as [| n l Hn _ IH]; [reflexivity |].
  rewrite IPNetworks_len_cons. pose proof (num_addresses_pos n Hn). lia.
Qed.

Lemma IPNetworks_len_app (l1 l2 : list IPNetwork) :
  IPNetworks.len (l1 ++ l2) = IPNetworks.len l1 + IPNetworks.len l2.
Proof.
  induction l1 as [| n l1 IH]; [reflexivity |].
  simpl app. rewrite !IPNetworks_len_cons, IH. lia.
Qed.

Lemma network_eqb_num_addresses (a b : IPNetwork) :
  network_eqb a b = true -> num_addresses a = num_addresses b.
Proof.
  unfold network_eqb. intros H.
  apply andb_true_iff in H. destruct H as [H Hm].
  apply andb_true_iff in H. destruct H as [Hv Ha].
  apply ipversion_eqb_eq in Hv. apply Z.eqb_eq in Ha, Hm.
  unfold num_addresses, broadcast_address, hostmask. now rewrite Ha, Hm, Hv.
Qed.

Lemma two_subnets_sizes (s s1 s2 : IPNetwork) :
  well_formed s -> two_subnets s = Ok (s1, s2) ->
  num_addresses s1 + num_addresses s2 = num_addresses s.
Proof.
  intros Hwf H.
  destruct (two_subnets_within s s1 s2 Hwf H) as [[W1 _] [W2 _]].
  rewrite !num_addresses_eq by assumption.
  unfold two_subnets in H.
  destruct (Z.eq_dec (prefixlen s) (max_prefixlen (version s))) as [Hp | Hp].
  { unfold subnets in H. apply Z.eqb_eq in Hp. rewrite Hp in H. discriminate. }
  rewrite subnets_halves in H by assumption.
  destruct (make_network _ _ _) as [c1 | |] eqn:H1 in H; try discriminate.
  simpl in H.
  destruct (make_network _ _ _) as [c2 | |] eqn:H2 in H; try discriminate.
  simpl in H. injection H as <- <-.
  apply make_network_ok in H1, H2. destruct H1 as [-> _], H2 as [-> _].
  apply well_formed_iff in Hwf. destruct Hwf as (Hr & _). simpl.
  replace (max_prefixlen (version s) - (prefixlen s + 1))
    with (max_prefixlen (version s) - prefixlen s - 1) by lia.
  replace (max_prefixlen (version s) - prefixlen s)
    with (Z.succ (max_prefixlen (version s) - prefixlen s - 1)) at 3 by lia.
  rewrite Z.pow_succ_r by lia. lia.
Qed.

Lemma address_exclude_loop_len (k : nat) :
  forall (s1 s2 other : IPNetwork) (l : list IPNetwork),
  well_formed s1 -> well_formed s2 ->
  address_exclude_loop k s1 s2 other = Ok l ->
  IPNetworks.len l + 1 <= num_addresses s1 + num_addresses s2.
Proof.
  assert (Hone : forall a b, well_formed a -> well_formed b ->
                   IPNetworks.len [a] + 1 <= num_addresses a + num_addresses b).
  { intros a b Wa Wb. rewrite IPNetworks_len_cons. unfold IPNetworks.len. simpl.
    pose proof (num_addresses_pos b Wb). lia. }
  induction k as [| k IH]; intros s1 s2 other l W1 W2 H; simpl in H.
  - destruct (negb (network_eqb s1 other) && negb (network_eqb s2 other));
      [discriminate |].
    destruct (network_eqb s1 other).
    + injection H as <-. specialize (Hone s2 s1 W2 W1). lia.
    + destruct (network_eqb s2 other); [| discriminate].
      injection H as <-. now apply Hone.
  - destruct (negb (network_eqb s1 other) && negb (network_eqb s2 other)).
    + destruct (subnet_of other s1) as [[|] | |]; try discriminate; simpl in H.
      * destruct (two_subnets s1) as [[t1 t2] | |] eqn:Ht; try discriminate.
        simpl in H.
        destruct (address_exclude_loop k t1 t2 other) as [rest | |] eqn:Hr;
          try discriminate.
        injection H as <-.
        destruct (two_subnets_within s1 t1 t2 W1 Ht) as [[V1 _] [V2 _]].
        pose proof (two_subnets_sizes s1 t1 t2 W1 Ht).
        pose proof (IH t1 t2 other rest V1 V2 Hr).
        rewrite IPNetworks_len_cons. lia.
      * destruct (subnet_of other s2) as [[|] | |]; try discriminate; simpl in H.
        destruct (two_subnets s2) as [[t1 t2] | |] eqn:Ht; try discriminate.
        simpl in H.
        destruct (address_exclude_loop k t1 t2 other) as [rest | |] eqn:Hr;
          try discriminate.
        injection H as <-.
        destruct (two_subnets_within s2 t1 t2 W2 Ht) as [[V1 _] [V2 _]].
        pose proof (two_subnets_sizes s2 t1 t2 W2 Ht).
        pose proof (IH t1 t2 other rest V1 V2 Hr).
        rewrite IPNetworks_len_cons. lia.
    + destruct (network_eqb s1 other).
      * injection H as <-. specialize (Hone s2 s1 W2 W1). lia.
      * destruct (network_eqb s2 other); [| discriminate].
        injection H as <-. now apply Hone.
Qed.

(** The pieces [address_exclude] yields hold fewer addresses than [self]. *)
Lemma address_exclude_len (s o : IPNetwork) (l : list IPNetwork) :
  well_formed s -> address_exclude s o = Ok l ->
  IPNetworks.len l <= num_addresses s.
Proof.
  intros Hwf H. unfold address_exclude in H.
  destruct (negb (ipversion_eqb (version s) (version o))); [discriminate |].
  destruct (subnet_of o s) as [[|] | |]; cbn [bind negb] in H; try discriminate.
  destruct (network_eqb o s).
  { injection H as <-. pose proof (num_addresses_pos s Hwf).
    unfold IPNetworks.len. simpl. lia. }
  destruct (make_network _ _ _) as [o' | |]; try discriminate; cbn [bind] in H.
  destruct (two_subnets s) as [[s1 s2] | |] eqn:Ht; try discriminate; cbn [bind] in H.
  destruct (two_subnets_within s s1 s2 Hwf Ht) as [[W1 _] [W2 _]].
  pose proof (two_subnets_sizes s s1 s2 Hwf Ht).
  pose proof (address_exclude_loop_len _ s1 s2 o' l W1 W2 H). lia.
Qed.

(** *** The generator of [address_exclude] ends *)

Lemma make_network_ends (v : ipversion) (a p : Z) : make_network v a p <> OutOfFuel.
Proof.
  unfold make_network, make_address.
  destruct (a <? 0); [discriminate |].
  destruct (a >? ALL_ONES v); [discriminate |]. simpl.
  destruct ((p <? 0) || (p >? max_prefixlen v)); [discriminate |].
  destruct (negb _); discriminate.
Qed.

Lemma two_subnets_ends (s : IPNetwork) : well_formed s -> two_subnets s <> OutOfFuel.
Proof.
  intros Hwf. unfold two_subnets.
  destruct (Z.eq_dec (prefixlen s) (max_prefixlen (version s))) as [Hp | Hp].
  - unfold subnets. apply Z.eqb_eq in Hp. rewrite Hp. discriminate.
  - rewrite subnets_halves by assumption.
    pose proof (make_network_ends (version s) (network_address s) (prefixlen s + 1)).
    destruct (make_network _ _ _) as [c1 | |] in *; try discriminate; [| contradiction].
    cbn [bind].
    pose proof (make_network_ends (version s)
                  (network_address s + 2 ^ (max_prefixlen (version s) - prefixlen s - 1))
                  (prefixlen s + 1)).
    destruct (make_network _ _ _) as [c2 | |] in *; try discriminate. contradiction.
Qed.

Lemma two_subnets_prefixlen (s s1 s2 : IPNetwork) :
  well_formed s -> two_subnets s = Ok (s1, s2) ->
  (version s1 = version s /\ prefixlen s1 = prefixlen s + 1)
  /\ (version s2 = version s /\ prefixlen s2 = prefixlen s + 1).
Proof.
  intros Hwf H. unfold two_subnets in H.
  destruct (Z.eq_dec (prefixlen s) (max_prefixlen (version s))) as [Hp | Hp].
  { unfold subnets in H. apply Z.eqb_eq in Hp. rewrite Hp in H. discriminate. }
  rewrite subnets_halves in H by assumption.
  destruct (make_network _ _ _) as [c1 | |] eqn:H1 in H; try discriminate.
  simpl in H.
  destruct (make_network _ _ _) as [c2 | |] eqn:H2 in H; try discriminate.
  simpl in H. injection H as <- <-.
  apply make_network_ok in H1, H2. destruct H1 as [-> _], H2 as [-> _].
  simpl. auto.
Qed.

Lemma address_exclude_loop_ends (k : nat) :
  forall s1 s2 other,
  well_formed s1 -> well_formed s2 ->
  version s2 = version s1 -> prefixlen s2 = prefixlen s1 ->
  max_prefixlen (version s1) - prefixlen s1 < Z.of_nat k ->
  address_exclude_loop k s1 s2 other <> OutOfFuel.
Proof.
  induction k as [| k IH]; intros s1 s2 other W1 W2 Hv Hp Hk.
  - apply well_formed_iff in W1. lia.
  - cbn [address_exclude_loop].
    destruct (negb (network_eqb s1 other) && negb (network_eqb s2 other)).
    + unfold subnet_of at 1.
      destruct (negb (ipversion_eqb (version other) (version s1))); [discriminate |].
      cbn [bind]. destruct (_ && _).
      * pose proof (two_subnets_ends s1 W1) as He.
        destruct (two_subnets s1) as [[t1 t2] | |] eqn:Ht; try discriminate;
          [| contradiction].
        cbn [bind].
        destruct (two_subnets_within s1 t1 t2 W1 Ht) as [[V1 _] [V2 _]].
        destruct (two_subnets_prefixlen s1 t1 t2 W1 Ht) as [[E1 P1] [E2 P2]].
        assert (Hl : address_exclude_loop k t1 t2 other <> OutOfFuel).
        { apply IH; try assumption; try congruence. rewrite E1. lia. }
        destruct (address_exclude_loop k t1 t2 other); try discriminate. contradiction.
      * unfold subnet_of at 1.
        destruct (negb (ipversion_eqb (version other) (version s2))); [discriminate |].
        cbn [bind]. destruct (_ && _); [| discriminate].
        pose proof (two_subnets_ends s2 W2) as He.
        destruct (two_subnets s2) as [[t1 t2] | |] eqn:Ht; try discriminate;
          [| contradiction].
        cbn [bind].
        destruct (two_subnets_within s2 t1 t2 W2 Ht) as [[V1 _] [V2 _]].
        destruct (two_subnets_prefixlen s2 t1 t2 W2 Ht) as [[E1 P1] [E2 P2]].
        assert (Hl : address_exclude_loop k t1 t2 other <> OutOfFuel).
        { apply IH; try assumption; try congruence. rewrite E1, Hv. lia. }
        destruct (address_exclude_loop k t1 t2 other); try discriminate. contradiction.
    + destruct (network_eqb s1 other); [discriminate |].
      destruct (network_eqb s2 other); discriminate.
Qed.

(** The counter of the model never runs out: [address_exclude] returns or
    raises. *)
Lemma address_exclude_ends (s o : IPNetwork) :
  well_formed s -> address_exclude s o <> OutOfFuel.
Proof.
  intros Hwf. unfold address_exclude.
  destruct (negb (ipversion_eqb (version s) (version o))); [discriminate |].
  unfold subnet_of.
  destruct (negb (ipversion_eqb (version o) (version s))); [discriminate |].
  cbn [bind]. destruct (negb _); [discriminate |].
  destruct (network_eqb o s); [discriminate |].
  pose proof (make_network_ends (version o) (network_address o) (prefixlen o)).
  destruct (make_network _ _ _) as [o' | |]; try discriminate; [| contradiction].
  cbn [bind].
  pose proof (two_subnets_ends s Hwf) as He.
  destruct (two_subnets s) as [[s1 s2] | |] eqn:Ht; try discriminate; [| contradiction].
  cbn [bind].
  destruct (two_subnets_within s s1 s2 Hwf Ht) as [[W1 _] [W2 _]].
  destruct (two_subnets_prefixlen s s1 s2 Hwf Ht) as [[E1 P1] [E2 P2]].
  apply address_exclude_loop_ends; try assumption; try congruence.
  apply well_formed_iff in Hwf. rewrite E1, P1.
  rewrite Nat2Z.inj_succ, Z2Nat.id by (destruct (version s); simpl; lia). lia.
Qed.

End ipaddress_facts.

(** * Exclusion *)
Module IPNetworks_facts.
Import ipaddress_facts IPNetworks.

Lemma subnets_of_one_false (s : IPNetwork) (others : list IPNetwork) :
  subnets_of_one s others = Ok false ->
  forall o, In o others -> subnet_of s o = Ok false.
Proof.
  induction others as [| o' others IH]; simpl; intros H o Ho; [contradiction |].
  destruct (subnet_of s o') as [[|] | |] eqn:Hs; simpl in H; try discriminate.
  destruct Ho as [<- | Ho]; [exact Hs | now apply IH].
Qed.

Lemma subnets_of_false (self others : list IPNetwork) :
  subnets_of self others = Ok false ->
  forall s o, In s self -> In o others -> subnet_of s o = Ok false.
Proof.
  induction self as [| s' self IH]; simpl; intros H s o Hs Ho; [contradiction |].
  destruct (subnets_of_one s' others) as [[|] | |] eqn:H1; simpl in H; try discriminate.
  destruct Hs as [<- | Hs].
  - now apply (subnets_of_one_false s' others).
  - now apply IH.
Qed.

(** When the [while] loop of [addresses_exclude] is left, its test has just
    come out false. *)
Lemma addresses_exclude_test (fuel : nat) :
  forall self others self',
  addresses_exclude fuel self others = Ok self' ->
  subnets_of self' others = Ok false.
Proof.
  induction fuel as [| fuel IH]; intros self others self' H; [discriminate |].
  cbn [addresses_exclude] in H.
  destruct (subnets_of self others) as [[|] | |] eqn:Ht; cbn [bind] in H;
    try discriminate.
  - destruct (exclude_from (S fuel) 0 others self) as [self1 | |]; cbn [bind] in H;
      try discriminate.
    now apply IH with (self := self1).
  - now injection H as <-.
Qed.

Lemma list_remove_In {A : Type} (eqb : A -> A -> bool) (x : A) (l l' : list A) :
  list_remove eqb x l = Ok l' -> forall y, In y l' -> In y l.
Proof.
  revert l'. induction l as [| a l IH]; simpl; intros l' H y Hy; [discriminate |].
  destruct (eqb a x).
  - injection H as <-. now right.
  - destruct (list_remove eqb x l) as [r | |]; simpl in H; try discriminate.
    injection H as <-. destruct Hy as [<- | Hy]; [now left | right; now apply IH with r].
Qed.

Lemma list_remove_len (s : IPNetwork) (self self1 : list IPNetwork) :
  list_remove network_eqb s self = Ok self1 ->
  IPNetworks.len self1 + num_addresses s = IPNetworks.len self.
Proof.
  revert self1. induction self as [| y self IH]; simpl; intros self1 H;
    [discriminate |].
  destruct (network_eqb y s) eqn:He.
  - injection H as <-. rewrite IPNetworks_len_cons.
    apply network_eqb_num_addresses in He. lia.
  - destruct (list_remove network_eqb s self) as [r | |]; simpl in H;
      try discriminate.
    injection H as <-. rewrite !IPNetworks_len_cons. specialize (IH r eq_refl). lia.
Qed.

Section Inside.
(** The members of the list before the call. *)
Variable original : list IPNetwork.

Lemma inside_part (n s : IPNetwork) :
  well_formed n /\ within n s -> inside original s -> inside original n.
Proof.
  intros [Hw Hn] [_ (m & Hm & Hs)]. split; [exact Hw |].
  exists m. split; [exact Hm | eapply within_trans; eassumption].
Qed.

(** One member's turn keeps every member a part of the original list, and
    does not add to the number of addresses counted by [len]. *)
Lemma exclude_others_inside (s : IPNetwork) (others : list IPNetwork) :
  forall self self',
  inside original s -> Forall (inside original) self ->
  exclude_others s others self = Ok self' ->
  Forall (inside original) self' /\ IPNetworks.len self' <= IPNetworks.len self.
Proof.
  induction others as [| o others IH]; intros self self' Hs Hself H; simpl in H.
  - injection H as <-. split; [assumption | lia].
  - destruct (subnet_of o s) as [[|] | |]; cbn [bind] in H; try discriminate.
    + destruct (list_remove network_eqb s self) as [self1 | |] eqn:Hr;
        cbn [bind] in H; try discriminate.
      destruct (address_exclude s o) as [pieces | |] eqn:Hp; cbn [bind] in H;
        try discriminate.
      pose proof (list_remove_len s self self1 Hr) as Hl1.
      pose proof (address_exclude_len s o pieces (proj1 Hs) Hp) as Hl2.
      destruct (IH (self1 ++ pieces) self' Hs) as [Hin Hlen]; [| exact H |].
      * apply Forall_app. split.
        -- rewrite Forall_forall in *. intros y Hy.
           apply Hself. eapply list_remove_In; eassumption.
        -- apply address_exclude_within in Hp; [| apply Hs].
           rewrite Forall_forall in *. intros y Hy.
           apply inside_part with s; auto.
      * split; [exact Hin |]. rewrite IPNetworks_len_app in Hlen. lia.
    + destruct (subnet_of s o) as [[|] | |]; cbn [bind] in H; try discriminate.
      * destruct (list_remove network_eqb s self) as [self1 | |] eqn:Hr;
          cbn [bind] in H; try discriminate.
        pose proof (list_remove_len s self self1 Hr) as Hl1.
        pose proof (num_addresses_pos s (proj1 Hs)) as Hl2.
        destruct (IH self1 self' Hs) as [Hin Hlen]; [| exact H |].
        -- rewrite Forall_forall in *. intros y Hy.
           apply Hself. eapply list_remove_In; eassumption.
        -- split; [exact Hin | lia].
      * now apply (IH self self').
Qed.

Lemma exclude_from_inside (fuel : nat) :
  forall i others self self',
  Forall (inside original) self ->
  exclude_from fuel i others self = Ok self' ->
  Forall (inside original) self' /\ IPNetworks.len self' <= IPNetworks.len self.
Proof.
  induction fuel as [| fuel IH]; intros i others self self' Hself H; [discriminate |].
  cbn [exclude_from] in H.
  destruct (nth_error self i) as [s |] eqn:Hi.
  - destruct (exclude_others s others self) as [self1 | |] eqn:H1; cbn [bind] in H;
      try discriminate.
    destruct (exclude_others_inside s others self self1) as [Hin1 Hlen1];
      try assumption.
    { rewrite Forall_forall in Hself. apply Hself. eapply nth_error_In; eassumption. }
    destruct (IH (S i) others self1 self' Hin1 H) as [Hin Hlen].
    split; [exact Hin | lia].
  - injection H as <-. split; [assumption | lia].
Qed.

Lemma addresses_exclude_inside (fuel : nat) :
  forall self others self',
  Forall (inside original) self ->
  addresses_exclude fuel self others = Ok self' ->
  Forall (inside original) self' /\ IPNetworks.len self' <= IPNetworks.len self.
Proof.
  induction fuel as [| fuel IH]; intros self others self' Hself H; [discriminate |].
  cbn [addresses_exclude] in H.
  destruct (subnets_of self others) as [[|] | |]; cbn [bind] in H; try discriminate.
  - destruct (exclude_from (S fuel) 0 others self) as [self1 | |] eqn:H1;
      cbn [bind] in H; try discriminate.
    destruct (exclude_from_inside (S fuel) 0 others self self1 Hself H1)
      as [Hin1 Hlen1].
    destruct (IH self1 others self' Hin1 H) as [Hin Hlen].
    split; [exact Hin | lia].
  - injection H as <-. split; [assumption | lia].
Qed.

End Inside.

Lemma inside_original (original : list IPNetwork) :
  Forall well_formed original -> Forall (inside original) original.
Proof.
  rewrite !Forall_forall. intros H n Hn. split; [now apply H |].
  exists n. split; [exact Hn | apply within_refl].
Qed.

(** C1. After [addresses_exclude] returns, no member of the list is a subnet
    of a member of [others], and none is equal to one (as [subnet_of] and
    [==] of the network classes decide it). *)
Theorem addresses_exclude_no_subnet
  (fuel : nat) (self others self' : list IPNetwork) :
  addresses_exclude fuel self others = Ok self' ->
  forall s o, In s self' -> In o others ->
    subnet_of s o = Ok false /\ network_eqb s o = false /\ s <> o.
Proof.
  intros H s o Hs Ho. apply addresses_exclude_test in H.
  pose proof (subnets_of_false _ _ H s o Hs Ho) as Hso.
  split; [exact Hso |]. split.
  - destruct (network_eqb s o) eqn:He; [| reflexivity].
    apply network_eqb_subnet_of in He. congruence.
  - intros ->. rewrite subnet_of_refl in Hso. discriminate.
Qed.

(** C10. Exclusion adds no address: what a member of the list covers after
    [addresses_exclude] returned was covered by a member before the call,
    and the number of addresses [len] counts has not grown. *)
Theorem addresses_exclude_covers_subset
  (fuel : nat) (self others self' : list IPNetwork) :
  Forall well_formed self ->
  addresses_exclude fuel self others = Ok self' ->
  (forall a : IPAddress,
      (exists n, In n self' /\ covers n a) -> exists m, In m self /\ covers m a)
  /\ IPNetworks.len self' <= IPNetworks.len self.
Proof.
  intros Hwf H.
  destruct (addresses_exclude_inside self fuel self others self'
              (inside_original self Hwf) H) as [Hin Hlen].
  split; [| exact Hlen].
  intros a (n & Hn & Hc).
  rewrite Forall_forall in Hin. destruct (Hin n Hn) as [_ (m & Hm & Hnm)].
  exists m. split; [exact Hm | eapply covers_within; eassumption].
Qed.

End IPNetworks_facts.

(** * Sampling *)
Module rand_facts.
Import ipaddress_facts.

Lemma world_eta (w : world) : mkWorld (gen w) (pos w) (trace w) = w.
Proof. now destruct w. Qed.

(** *** Network lists *)

Lemma broadcast_address_le (n : IPNetwork) :
  well_formed n -> broadcast_address n <= ALL_ONES (version n).
Proof.
  intros Hwf. rewrite broadcast_address_eq by assumption.
  apply well_formed_iff in Hwf. destruct Hwf as (Hp & Ha & Hm).
  unfold ALL_ONES.
  set (k := max_prefixlen (version n) - prefixlen n) in *.
  assert (Hk : 0 < 2 ^ k) by (apply Z.pow_pos_nonneg; lia).
  assert (Hs : 2 ^ max_prefixlen (version n) = 2 ^ prefixlen n * 2 ^ k).
  { rewrite <- Z.pow_add_r by lia. f_equal. lia. }
  apply Z.div_exact in Hm; [| lia].
  assert (Hq : network_address n / 2 ^ k < 2 ^ prefixlen n).
  { apply Z.div_lt_upper_bound; lia. }
  nia.
Qed.

Lemma IPNetworks_rand_walk_spec (self : list IPNetwork) :
  Forall well_formed self ->
  forall offset, 0 <= offset < IPNetworks.len self ->
  exists pre n post rem,
    self = pre ++ n :: post
    /\ offset = IPNetworks.len pre + rem
    /\ 0 <= rem < num_addresses n
    /\ IPNetworks.rand_walk self offset
       = Ok (Some (mkAddress (version n) (network_address n + rem))).
Proof.
  induction 1 as [| n l Hn Hl IH]; intros offset Ho.
  - unfold IPNetworks.len in Ho. simpl in Ho. lia.
  - rewrite IPNetworks_len_cons in Ho. simpl.
    destruct (Z.geb_spec offset (num_addresses n)) as [Hge | Hlt].
    + destruct (IH (offset - num_addresses n)) as (pre & m & post & rem & E & Eo & Hr & Hw);
        [lia |].
      exists (n :: pre), m, post, rem. rewrite IPNetworks_len_cons. subst l.
      repeat split; try assumption; lia.
    + exists [], n, l, offset. unfold IPNetworks.len at 1. simpl.
      repeat split; try lia.
      unfold address_add, make_address. simpl.
      pose proof (broadcast_address_le n Hn) as Hb.
      pose proof (proj1 (well_formed_iff n) Hn) as (_ & Ha & _).
      unfold num_addresses in Hlt.
      destruct (Z.ltb_spec (network_address n + offset) 0); [lia |].
      destruct (Z.gtb_spec (network_address n + offset) (ALL_ONES (version n)));
        [lia | reflexivity].
Qed.

(** *** MAC range lists *)

Lemma MACRange_len_eq (r : MACRange.t) :
  valid_range r -> MACRange.__len__ r = Ok (size r).
Proof.
  unfold valid_range, MACRange.__len__, size, lshift. intros Hr.
  destruct (Z.ltb_spec (48 - MACRange.mask r) 0); [lia |].
  cbn [bind]. rewrite Z.shiftl_1_l.
  assert (2 ^ (48 - MACRange.mask r) <= 2 ^ 48) by (apply Z.pow_le_mono_r; lia).
  destruct (Z.gtb_spec (2 ^ (48 - MACRange.mask r)) (2 ^ 63 - 1)); [lia | reflexivity].
Qed.

Lemma size_pos (r : MACRange.t) : valid_range r -> 0 < size r.
Proof. unfold valid_range, size. intros Hr. apply Z.pow_pos_nonneg; lia. Qed.

Lemma total_size_cons (r : MACRange.t) (l : list MACRange.t) :
  total_size (r :: l) = size r + total_size l.
Proof. unfold total_size. simpl. now rewrite fold_left_add. Qed.

Lemma comprehension_len (l : list MACRange.t) :
  Forall valid_range l -> comprehension MACRange.__len__ l = Ok (map size l).
Proof.
  induction 1 as [| r l Hr _ IH]; [reflexivity |].
  simpl. rewrite MACRange_len_eq, IH by assumption. reflexivity.
Qed.

Lemma MACRanges_len_eq (l : list MACRange.t) :
  Forall valid_range l -> MACRanges.len l = Ok (total_size l).
Proof. intros H. unfold MACRanges.len. now rewrite comprehension_len. Qed.

Lemma total_size_nonneg (l : list MACRange.t) :
  Forall valid_range l -> 0 <= total_size l.
Proof.
  induction 1 as [| r l Hr _ IH]; [reflexivity |].
  rewrite total_size_cons. pose proof (size_pos r Hr). lia.
Qed.

Lemma MACRanges_rand_walk_spec (self : list MACRange.t) :
  Forall valid_range self ->
  forall offset, 0 <= offset < total_size self ->
  exists pre m post rem,
    self = pre ++ m :: post
    /\ offset = total_size pre + rem
    /\ 0 <= rem < size m
    /\ MACRanges.rand_walk self offset = Ok (Some (MACRange.mac m + rem)).
Proof.
  induction 1 as [| r l Hr Hl IH]; intros offset Ho.
  - unfold total_size in Ho. simpl in Ho. lia.
  - rewrite total_size_cons in Ho. simpl. rewrite MACRange_len_eq by assumption.
    cbn [bind].
    destruct (Z.geb_spec offset (size r)) as [Hge | Hlt].
    + destruct (IH (offset - size r)) as (pre & m & post & rem & E & Eo & Hm & Hw);
        [lia |].
      exists (r :: pre), m, post, rem. rewrite total_size_cons. subst l.
      repeat split; try assumption; lia.
    + exists [], r, l, offset. unfold total_size at 1. simpl.
      repeat split; lia.
Qed.

Lemma IPNetworks_len_total (l : list IPNetwork) :
  Forall well_formed l -> IPNetworks.len l = total_addresses l.
Proof.
  unfold IPNetworks.len, total_addresses. intros H. f_equal.
  induction H as [| n l Hn _ IH]; [reflexivity |].
  simpl. now rewrite IH, (num_addresses_eq n Hn).
Qed.

(** The walk at an offset that lies in the share of a member. *)
Lemma MACRanges_rand_walk_at (pre post : list MACRange.t) (m : MACRange.t) (rem : Z) :
  Forall valid_range (pre ++ m :: post) -> 0 <= rem < size m ->
  MACRanges.rand_walk (pre ++ m :: post) (total_size pre + rem)
  = Ok (Some (MACRange.mac m + rem)).
Proof.
  intros Hv Hrem. induction pre as [| r pre IH]; simpl in *.
  - inversion Hv as [| ? ? Hm _]; subst.
    rewrite MACRange_len_eq by assumption. cbn [bind].
    unfold total_size. simpl.
    destruct (Z.geb_spec rem (size m)); [lia | reflexivity].
  - inversion Hv as [| ? ? Hr Hrest]; subst.
    rewrite MACRange_len_eq by assumption. cbn [bind].
    rewrite total_size_cons.
    pose proof (total_size_nonneg pre) as Hp.
    assert (Hpre : Forall valid_range pre)
      by (apply Forall_app in Hrest; apply Hrest).
    specialize (Hp Hpre).
    destruct (Z.geb_spec (size r + total_size pre + rem) (size r)); [| lia].
    replace (size r + total_size pre + rem - size r) with (total_size pre + rem) by lia.
    now apply IH.
Qed.

Lemma IPNetworks_rand_walk_at (pre post : list IPNetwork) (n : IPNetwork) (rem : Z) :
  Forall well_formed (pre ++ n :: post) -> 0 <= rem < net_size n ->
  IPNetworks.rand_walk (pre ++ n :: post) (total_addresses pre + rem)
  = Ok (Some (mkAddress (version n) (network_address n + rem))).
Proof.
  intros Hv Hrem. induction pre as [| r pre IH]; simpl in *.
  - inversion Hv as [| ? ? Hn _]; subst.
    unfold net_size in Hrem. rewrite <- (num_addresses_eq n Hn) in Hrem.
    unfold total_addresses. simpl.
    destruct (Z.geb_spec rem (num_addresses n)); [lia |].
    unfold address_add, make_address. simpl.
    pose proof (broadcast_address_le n Hn) as Hb.
    pose proof (proj1 (well_formed_iff n) Hn) as (_ & Ha & _).
    unfold num_addresses in Hrem.
    destruct (Z.ltb_spec (network_address n + rem) 0); [lia |].
    destruct (Z.gtb_spec (network_address n + rem) (ALL_ONES (version n)));
      [lia | reflexivity].
  - inversion Hv as [| ? ? Hr Hrest]; subst.
    assert (Hpre : Forall well_formed pre)
      by (apply Forall_app in Hrest; apply Hrest).
    pose proof (IPNetworks_len_nonneg pre Hpre) as Hp.
    rewrite (IPNetworks_len_total pre Hpre) in Hp.
    assert (E : total_addresses (r :: pre) = num_addresses r + total_addresses pre).
    { rewrite <- !IPNetworks_len_total by (assumption || now constructor).
      apply IPNetworks_len_cons. }
    rewrite E.
    destruct (Z.geb_spec (num_addresses r + total_addresses pre + rem) (num_addresses r));
      [| lia].
    replace (num_addresses r + total_addresses pre + rem - num_addresses r)
      with (total_addresses pre + rem) by lia.
    now apply IH.
Qed.

(** C2. [rand] of a non-empty list draws an offset below the total size
    (the sum of the members' sizes: [2 ^ (48 - mask)] for a MAC range, the
    addresses of its prefix length for a network), walks the members in
    order taking each member's size off the offset until it falls inside
    one, and returns that member's base plus what is left of the offset: an
    address of that member. The offsets that end in a member are its share
    of the total: those from the sizes of the members before it on, as many
    as its size. *)
Theorem rand_weighted_walk :
  (forall (self : list MACRange.t) (w : world),
      self <> [] -> Forall valid_range self ->
      MACRanges.len self = Ok (total_size self) /\ 0 < total_size self
      /\ exists pre m post rem,
           self = pre ++ m :: post
           /\ gen w (pos w) mod total_size self = total_size pre + rem
           /\ MACRanges.len pre = Ok (total_size pre)
           /\ MACRange.__len__ m = Ok (size m)
           /\ 0 <= rem < size m
           /\ MACRanges.rand self w
              = (Ok (Some (MACRange.mac m + rem)),
                 mkWorld (gen w) (S (pos w)) (trace w)))
  /\ (forall (self : list IPNetwork) (w : world),
      self <> [] -> Forall well_formed self ->
      IPNetworks.len self = total_addresses self /\ 0 < total_addresses self
      /\ exists pre n post rem,
           self = pre ++ n :: post
           /\ gen w (pos w) mod total_addresses self = total_addresses pre + rem
           /\ IPNetworks.len pre = total_addresses pre
           /\ num_addresses n = net_size n
           /\ 0 <= rem < net_size n
           /\ covers n (mkAddress (version n) (network_address n + rem))
           /\ IPNetworks.rand self w
              = (Ok (Some (mkAddress (version n) (network_address n + rem))),
                 mkWorld (gen w) (S (pos w)) (trace w)))
  /\ (forall (pre post : list MACRange.t) (m : MACRange.t) (rem : Z),
      Forall valid_range (pre ++ m :: post) -> 0 <= rem < size m ->
      MACRanges.rand_walk (pre ++ m :: post) (total_size pre + rem)
      = Ok (Some (MACRange.mac m + rem)))
  /\ (forall (pre post : list IPNetwork) (n : IPNetwork) (rem : Z),
      Forall well_formed (pre ++ n :: post) -> 0 <= rem < net_size n ->
      IPNetworks.rand_walk (pre ++ n :: post) (total_addresses pre + rem)
      = Ok (Some (mkAddress (version n) (network_address n + rem)))).
Proof.
  split; [| split; [| split]].
  - intros self w Hne Hv.
    assert (Hpos : 0 < total_size self).
    { destruct Hv as [| r l Hr Hl]; [contradiction |].
      rewrite total_size_cons.
      pose proof (size_pos r Hr). pose proof (total_size_nonneg l Hl). lia. }
    pose proof (Z.mod_pos_bound (gen w (pos w)) (total_size self) Hpos) as Hmod.
    destruct (MACRanges_rand_walk_spec self Hv _ Hmod)
      as (pre & m & post & rem & E & Eo & Hrem & Hw).
    assert (Hparts : Forall valid_range pre /\ valid_range m).
    { rewrite E in Hv. apply Forall_app in Hv. destruct Hv as [Hpre Hm].
      split; [exact Hpre | now inversion Hm]. }
    split; [now apply MACRanges_len_eq |]. split; [exact Hpos |].
    exists pre, m, post, rem.
    split; [exact E |]. split; [exact Eo |].
    split; [now apply MACRanges_len_eq |].
    split; [now apply MACRange_len_eq |]. split; [exact Hrem |].
    unfold MACRanges.rand, mbind, lift, randrange.
    rewrite MACRanges_len_eq by assumption.
    destruct (Z.leb_spec (total_size self) 0); [lia |].
    rewrite Z.sub_0_r, Z.add_0_l, Hw. reflexivity.
  - intros self w Hne Hv.
    pose proof (IPNetworks_len_total self Hv) as Et.
    assert (Hpos : 0 < IPNetworks.len self).
    { destruct Hv as [| n l Hn Hl]; [contradiction |].
      rewrite IPNetworks_len_cons.
      pose proof (num_addresses_pos n Hn). pose proof (IPNetworks_len_nonneg l Hl). lia. }
    pose proof (Z.mod_pos_bound (gen w (pos w)) (IPNetworks.len self) Hpos) as Hmod.
    destruct (IPNetworks_rand_walk_spec self Hv _ Hmod)
      as (pre & n & post & rem & E & Eo & Hrem & Hw).
    assert (Hparts : Forall well_formed pre /\ well_formed n).
    { rewrite E in Hv. apply Forall_app in Hv. destruct Hv as [Hpre Hn].
      split; [exact Hpre | now inversion Hn]. }
    destruct Hparts as [Hpre Hn].
    pose proof (IPNetworks_len_total pre Hpre) as Ep.
    pose proof (num_addresses_eq n Hn) as En.
    split; [exact Et |]. split; [now rewrite <- Et |].
    exists pre, n, post, rem.
    split; [exact E |]. split; [now rewrite <- Et, <- Ep |].
    split; [exact Ep |]. split; [exact En |].
    split; [unfold net_size; now rewrite <- En |].
    split.
    { unfold covers. cbn [ip aversion]. unfold num_addresses in Hrem.
      split; [reflexivity | lia]. }
    unfold IPNetworks.rand, mbind, lift, randrange.
    destruct (Z.leb_spec (IPNetworks.len self) 0); [lia |].
    rewrite Z.sub_0_r, Z.add_0_l, Hw. reflexivity.
  - exact MACRanges_rand_walk_at.
  - exact IPNetworks_rand_walk_at.
Qed.

End rand_facts.

(** * The scheduling loop *)
Module scheduler_facts.
Import Main.

Lemma after_nil (w : world) : after w [] = w.
Proof. unfold after. rewrite app_nil_r. now destruct w. Qed.

Lemma after_after (w : world) (e1 e2 : list event) :
  after (after w e1) e2 = after w (e1 ++ e2).
Proof. unfold after. simpl. now rewrite app_assoc. Qed.

(** A loop whose body only adds events adds the events of its turns, in
    the order of the list. *)
Lemma for_each_events {A : Type} (l : list A) (body : A -> M unit)
  (events : A -> list event) :
  (forall x, In x l -> forall w, body x w = (Ok tt, after w (events x))) ->
  forall w, for_each l body w = (Ok tt, after w (flat_map events l)).
Proof.
  induction l as [| x l IH]; intros Hbody w; simpl.
  - unfold ret. now rewrite after_nil.
  - unfold mbind. rewrite (Hbody x (or_introl eq_refl)).
    rewrite IH by (intros y Hy; apply Hbody; now right).
    now rewrite after_after.
Qed.

Lemma str_of_valid (mac : option Z) : valid_mac mac -> str_of mac = Ok (text_of mac).
Proof.
  destruct mac as [m |]; [| reflexivity]. simpl. intros Hm.
  unfold text_of, str_of, MAC.__str__, MAC.to_bytes.
  destruct (Z.ltb_spec m 0); [lia |].
  change (256 ^ Z.of_nat 6) with (2 ^ 48).
  destruct (Z.geb_spec m (2 ^ 48)); [lia | reflexivity].
Qed.

Lemma flat_map_flat_map {A B C : Type} (f : A -> list B) (g : B -> list C) (l : list A) :
  flat_map g (flat_map f l) = flat_map (fun x => flat_map g (f x)) l.
Proof.
  induction l as [| x l IH]; [reflexivity |].
  simpl. now rewrite flat_map_app, IH.
Qed.

Lemma flat_map_map {A B C : Type} (f : A -> B) (g : B -> list C) (l : list A) :
  flat_map g (map f l) = flat_map (fun x => g (f x)) l.
Proof. induction l as [| x l IH]; [reflexivity |]. simpl. now rewrite IH. Qed.

Lemma pass_run (spoofed : table) (targets : list IPNetwork) (w : world) :
  valid_table spoofed ->
  pass spoofed targets w = (Ok tt, after w (pass_events spoofed targets)).
Proof.
  intros Hv. unfold pass, pass_events, triples.
  rewrite flat_map_flat_map.
  apply for_each_events. intros [address mac] He w1.
  unfold valid_table in Hv. rewrite Forall_forall in Hv.
  pose proof (str_of_valid mac (Hv _ He)) as Hs.
  rewrite flat_map_flat_map.
  apply for_each_events. intros target _ w2.
  rewrite flat_map_map.
  apply for_each_events. intros host _ w3.
  unfold spoof, mbind, lift, emit, after. rewrite Hs. cbn.
  now rewrite <- app_assoc.
Qed.

Lemma calls_pass_events (spoofed : table) (targets : list IPNetwork) :
  calls (pass_events spoofed targets) = map call_of (triples spoofed targets).
Proof.
  unfold pass_events, calls. generalize (triples spoofed targets). intros l.
  induction l as [| [[address mac] host] l IH]; [reflexivity |].
  simpl. now rewrite <- IH.
Qed.

Lemma length_triples (spoofed : table) (targets : list IPNetwork) :
  List.length (triples spoofed targets)
  = (List.length spoofed * List.length (flat_map hosts targets))%nat.
Proof.
  unfold triples. induction spoofed as [| entry spoofed IH]; [reflexivity |].
  simpl. rewrite length_app, IH. f_equal.
  clear IH. induction targets as [| target targets IH]; [reflexivity |].
  simpl. now rewrite !length_app, length_map, IH.
Qed.

(** C5. One pass calls the transport once for every triple of a table
    entry, a target network and a host of that network, in the order of the
    nested loops: table order first, then target order, then host order. *)
Theorem pass_calls_transport_per_triple
  (spoofed : table) (targets : list IPNetwork) (w : world) :
  valid_table spoofed ->
  exists events,
    pass spoofed targets w = (Ok tt, after w events)
    /\ calls events = map call_of (triples spoofed targets)
    /\ List.length (calls events)
       = (List.length spoofed * List.length (flat_map hosts targets))%nat.
Proof.
  intros Hv. exists (pass_events spoofed targets).
  split; [now apply pass_run |].
  rewrite calls_pass_events, length_map.
  split; [reflexivity | apply length_triples].
Qed.




Lemma sleep_bounds : sleep_min = -9223372036 /\ sleep_max = 9223372036.
Proof. split; reflexivity. Qed.


Lemma sleep_refuses (n : Z) (w : world) :
  n < 0 \/ 9223372036 < n ->
  sleep n w
  = (Raise (if (n <? -9223372036) || (9223372036 <? n)
            then OverflowError else ValueError), w).
Proof.
  intros Hn. unfold sleep. destruct sleep_bounds as [-> ->].
  destruct ((n <? -9223372036) || (9223372036 <? n)) eqn:E; [reflexivity |].
  apply orb_false_iff in E. destruct E as [E1 E2].
  apply Z.ltb_ge in E1, E2.
  destruct (Z.ltb_spec n 0); [reflexivity | lia].
Qed.


(** X14. An interval that [time.sleep] refuses ends the script after the
    first pass: the pass is made, the sleeping message is printed, and
    [sleep] raises before anything is slept, a [ValueError] on a negative
    interval down to -9223372036, an [OverflowError] on one below that or
    above 9223372036 (its nanoseconds do not fit the clock). *)
Lemma scheduler_refused_interval (spoofed : table) (targets : list IPNetwork)
  (n : Z) (fuel : nat) (w : world) :
  valid_table spoofed -> n < 0 \/ 9223372036 < n ->
  scheduler (S fuel) spoofed targets (Some n) w
  = (Raise (if (n <? -9223372036) || (9223372036 <? n)
            then OverflowError else ValueError),
     after w (pass_events spoofed targets ++ [Print_sleeping n])).
Proof.
  intros Hv Hn. cbn [scheduler]. unfold mbind at 1. rewrite pass_run by assumption.
  unfold truthy. destruct (Z.eqb_spec n 0); [lia |]. cbn [negb].
  unfold mbind at 1. unfold emit at 1. unfold mbind at 1.
  rewrite sleep_refuses by assumption.
  unfold after. cbn [gen pos trace]. now rewrite <- app_assoc.
Qed.


End scheduler_facts.

(** * The spoof table *)
Module build_facts.
Import Main.

(** The [while] loop of [addresses_exclude] is not entered unless a member
    of the list lies inside a member of [others]: a member that only
    contains one of them is left whole. *)
Lemma addresses_exclude_untouched (fuel : nat) (self others : list IPNetwork) :
  IPNetworks.subnets_of self others = Ok false ->
  IPNetworks.addresses_exclude (S fuel) self others = Ok self.
Proof. intros H. cbn [IPNetworks.addresses_exclude]. now rewrite H. Qed.

(** [range] refuses the [float] that [min] hands back when the count is not
    above the size of the pool. *)
Lemma build_float_count (fuel : nat) (spoof_macs : list MACRange.t) (f : float)
  (spoofs : list IPNetwork) (w : world) :
  int_lt (IPNetworks.len spoofs) (Float f) = false ->
  build fuel spoof_macs (Float f) spoofs w = (Raise TypeError, w).
Proof. intros H. unfold build, min. rewrite H. reflexivity. Qed.

(** C3, where the code departs from it. With [--count 2.5], and as well
    with [--count 2], on the pool [10.0.0.0/28] of 16 addresses the loop
    over [range(min(count, len))] raises [TypeError]: no table is built. *)
Theorem build_float_count_raises :
  IPNetworks.len [net4 10 0 0 0 28] = 16
  /\ build 10 [macs40] (Float (Ffinite 5 (-1))) [net4 10 0 0 0 28] counting
     = (Raise TypeError, counting)
  /\ build 10 [macs40] (Float (Ffinite 2 0)) [net4 10 0 0 0 28] counting
     = (Raise TypeError, counting).
Proof.
  split; [reflexivity |].
  split; apply build_float_count; reflexivity.
Qed.

(** C4, where the code departs from it. Excluding the target [10.0.0.0/30]
    leaves the pool [10.0.0.0/28] whole, and excluding a drawn address
    leaves it whole again. With the default count 10 and a source that
    always yields 0 the ten turns draw [10.0.0.0] ten times: one key, and
    it is an address of the target. With the counting source two of the
    ten draws repeat an earlier one: eight keys. *)
Theorem build_repeats_target_address :
  IPNetworks.addresses_exclude 10 [net4 10 0 0 0 28] [net4 10 0 0 0 30]
  = Ok [net4 10 0 0 0 28]
  /\ fst (build 10 [macs40] (Int 10) [net4 10 0 0 0 28] zeros)
     = Ok ([net4 10 0 0 0 28], [(addr4 10 0 0 0, Some 2199023255552)])
  /\ covers (net4 10 0 0 0 30) (addr4 10 0 0 0)
  /\ option_map (fun r => List.length (snd r))
       (match fst (build 10 [macs40] (Int 10) [net4 10 0 0 0 28] counting) with
        | Ok r => Some r
        | _ => None
        end) = Some 8%nat.
Proof.
  split; [vm_compute; reflexivity |].
  split; [vm_compute; reflexivity |].
  split; [| vm_compute; reflexivity].
  unfold covers. split; [reflexivity |].
  split; apply Z.leb_le; vm_compute; reflexivity.
Qed.

End build_facts.

(** * The text of a MAC address *)
Module MAC_facts.

Import Text.

Lemma octets_ok : forallb octet_ok (range 0 256) = true.
Proof. vm_compute. reflexivity. Qed.

Lemma octet_text (b : Z) :
  0 <= b <= 255 -> int16 (format_x b) = Ok b /\ all_hex (format_x b) = true.
Proof.
  intros Hb. assert (Hin : In b (range 0 256)).
  { unfold range. apply in_map_iff. exists (Z.to_nat b). split; [lia |].
    apply in_seq. simpl. lia. }
  pose proof (proj1 (forallb_forall octet_ok (range 0 256)) octets_ok b Hin) as H.
  unfold octet_ok in H. destruct (int16 (format_x b)) as [v | |]; try discriminate.
  apply andb_true_iff in H. destruct H as [Hv Hh].
  apply Z.eqb_eq in Hv. now subst v.
Qed.

Lemma colon_not_hex : is_hex ":" = false.
Proof. reflexivity. Qed.

Lemma split_all_hex (s : string) : all_hex s = true -> split_not_hex s = [s].
Proof.
  induction s as [| c s IH]; simpl; intros H; [reflexivity |].
  apply andb_true_iff in H. destruct H as [Hc Hs].
  now rewrite Hc, IH.
Qed.

Lemma split_colon (s r : string) :
  all_hex s = true ->
  split_not_hex (s ++ String ":" r) = s :: split_not_hex r.
Proof.
  induction s as [| c s IH]; simpl; intros H.
  - reflexivity.
  - apply andb_true_iff in H. destruct H as [Hc Hs].
    now rewrite Hc, IH.
Qed.

Lemma split_concat (l : list string) :
  l <> [] -> Forall (fun s => all_hex s = true) l ->
  split_not_hex (String.concat ":" l) = l.
Proof.
  intros Hne Hl. induction Hl as [| s l Hs Hl IH]; [contradiction |].
  destruct l as [| s' l].
  - simpl. now apply split_all_hex.
  - change (String.concat ":" (s :: s' :: l))
      with (s ++ String ":" (String.concat ":" (s' :: l)))%string.
    rewrite split_colon by assumption. f_equal. apply IH. discriminate.
Qed.

Lemma comprehension_octets (l : list Z) :
  Forall (fun b => 0 <= b <= 255) l ->
  comprehension int16 (map format_x l) = Ok l
  /\ Forall (fun s => all_hex s = true) (map format_x l).
Proof.
  induction 1 as [| b l Hb _ [IH1 IH2]]; [split; [reflexivity | constructor] |].
  destruct (octet_text b Hb) as [Hi Hh]. simpl. rewrite Hi, IH1. split.
  - reflexivity.
  - now constructor.
Qed.

Lemma octet_eq (x : Z) (i : nat) : octet x i = (x / 256 ^ Z.of_nat i) mod 256.
Proof.
  unfold octet. change 255 with (Z.ones 8).
  rewrite Z.land_ones, Z.shiftr_div_pow2 by lia.
  rewrite Z.pow_mul_r by lia. reflexivity.
Qed.

Lemma octet_range (x : Z) (i : nat) : 0 <= octet x i <= 255.
Proof. rewrite octet_eq. pose proof (Z.mod_pos_bound (x / 256 ^ Z.of_nat i) 256). lia. Qed.

Lemma rev_seq_S (n : nat) : rev (seq 0 (S n)) = n :: rev (seq 0 n).
Proof. rewrite seq_S, rev_app_distr. reflexivity. Qed.

Lemma from_bytes_octets (x : Z) (n : nat) :
  forall acc,
  MAC.from_bytes_acc acc (map (octet x) (rev (seq 0 n)))
  = Ok (acc * 256 ^ Z.of_nat n + x mod 256 ^ Z.of_nat n).
Proof.
  induction n as [| n IH]; intros acc.
  - simpl. rewrite Z.mod_1_r. f_equal. lia.
  - rewrite rev_seq_S. cbn [map MAC.from_bytes_acc].
    pose proof (octet_range x n) as Hr.
    destruct (Z.ltb_spec (octet x n) 0); [lia |].
    destruct (Z.gtb_spec (octet x n) 255); [lia |]. cbn [orb].
    rewrite IH, octet_eq. f_equal.
    rewrite Nat2Z.inj_succ, Z.pow_succ_r by lia.
    assert (Hp : 0 < 256 ^ Z.of_nat n) by (apply Z.pow_pos_nonneg; lia).
    rewrite (Z.mul_comm 256 (256 ^ Z.of_nat n)).
    rewrite (Z.rem_mul_r x (256 ^ Z.of_nat n) 256) by lia.
    lia.
Qed.

(** C8. The text [str] makes of a 48-bit address parses back to it. *)
Theorem parse_str_roundtrip (mac : Z) :
  0 <= mac < 2 ^ 48 ->
  exists text, MAC.__str__ mac = Ok text /\ MAC.parse text = Ok mac.
Proof.
  intros Hm. unfold MAC.__str__, MAC.to_bytes.
  destruct (Z.ltb_spec mac 0); [lia |].
  change (256 ^ Z.of_nat 6) with (2 ^ 48).
  destruct (Z.geb_spec mac (2 ^ 48)); [lia |].
  cbn [bind]. fold (octet mac).
  set (parts := map (octet mac) (rev (seq 0 6))).
  exists (String.concat ":" (map format_x parts)). split; [reflexivity |].
  assert (Hparts : Forall (fun b => 0 <= b <= 255) parts).
  { apply Forall_forall. intros b Hb. apply in_map_iff in Hb.
    destruct Hb as (i & <- & _). apply octet_range. }
  destruct (comprehension_octets parts Hparts) as [Hc Hh].
  unfold MAC.parse. rewrite split_concat; [| discriminate | exact Hh].
  rewrite Hc. cbn [bind]. unfold MAC.from_bytes, parts.
  rewrite from_bytes_octets. f_equal.
  change (256 ^ Z.of_nat 6) with (2 ^ 48).
  rewrite Z.mod_small by lia. lia.
Qed.

(** C9, where the code departs from it. [format(part, "x")] does not pad:
    the six octets of [02:00:00:00:00:01] come out as one digit each. *)
Theorem str_octets_not_padded :
  MAC.parse "02:00:00:00:00:01" = Ok 2199023255553
  /\ MAC.__str__ 2199023255553 = Ok "2:0:0:0:0:1"%string
  /\ MACRange.search (Text.code_points "2:0:0:0:0:1/48") = None.
Proof. repeat split; vm_compute; reflexivity. Qed.

End MAC_facts.

(** * The text of a MAC range *)
Module MACRange_facts.
Import Text MACRange.
Local Open Scope string_scope.
Local Open Scope Z_scope.

Lemma append_assoc (a b c : string) : (a ++ b) ++ c = a ++ (b ++ c).
Proof. induction a as [| x a IH]; simpl; [reflexivity | now rewrite IH]. Qed.

Lemma ord_range (a : ascii) : 0 <= ord a < 256.
Proof. unfold ord. pose proof (N_ascii_bounded a). lia. Qed.

Lemma chr_ord (a : ascii) : chr (ord a) = a.
Proof. unfold chr, ord. rewrite N2Z.id. apply ascii_N_embedding. Qed.

Lemma ord_chr (c : Z) : 0 <= c < 256 -> ord (chr c) = c.
Proof.
  intros Hc. unfold chr, ord. rewrite N_ascii_embedding by lia. lia.
Qed.

Lemma in_class_some (class : ascii -> bool) (c : Z) (a : ascii) :
  in_class class c = Some a -> c = ord a /\ class a = true.
Proof.
  unfold in_class.
  destruct (Z.leb_spec 0 c); [| discriminate].
  destruct (Z.ltb_spec c 256); [| discriminate]. simpl.
  destruct (class (chr c)) eqn:Hc; [| discriminate].
  intros E. injection E as <-. split; [| exact Hc].
  symmetry. apply ord_chr. lia.
Qed.

Lemma in_class_ord (class : ascii -> bool) (a : ascii) :
  class a = true -> in_class class (ord a) = Some a.
Proof.
  intros Ha. unfold in_class. pose proof (ord_range a).
  destruct (Z.leb_spec 0 (ord a)); [| lia].
  destruct (Z.ltb_spec (ord a) 256); [| lia]. simpl.
  now rewrite chr_ord, Ha.
Qed.

Lemma code_points_app (a b : string) :
  code_points (a ++ b) = (code_points a ++ code_points b)%list.
Proof. induction a as [| x a IH]; simpl; [reflexivity | now rewrite IH]. Qed.

Lemma match_groups_sound (n : nat) :
  forall s m r,
  match_groups n s = Some (m, r) -> groups n m /\ s = (code_points m ++ r)%list.
Proof.
  induction n as [| n IH]; intros s m r H; simpl in H.
  - injection H as <- <-. split; [constructor | reflexivity].
  - destruct s as [| a [| b [| p s]]]; try discriminate.
    destruct (in_class is_hex a) as [a' |] eqn:Ha; [| discriminate].
    destruct (in_class is_hex b) as [b' |] eqn:Hb; [| discriminate].
    destruct (in_class is_sep p) as [p' |] eqn:Hp; [| discriminate].
    destruct (match_groups n s) as [[m' r'] |] eqn:Hm; [| discriminate].
    injection H as <- <-. destruct (IH s m' r' Hm) as [Hg ->].
    apply in_class_some in Ha, Hb, Hp.
    destruct Ha as [-> Ha], Hb as [-> Hb], Hp as [-> Hp].
    split; [now constructor | reflexivity].
Qed.

Lemma match_groups_complete (n : nat) (m : string) :
  groups n m -> forall r, match_groups n (code_points m ++ r)%list = Some (m, r).
Proof.
  induction 1 as [| n a b p s Ha Hb Hp _ IH]; intros r; [reflexivity |].
  simpl. now rewrite !in_class_ord, IH by assumption.
Qed.

Lemma span_digits_sound (s : str) :
  forall ds r, span_digits s = (ds, r) ->
  s = (ds ++ r)%list /\ all_digits ds = true /\ no_digit_ahead r.
Proof.
  induction s as [| c s IH]; intros ds r H; simpl in H.
  - injection H as <- <-. repeat split.
  - destruct (is_decimal c) eqn:Hc.
    + destruct (span_digits s) as [ds' r'] eqn:Hs. injection H as <- <-.
      destruct (IH ds' r' eq_refl) as (-> & Hd & Hr).
      unfold all_digits in *. simpl. rewrite Hc. repeat split; assumption.
    + injection H as <- <-. repeat split. exact Hc.
Qed.

Lemma span_digits_complete (ds r : str) :
  all_digits ds = true -> no_digit_ahead r -> span_digits (ds ++ r)%list = (ds, r).
Proof.
  unfold all_digits. induction ds as [| c ds IH]; simpl; intros Hd Hr.
  - destruct r as [| c r]; [reflexivity |]. simpl in *. now rewrite Hr.
  - apply andb_true_iff in Hd. destruct Hd as [Hc Hd].
    now rewrite Hc, IH.
Qed.

Lemma at_end_line_end (s : str) : at_end s = true <-> line_end s.
Proof.
  unfold line_end. destruct s as [| c [| c' s]]; simpl.
  - split; auto.
  - rewrite Z.eqb_eq. split.
    + intros ->. now right.
    + intros [H | H]; [discriminate | now injection H].
  - split; [discriminate | intros [H | H]; discriminate].
Qed.

Lemma line_end_no_digit (nl : str) : line_end nl -> no_digit_ahead nl.
Proof. intros [-> | ->]; reflexivity. Qed.

(** The regular expression matches with a [mask] group exactly the texts
    of an address, a slash, digits and the end of the line. *)
Lemma search_mask (text : str) (g : string) (ds : str) :
  search text = Some (g, Some ds) <->
  exists nl,
    mac_text g /\ ds <> [] /\ all_digits ds = true /\ line_end nl
    /\ text = (code_points g ++ ord "/" :: ds ++ nl)%list.
Proof.
  unfold search. split.
  - intros H.
    destruct (match_groups 5 text) as [[m [| a [| b r]]] |] eqn:Hm; try discriminate.
    destruct (match_groups_sound 5 text m _ Hm) as [Hg ->].
    destruct (in_class is_hex a) as [a' |] eqn:Ha; [| discriminate].
    destruct (in_class is_hex b) as [b' |] eqn:Hb; [| discriminate].
    apply in_class_some in Ha, Hb. destruct Ha as [-> Ha], Hb as [-> Hb].
    destruct r as [| c r]; [discriminate |].
    destruct (Z.eqb_spec c (ord "/")) as [-> | Hc].
    + destruct (span_digits r) as [ds' r'] eqn:Hs.
      destruct (span_digits_sound r ds' r' Hs) as (-> & Hd & _).
      destruct ds' as [| d ds']; [discriminate |].
      destruct (at_end r') eqn:He; [| discriminate].
      injection H as <- <-. exists r'.
      split; [exists m, a', b'; repeat split; assumption |].
      split; [discriminate |]. split; [exact Hd |].
      split; [now apply at_end_line_end |].
      rewrite code_points_app, <- app_assoc. reflexivity.
    + destruct (at_end (c :: r)); discriminate.
  - intros (nl & (h & a & b & Hg & Ha & Hb & ->) & Hne & Hd & Hnl & ->).
    rewrite code_points_app, <- app_assoc. cbn [code_points app].
    rewrite (match_groups_complete 5 h Hg), !in_class_ord by assumption.
    rewrite Z.eqb_refl.
    rewrite (span_digits_complete ds nl Hd (line_end_no_digit nl Hnl)).
    destruct ds as [| d ds]; [contradiction |].
    apply at_end_line_end in Hnl. now rewrite Hnl.
Qed.

(** *** The prefix length *)

Lemma decimal_value_range (c d : Z) : decimal_value c = Some d -> 0 <= d <= 9.
Proof.
  unfold decimal_value.
  destruct (find _ decimal_zeros) as [zero |] eqn:Hf; [| discriminate].
  apply find_some in Hf. destruct Hf as [_ Hz].
  apply andb_true_iff in Hz. destruct Hz as [H1 H2].
  apply Z.leb_le in H1. apply Z.ltb_lt in H2.
  intros H. injection H as <-. lia.
Qed.

Lemma decimal_digits_number (s : str) :
  all_digits s = true ->
  forall acc,
  decimal_digits acc s = Ok (fold_left (fun a c => a * 10 + digit c) s acc).
Proof.
  unfold all_digits. induction s as [| c s IH]; simpl; intros Hd acc; [reflexivity |].
  apply andb_true_iff in Hd. destruct Hd as [Hc Hd].
  unfold is_decimal in Hc. unfold digit at 2.
  destruct (decimal_value c) as [d |]; [| discriminate]. now apply IH.
Qed.

Lemma decimal_digits_all (s : str) :
  forall acc v, decimal_digits acc s = Ok v -> all_digits s = true.
Proof.
  unfold all_digits. induction s as [| c s IH]; simpl; intros acc v H; [reflexivity |].
  unfold is_decimal. destruct (decimal_value c) as [d |]; [| discriminate].
  simpl. exact (IH _ v H).
Qed.

Lemma number_nonneg (s : str) :
  forall acc, 0 <= acc -> 0 <= fold_left (fun a c => a * 10 + digit c) s acc.
Proof.
  induction s as [| c s IH]; simpl; intros acc Hacc; [exact Hacc |].
  apply IH. unfold digit.
  destruct (decimal_value c) as [d |] eqn:Hd; [| lia].
  apply decimal_value_range in Hd. lia.
Qed.

(** [int] returns on one to 4300 decimal digits, and then the number they
    write. *)
Lemma int10_ok_iff (ds : str) (v : Z) :
  int10 ds = Ok v <->
  ds <> [] /\ all_digits ds = true /\ Z.of_nat (List.length ds) <= 4300
  /\ v = prefix_number ds.
Proof.
  unfold int10, int_max_str_digits, prefix_number. split.
  - destruct ds as [| c ds]; [discriminate |].
    destruct (Z.ltb_spec 4300 (Z.of_nat (List.length (c :: ds)))) as [Hl | Hl];
      [discriminate |].
    intros E. pose proof (decimal_digits_all _ _ _ E) as Hd.
    rewrite decimal_digits_number in E by assumption.
    split; [discriminate |]. split; [exact Hd |]. split; [lia | congruence].
  - intros (Hne & Hd & Hl & ->). destruct ds as [| c ds]; [contradiction |].
    destruct (Z.ltb_spec 4300 (Z.of_nat (List.length (c :: ds)))); [lia |].
    now apply decimal_digits_number.
Qed.

Lemma int10_nonneg (s : str) (v : Z) : int10 s = Ok v -> 0 <= v.
Proof.
  intros H. apply int10_ok_iff in H. destruct H as (_ & _ & _ & ->).
  apply number_nonneg. lia.
Qed.

(** *** What the constructor can raise *)

Lemma bind_value_error_only {A B : Type} (m : outcome A) (k : A -> outcome B) :
  value_error_only m -> (forall a, value_error_only (k a)) ->
  value_error_only (Py.bind m k).
Proof. destruct m; simpl; auto. Qed.

Lemma int_digits_value_error_only (base : Z) (value : ascii -> option Z) (s : string) :
  forall acc, value_error_only (int_digits base value acc s).
Proof.
  induction s as [| c s IH]; intros acc; simpl; [exact I |].
  destruct (value c); [apply IH | reflexivity].
Qed.

Lemma int16_value_error_only (s : string) : value_error_only (int16 s).
Proof. destruct s; [reflexivity | apply int_digits_value_error_only]. Qed.

Lemma decimal_digits_value_error_only (s : str) :
  forall acc, value_error_only (decimal_digits acc s).
Proof.
  induction s as [| c s IH]; intros acc; simpl; [exact I |].
  destruct (decimal_value c); [apply IH | reflexivity].
Qed.

Lemma int10_value_error_only (s : str) : value_error_only (int10 s).
Proof.
  unfold int10. destruct s; [reflexivity |].
  destruct (_ <? _); [reflexivity | apply decimal_digits_value_error_only].
Qed.

Lemma comprehension_value_error_only {A B : Type} (f : A -> outcome B) (l : list A) :
  (forall x, value_error_only (f x)) -> value_error_only (comprehension f l).
Proof.
  intros Hf. induction l as [| x l IH]; simpl; [exact I |].
  apply bind_value_error_only; [apply Hf | intros y].
  apply bind_value_error_only; [exact IH | intros r; exact I].
Qed.

Lemma from_bytes_value_error_only (items : list Z) :
  forall acc, value_error_only (MAC.from_bytes_acc acc items).
Proof.
  induction items as [| b items IH]; intros acc; simpl; [exact I |].
  destruct ((b <? 0) || (b >? 255)); [reflexivity | apply IH].
Qed.

Lemma parse_value_error_only (s : string) : value_error_only (MAC.parse s).
Proof.
  unfold MAC.parse. apply bind_value_error_only.
  - apply comprehension_value_error_only, int16_value_error_only.
  - intros parts. apply from_bytes_value_error_only.
Qed.

Lemma lshift_value_error_only (a b : Z) : value_error_only (lshift a b).
Proof. unfold lshift. destruct (b <? 0); [reflexivity | exact I]. Qed.

(** The constructor ends, and what it raises is the [AttributeError] of a
    text that does not match, the [TypeError] of a missing prefix length,
    or a [ValueError]. *)
Lemma init_exceptions (text : str) :
  match __init__ text with
  | Ok _ => True
  | Raise e => e = AttributeError \/ e = TypeError \/ e = ValueError
  | OutOfFuel => False
  end.
Proof.
  unfold __init__. destruct (search text) as [[g [ds |]] |]; simpl; auto.
  assert (H : value_error_only
                (Py.bind (int10 ds) (fun mask =>
                   Py.bind (MAC.parse g) (fun mac =>
                     Py.bind (lshift 1 (48 - mask)) (fun size =>
                       Ok (mk mask (MAC.__and__ mac (Z.lnot (size - 1))))))))).
  { apply bind_value_error_only; [apply int10_value_error_only | intros mask].
    apply bind_value_error_only; [apply parse_value_error_only | intros mac].
    apply bind_value_error_only; [apply lshift_value_error_only | intros size].
    exact I. }
  destruct (Py.bind (int10 ds) _) as [r | e |]; simpl in *; auto.
Qed.

(** *** The address group always parses *)

Lemma sep_not_hex (p : ascii) : is_sep p = true -> is_hex p = false.
Proof.
  unfold is_sep. intros H.
  apply orb_true_iff in H. destruct H as [H | H].
  - apply orb_true_iff in H. destruct H as [H | H];
      apply Ascii.eqb_eq in H; subst p; reflexivity.
  - apply Ascii.eqb_eq in H. subst p. reflexivity.
Qed.

Lemma hex_value_range (c : ascii) (v : Z) : hex_value c = Some v -> 0 <= v <= 15.
Proof.
  unfold hex_value, between.
  change (ord "0") with 48. change (ord "9") with 57.
  change (ord "a") with 97. change (ord "f") with 102.
  change (ord "A") with 65. change (ord "F") with 70.
  intros H.
  destruct ((48 <=? ord c) && (ord c <=? 57)) eqn:E1;
    [| destruct ((97 <=? ord c) && (ord c <=? 102)) eqn:E2;
       [| destruct ((65 <=? ord c) && (ord c <=? 70)) eqn:E3; [| discriminate]]];
    injection H as <-;
    match goal with
    | E : _ && _ = true |- _ =>
        apply andb_true_iff in E; rewrite !Z.leb_le in E; lia
    end.
Qed.

Lemma int16_pair (a b : ascii) :
  is_hex a = true -> is_hex b = true ->
  exists v, int16 (String a (String b "")) = Ok v /\ 0 <= v <= 255.
Proof.
  unfold is_hex. intros Ha Hb.
  destruct (hex_value a) as [va |] eqn:Ea; [| discriminate].
  destruct (hex_value b) as [vb |] eqn:Eb; [| discriminate].
  apply hex_value_range in Ea as Ra. apply hex_value_range in Eb as Rb.
  exists ((0 * 16 + va) * 16 + vb). simpl. rewrite Ea, Eb. split; [reflexivity | lia].
Qed.

Lemma split_group (a b p : ascii) (s : string) :
  is_hex a = true -> is_hex b = true -> is_sep p = true ->
  split_not_hex (String a (String b (String p s)))
  = String a (String b "") :: split_not_hex s.
Proof.
  intros Ha Hb Hp. simpl. now rewrite Ha, Hb, (sep_not_hex p Hp).
Qed.

Lemma split_pair (a b : ascii) :
  is_hex a = true -> is_hex b = true ->
  split_not_hex (String a (String b "")) = [String a (String b "")].
Proof. intros Ha Hb. simpl. now rewrite Ha, Hb. Qed.

Lemma comprehension_groups (n : nat) (h : string) :
  groups n h ->
  forall rest tail,
    comprehension int16 (split_not_hex rest) = Ok tail ->
    exists parts,
      comprehension int16 (split_not_hex (h ++ rest)) = Ok (parts ++ tail)%list
      /\ octets parts /\ List.length parts = n.
Proof.
  induction 1 as [| n a b p s Ha Hb Hp _ IH]; intros rest tail Hrest.
  - exists []. split; [exact Hrest | split; [constructor | reflexivity]].
  - destruct (IH rest tail Hrest) as (parts & Hparts & Ho & Hlen).
    destruct (int16_pair a b Ha Hb) as (v & Hv & Rv).
    exists (v :: parts). cbn [append].
    rewrite split_group by assumption. cbn [comprehension].
    rewrite Hv, Hparts. split; [reflexivity |].
    split; [now constructor | simpl; now rewrite Hlen].
Qed.

(** Big-endian octets make a value below [256 ^ n]. *)
Lemma from_bytes_octets_bound (items : list Z) :
  octets items ->
  forall acc, 0 <= acc ->
  exists v, MAC.from_bytes_acc acc items = Ok v
            /\ 0 <= v < (acc + 1) * 256 ^ Z.of_nat (List.length items).
Proof.
  induction 1 as [| b items Hb _ IH]; intros acc Hacc.
  - exists acc. simpl. split; [reflexivity | lia].
  - cbn [MAC.from_bytes_acc List.length].
    destruct (Z.ltb_spec b 0); [lia |].
    destruct (Z.gtb_spec b 255); [lia |]. cbn [orb].
    destruct (IH (acc * 256 + b)) as (v & Hv & Rv); [lia |].
    exists v. split; [exact Hv |].
    rewrite Nat2Z.inj_succ, Z.pow_succ_r by lia.
    assert (0 < 256 ^ Z.of_nat (List.length items)) by (apply Z.pow_pos_nonneg; lia).
    nia.
Qed.

Lemma parse_mac_text (g : string) :
  mac_text g -> exists m, MAC.parse g = Ok m /\ 0 <= m < 2 ^ 48.
Proof.
  intros (h & a & b & Hg & Ha & Hb & ->).
  destruct (int16_pair a b Ha Hb) as (v & Hv & Rv).
  destruct (comprehension_groups 5 h Hg (String a (String b "")) [v])
    as (parts & Hparts & Ho & Hlen).
  { rewrite split_pair by assumption. cbn [comprehension]. now rewrite Hv. }
  unfold MAC.parse. rewrite Hparts. cbn [bind].
  assert (Hall : octets (parts ++ [v])).
  { apply Forall_app. split; [exact Ho | now constructor]. }
  destruct (from_bytes_octets_bound _ Hall 0) as (m & Hm & Rm); [lia |].
  exists m. split; [exact Hm |].
  rewrite length_app, Hlen in Rm. simpl in Rm. lia.
Qed.

(** The texts the constructor accepts are the well-formed ones. *)
Lemma init_ok_iff (text : str) :
  (exists r, __init__ text = Ok r) <-> well_formed_text text.
Proof.
  split.
  - intros (r & H). unfold __init__ in H.
    destruct (search text) as [[g [ds |]] |] eqn:Hs; try discriminate.
    destruct (int10 ds) as [v | |] eqn:Hv; try discriminate. cbn [bind] in H.
    destruct (MAC.parse g) as [m | |]; try discriminate. cbn [bind] in H.
    unfold lshift in H. destruct (Z.ltb_spec (48 - v) 0); [discriminate |].
    apply search_mask in Hs. destruct Hs as (nl & Hg & Hne & Hd & Hnl & ->).
    pose proof (int10_nonneg ds v Hv).
    apply int10_ok_iff in Hv. destruct Hv as (_ & _ & Hl & ->).
    exists g, ds, nl. repeat split; try assumption; lia.
  - intros (g & ds & nl & Hg & Hne & Hd & Hl & Hnl & Rv & ->).
    assert (Hs : search (code_points g ++ ord "/" :: ds ++ nl)%list = Some (g, Some ds)).
    { apply search_mask. exists nl. repeat split; assumption. }
    assert (Hv : int10 ds = Ok (prefix_number ds)).
    { apply int10_ok_iff. repeat split; assumption. }
    destruct (parse_mac_text g Hg) as (m & Hm & _).
    unfold __init__. rewrite Hs, Hv. cbn [bind]. rewrite Hm. cbn [bind].
    unfold lshift. destruct (Z.ltb_spec (48 - prefix_number ds) 0); [lia |].
    cbn [bind]. eexists. reflexivity.
Qed.

Lemma init_ok_mask (text : str) (r : t) :
  __init__ text = Ok r -> 0 <= mask r <= 48.
Proof.
  intros H. unfold __init__ in H.
  destruct (search text) as [[g [ds |]] |]; try discriminate.
  destruct (int10 ds) as [v | |] eqn:Hv; try discriminate. cbn [bind] in H.
  destruct (MAC.parse g) as [m | |]; try discriminate. cbn [bind] in H.
  unfold lshift in H. destruct (Z.ltb_spec (48 - v) 0); [discriminate |].
  cbn [bind] in H. injection H as <-. simpl.
  pose proof (int10_nonneg ds v Hv). lia.
Qed.

Lemma init_not_well_formed (text : str) :
  ~ well_formed_text text ->
  exists e, __init__ text = Raise e
            /\ (e = AttributeError \/ e = TypeError \/ e = ValueError).
Proof.
  intros Hn. pose proof (init_exceptions text) as He.
  destruct (__init__ text) as [r | e |] eqn:H.
  - exfalso. apply Hn, init_ok_iff. now exists r.
  - now exists e.
  - contradiction.
Qed.

(** The list comprehension over the [--mac] options stops at the first
    text that is not well formed. *)
Lemma comprehension_init_fails (l : list str) :
  Exists (fun text => ~ well_formed_text text) l ->
  exists e, comprehension __init__ l = Raise e.
Proof.
  induction l as [| x l IH]; intros H; [inversion H |].
  cbn [comprehension].
  pose proof (init_exceptions x) as Hx.
  destruct (__init__ x) as [r | e |] eqn:Hi.
  - cbn [bind]. destruct IH as (e & ->).
    + inversion H as [? ? Hbad | ? ? Htail]; subst; [| exact Htail].
      exfalso. apply Hbad, init_ok_iff. now exists r.
    + now exists e.
  - now exists e.
  - contradiction.
Qed.

(** The script has stopped at an earlier step, the world as it was. *)
Ltac stops_early :=
  eexists; split; [reflexivity | split; [reflexivity | intros; congruence]].

(** C7, as the code has it. The constructor of [MACRange] accepts the
    well-formed texts (six groups of two hexadecimal digits, a slash, a
    decimal prefix length of [0 .. 48] written in no more than 4300 digits)
    and raises on every other text: malformed groups, a prefix length above
    48, no prefix length, a prefix length of more than 4300 digits. A text
    of [--mac] that is not well formed ends the script before anything is
    printed or sent. *)
Theorem init_raises_before_io (text : str) :
  (well_formed_text text ->
     exists r, __init__ text = Ok r /\ 0 <= mask r <= 48)
  /\ (~ well_formed_text text ->
        exists e, __init__ text = Raise e
                  /\ (e = AttributeError \/ e = TypeError \/ e = ValueError))
  /\ (forall (ip_network : str -> outcome IPNetwork) (fuel : nat)
             (args : Main.Args) (w : world),
        In text (Main.mac args) -> ~ well_formed_text text ->
        exists o,
          Main.main ip_network fuel args w = (o, w)
          /\ returns o = false
          /\ (forall targets spoofs spoofs',
                comprehension ip_network (Main.target args) = Ok targets ->
                comprehension ip_network (Main.spoof_ args) = Ok spoofs ->
                IPNetworks.addresses_exclude fuel spoofs targets = Ok spoofs' ->
                raises o = true)).
Proof.
  split; [| split].
  - intros Hw. apply init_ok_iff in Hw. destruct Hw as (r & Hr).
    exists r. split; [exact Hr | now apply init_ok_mask with text].
  - apply init_not_well_formed.
  - intros ip_network fuel args w Hin Hbad.
    destruct (comprehension_init_fails (Main.mac args)) as (e & He).
    { apply Exists_exists. now exists text. }
    unfold Main.main, mbind, lift.
    destruct (comprehension ip_network (Main.target args)) as [targets | e1 |] eqn:E1;
      [| stops_early
       | stops_early].
    destruct (comprehension ip_network (Main.spoof_ args)) as [spoofs | e2 |] eqn:E2;
      [| stops_early
       | stops_early].
    destruct (IPNetworks.addresses_exclude fuel spoofs targets) as [spoofs' | e3 |] eqn:E3;
      [| stops_early
       | stops_early].
    rewrite He. exists (Raise e). repeat split.
Qed.

End MACRange_facts.

(** * The tables the script builds *)
Module table_facts.
Import Main rand_facts scheduler_facts MACRange_facts.

Lemma clear_low_bits (m k : Z) :
  0 <= k -> Z.land m (Z.lnot (2 ^ k - 1)) = m / 2 ^ k * 2 ^ k.
Proof.
  intros Hk. replace (2 ^ k - 1) with (Z.ones k) by (rewrite Z.ones_equiv; lia).
  rewrite <- Z.ldiff_land, Z.ldiff_ones_r by assumption.
  now rewrite Z.shiftr_div_pow2, Z.shiftl_mul_pow2 by assumption.
Qed.

(** What the constructor builds is a block of the 48-bit space. *)
Lemma init_aligned (text : Text.str) (r : MACRange.t) :
  MACRange.__init__ text = Ok r -> aligned r.
Proof.
  intros H. pose proof (init_ok_mask text r H) as Hmask.
  unfold MACRange.__init__ in H.
  destruct (MACRange.search text) as [[g [ds |]] |] eqn:Hs; try discriminate.
  apply search_mask in Hs. destruct Hs as (nl & Hg & _).
  destruct (parse_mac_text g Hg) as (m & Hm & Rm).
  destruct (Text.int10 ds) as [v | |]; try discriminate. unfold bind at 1 in H.
  rewrite Hm in H. unfold bind at 1 in H.
  unfold lshift in H. destruct (Z.ltb_spec (48 - v) 0); [discriminate |].
  unfold bind in H.
  assert (E : r = MACRange.mk v (MAC.__and__ m (Z.lnot (Z.shiftl 1 (48 - v) - 1))))
    by congruence.
  subst r. unfold MACRange.mask in Hmask.
  unfold aligned, valid_range, size, MACRange.mask, MACRange.mac, MAC.__and__.
  rewrite Z.shiftl_1_l, clear_low_bits by lia.
  set (k := 48 - v) in *.
  assert (Hk : 0 < 2 ^ k) by (apply Z.pow_pos_nonneg; lia).
  assert (Hs : 2 ^ 48 = 2 ^ k * 2 ^ v).
  { rewrite <- Z.pow_add_r by lia. f_equal. lia. }
  assert (Hq : m / 2 ^ k < 2 ^ v) by (apply Z.div_lt_upper_bound; lia).
  assert (Hq0 : 0 <= m / 2 ^ k) by (apply Z.div_pos; lia).
  split; [exact Hmask |]. split; nia.
Qed.

Lemma comprehension_init_aligned (texts : list Text.str) :
  forall macs, comprehension MACRange.__init__ texts = Ok macs -> Forall aligned macs.
Proof.
  induction texts as [| text texts IH]; intros macs H; cbn [comprehension] in H.
  - injection H as <-. constructor.
  - destruct (MACRange.__init__ text) as [r | |] eqn:Hr; try discriminate.
    cbn [bind] in H.
    destruct (comprehension MACRange.__init__ texts) as [rs | |]; try discriminate.
    cbn [bind] in H. injection H as <-.
    constructor; [now apply init_aligned with text | now apply IH].
Qed.

Lemma aligned_valid_range (macs : list MACRange.t) :
  Forall aligned macs -> Forall valid_range macs.
Proof. apply Forall_impl. now intros r [H _]. Qed.

(** [rand] over constructed ranges returns a 48-bit address. *)
Lemma rand_valid_mac (macs : list MACRange.t) (w w' : world) (mac : option Z) :
  Forall aligned macs ->
  MACRanges.rand macs w = (Ok mac, w') -> valid_mac mac.
Proof.
  intros Ha H. pose proof (aligned_valid_range macs Ha) as Hv.
  unfold MACRanges.rand, mbind, lift, randrange in H.
  rewrite MACRanges_len_eq in H by assumption.
  destruct (Z.leb_spec (total_size macs) 0) as [Hle | Hlt]; [discriminate |].
  rewrite Z.sub_0_r, Z.add_0_l in H.
  pose proof (Z.mod_pos_bound (gen w (pos w)) (total_size macs) Hlt) as Hmod.
  destruct (MACRanges_rand_walk_spec macs Hv _ Hmod)
    as (pre & m & post & rem & E & _ & Hrem & Hw).
  rewrite Hw in H. injection H as <- _.
  assert (Hm : aligned m).
  { rewrite Forall_forall in Ha. apply Ha. rewrite E. apply in_elt. }
  destruct Hm as (_ & H0 & H1). simpl. lia.
Qed.

Lemma setitem_valid (spoofed : table) (address : IPAddress) (mac : option Z) :
  valid_table spoofed -> valid_mac mac -> valid_table (setitem spoofed address mac).
Proof.
  unfold valid_table. intros Ht Hm.
  induction Ht as [| [k v] spoofed Hk Ht IH]; simpl.
  - now repeat constructor.
  - destruct (address_eqb k address); constructor; assumption.
Qed.

Lemma build_loop_valid (turns : nat) (fuel : nat) (macs : list MACRange.t) :
  Forall aligned macs ->
  forall spoofs spoofed w r w',
  valid_table spoofed ->
  build_loop turns fuel macs spoofs spoofed w = (Ok r, w') ->
  valid_table (snd r).
Proof.
  intros Ha. induction turns as [| turns IH]; intros spoofs spoofed w r w' Ht H.
  - injection H as <- _. exact Ht.
  - cbn [build_loop] in H. unfold mbind at 1 in H.
    destruct (IPNetworks.rand spoofs w) as [[address | |] w1]; try discriminate.
    unfold mbind at 1 in H. unfold lift at 1 in H.
    destruct (ip_network_of address) as [single | |]; try discriminate.
    unfold mbind at 1 in H. unfold lift at 1 in H.
    destruct (IPNetworks.addresses_exclude fuel spoofs [single]) as [spoofs' | |];
      try discriminate.
    unfold mbind at 1 in H.
    destruct (MACRanges.rand macs w1) as [[mac | |] w2] eqn:Hr; try discriminate.
    destruct address as [a |]; [| discriminate].
    apply (IH spoofs' (setitem spoofed a mac) w2 r w'); [| exact H].
    apply setitem_valid; [exact Ht | now apply rand_valid_mac with macs w1 w2].
Qed.

(** The hypothesis of the scheduling theorems holds of every table the
    script builds from the [--mac] options it accepted. *)
Lemma build_valid_table (fuel : nat) (texts : list Text.str) (macs : list MACRange.t)
  (count : number) (spoofs : list IPNetwork) (w w' : world)
  (r : list IPNetwork * table) :
  comprehension MACRange.__init__ texts = Ok macs ->
  build fuel macs count spoofs w = (Ok r, w') ->
  valid_table (snd r).
Proof.
  intros Hm H. apply comprehension_init_aligned in Hm.
  unfold build, mbind, lift in H.
  destruct (range_turns (min count (IPNetworks.len spoofs))) as [turns | |];
    try discriminate.
  apply (build_loop_valid turns fuel macs Hm spoofs [] w r w'); [constructor | exact H].
Qed.

End table_facts.

(** * More on exclusion *)
Module exclusion_more.
Import ipaddress_facts IPNetworks_facts IPNetworks.










(** *** The loops of [addresses_exclude] end *)

Lemma length_le_len (self : list IPNetwork) :
  Forall well_formed self -> Z.of_nat (List.length self) <= IPNetworks.len self.
Proof.
  induction 1 as [| n l Hn _ IH]; [reflexivity |].
  rewrite IPNetworks_len_cons. pose proof (num_addresses_pos n Hn).
  cbn [List.length]. lia.
Qed.

Lemma inside_well_formed (original self : list IPNetwork) :
  Forall (inside original) self -> Forall well_formed self.
Proof. apply Forall_impl. now intros n [H _]. Qed.

Lemma subnet_of_ends (a b : IPNetwork) : subnet_of a b <> OutOfFuel.
Proof. unfold subnet_of. destruct (negb _); discriminate. Qed.

Lemma subnets_of_one_ends (s : IPNetwork) (others : list IPNetwork) :
  subnets_of_one s others <> OutOfFuel.
Proof.
  induction others as [| o others IH]; simpl; [discriminate |].
  pose proof (subnet_of_ends s o).
  destruct (subnet_of s o) as [[|] | |]; simpl; try discriminate; auto.
Qed.

Lemma subnets_of_ends (self others : list IPNetwork) :
  subnets_of self others <> OutOfFuel.
Proof.
  induction self as [| s self IH]; simpl; [discriminate |].
  pose proof (subnets_of_one_ends s others).
  destruct (subnets_of_one s others) as [[|] | |]; simpl; try discriminate; auto.
Qed.

Lemma list_remove_ends {A : Type} (eqb : A -> A -> bool) (x : A) (l : list A) :
  list_remove eqb x l <> OutOfFuel.
Proof.
  induction l as [| y l IH]; simpl; [discriminate |].
  destruct (eqb y x); [discriminate |].
  destruct (list_remove eqb x l); simpl; try discriminate. contradiction.
Qed.

Lemma exclude_others_ends (s : IPNetwork) (others : list IPNetwork) :
  well_formed s -> forall self, exclude_others s others self <> OutOfFuel.
Proof.
  intros Hs. induction others as [| o others IH]; intros self; simpl; [discriminate |].
  pose proof (subnet_of_ends o s).
  destruct (subnet_of o s) as [[|] | |]; cbn [bind]; try discriminate; auto.
  - pose proof (list_remove_ends network_eqb s self).
    destruct (list_remove network_eqb s self) as [self1 | |]; cbn [bind];
      try discriminate; auto.
    pose proof (address_exclude_ends s o Hs).
    destruct (address_exclude s o) as [pieces | |]; cbn [bind];
      try discriminate; auto.
  - pose proof (subnet_of_ends s o).
    destruct (subnet_of s o) as [[|] | |]; cbn [bind]; try discriminate; auto.
    pose proof (list_remove_ends network_eqb s self).
    destruct (list_remove network_eqb s self) as [self1 | |]; cbn [bind];
      try discriminate; auto.
Qed.

(** The pieces are strictly fewer addresses than the network cut. *)
Lemma address_exclude_len_lt (s o : IPNetwork) (l : list IPNetwork) :
  well_formed s -> address_exclude s o = Ok l ->
  IPNetworks.len l < num_addresses s.
Proof.
  intros Hwf H. unfold address_exclude in H.
  destruct (negb (ipversion_eqb (version s) (version o))); [discriminate |].
  destruct (subnet_of o s) as [[|] | |]; cbn [bind negb] in H; try discriminate.
  destruct (network_eqb o s).
  { assert (E : l = []) by congruence. subst l.
    pose proof (num_addresses_pos s Hwf). unfold IPNetworks.len. simpl. lia. }
  destruct (make_network _ _ _) as [o' | |]; try discriminate; cbn [bind] in H.
  destruct (two_subnets s) as [[s1 s2] | |] eqn:Ht; try discriminate; cbn [bind] in H.
  destruct (two_subnets_within s s1 s2 Hwf Ht) as [[W1 _] [W2 _]].
  pose proof (two_subnets_sizes s s1 s2 Hwf Ht).
  pose proof (address_exclude_loop_len _ s1 s2 o' l W1 W2 H). lia.
Qed.

Lemma subnets_of_one_true (s : IPNetwork) (others : list IPNetwork) :
  subnets_of_one s others = Ok true ->
  exists o, In o others /\ subnet_of s o = Ok true.
Proof.
  induction others as [| o others IH]; simpl; intros H; [discriminate |].
  destruct (subnet_of s o) as [[|] | |] eqn:Hs; simpl in H; try discriminate.
  - exists o. auto.
  - destruct (IH H) as (o' & Ho & Hso). exists o'. auto.
Qed.

Lemma subnets_of_true (self others : list IPNetwork) :
  subnets_of self others = Ok true ->
  exists s o, In s self /\ In o others /\ subnet_of s o = Ok true.
Proof.
  induction self as [| s self IH]; simpl; intros H; [discriminate |].
  destruct (subnets_of_one s others) as [[|] | |] eqn:H1; simpl in H;
    try discriminate.
  - destruct (subnets_of_one_true s others H1) as (o & Ho & Hso).
    exists s, o. auto.
  - destruct (IH H) as (s' & o & Hs & Ho & Hso). exists s', o. auto.
Qed.

Section Progress.
Variable original : list IPNetwork.

(** One member's turn either takes addresses off the list or finds the
    member inside none of [others] and leaves the list as it is. *)
Lemma exclude_others_step (s : IPNetwork) (others : list IPNetwork) :
  forall self self',
  inside original s -> Forall (inside original) self ->
  exclude_others s others self = Ok self' ->
  IPNetworks.len self' < IPNetworks.len self
  \/ (self' = self /\ forall o, In o others -> subnet_of s o = Ok false).
Proof.
  induction others as [| o others IH]; intros self self' Hs Hself H; simpl in H.
  - right. split; [congruence | intros o []].
  - destruct (subnet_of o s) as [[|] | |]; cbn [bind] in H; try discriminate.
    + left.
      destruct (list_remove network_eqb s self) as [self1 | |] eqn:Hr;
        cbn [bind] in H; try discriminate.
      destruct (address_exclude s o) as [pieces | |] eqn:Hp; cbn [bind] in H;
        try discriminate.
      pose proof (list_remove_len s self self1 Hr) as Hl1.
      pose proof (address_exclude_len_lt s o pieces (proj1 Hs) Hp) as Hl2.
      destruct (exclude_others_inside original s others (self1 ++ pieces) self' Hs)
        as [_ Hlen]; [| exact H |].
      * apply Forall_app. split.
        -- rewrite Forall_forall in *. intros y Hy.
           apply Hself. eapply list_remove_In; eassumption.
        -- apply address_exclude_within in Hp; [| apply Hs].
           rewrite Forall_forall in *. intros y Hy.
           apply inside_part with s; auto.
      * rewrite IPNetworks_len_app in Hlen. lia.
    + destruct (subnet_of s o) as [[|] | |] eqn:Hso; cbn [bind] in H;
        try discriminate.
      * left.
        destruct (list_remove network_eqb s self) as [self1 | |] eqn:Hr;
          cbn [bind] in H; try discriminate.
        pose proof (list_remove_len s self self1 Hr) as Hl1.
        pose proof (num_addresses_pos s (proj1 Hs)) as Hl2.
        destruct (exclude_others_inside original s others self1 self' Hs)
          as [_ Hlen]; [| exact H |]; [| lia].
        rewrite Forall_forall in *. intros y Hy.
        apply Hself. eapply list_remove_In; eassumption.
      * destruct (IH self self' Hs Hself H) as [Hlt | [E Hall]]; [now left |].
        right. split; [exact E |]. intros o' [<- | Ho']; [exact Hso | now apply Hall].
Qed.

Lemma exclude_from_step (fuel : nat) :
  forall i others self self',
  Forall (inside original) self ->
  exclude_from fuel i others self = Ok self' ->
  IPNetworks.len self' < IPNetworks.len self
  \/ (self' = self
      /\ forall j s, (i <= j)%nat -> nth_error self j = Some s ->
           forall o, In o others -> subnet_of s o = Ok false).
Proof.
  induction fuel as [| fuel IH]; intros i others self self' Hself H; [discriminate |].
  cbn [exclude_from] in H.
  destruct (nth_error self i) as [s |] eqn:Hi.
  - destruct (exclude_others s others self) as [self1 | |] eqn:H1; cbn [bind] in H;
      try discriminate.
    assert (Hs : inside original s).
    { rewrite Forall_forall in Hself. apply Hself. eapply nth_error_In; eassumption. }
    destruct (exclude_others_inside original s others self self1 Hs Hself H1)
      as [Hin1 Hlen1].
    destruct (exclude_from_inside original fuel (S i) others self1 self' Hin1 H)
      as [_ Hlen].
    destruct (exclude_others_step s others self self1 Hs Hself H1)
      as [Hlt | [E Hclean]]; [left; lia |].
    subst self1.
    destruct (IH (S i) others self self' Hself H) as [Hlt | [E Hrest]]; [now left |].
    right. split; [exact E |]. intros j t Hj Ht.
    destruct (Nat.eq_dec j i) as [-> | Hne].
    + rewrite Hi in Ht. injection Ht as <-. exact Hclean.
    + apply (Hrest j t); [lia | exact Ht].
  - right. split; [congruence |]. intros j t Hj Ht.
    apply nth_error_None in Hi.
    assert (Hlt : (j < List.length self)%nat).
    { apply nth_error_Some. congruence. }
    lia.
Qed.

(** A turn of the [while] loop takes addresses off the list. *)
Lemma while_turn_shrinks (fuel : nat) (self others self1 : list IPNetwork) :
  Forall (inside original) self ->
  subnets_of self others = Ok true ->
  exclude_from fuel 0 others self = Ok self1 ->
  IPNetworks.len self1 < IPNetworks.len self.
Proof.
  intros Hself Ht H.
  destruct (exclude_from_step fuel 0 others self self1 Hself H) as [Hlt | [_ Hclean]];
    [exact Hlt |].
  exfalso. destruct (subnets_of_true self others Ht) as (s & o & Hs & Ho & Hso).
  apply In_nth_error in Hs. destruct Hs as (j & Hj).
  rewrite (Hclean j s (Nat.le_0_l j) Hj o Ho) in Hso. discriminate.
Qed.

Lemma exclude_from_ends (fuel : nat) :
  forall i others self,
  Forall (inside original) self ->
  (S (Z.to_nat (IPNetworks.len self) - i) <= fuel)%nat ->
  exclude_from fuel i others self <> OutOfFuel.
Proof.
  induction fuel as [| fuel IH]; intros i others self Hself Hf; [lia |].
  cbn [exclude_from].
  destruct (nth_error self i) as [s |] eqn:Hi; [| discriminate].
  assert (Hs : inside original s).
  { rewrite Forall_forall in Hself. apply Hself. eapply nth_error_In; eassumption. }
  pose proof (exclude_others_ends s others (proj1 Hs) self) as He.
  destruct (exclude_others s others self) as [self1 | |] eqn:H1; cbn [bind];
    try discriminate; [| contradiction].
  destruct (exclude_others_inside original s others self self1 Hs Hself H1)
    as [Hin1 Hlen1].
  apply IH; [exact Hin1 |].
  assert (Hi' : (i < List.length self)%nat) by (apply nth_error_Some; congruence).
  pose proof (length_le_len self (inside_well_formed original self Hself)).
  pose proof (IPNetworks_len_nonneg self1 (inside_well_formed original self1 Hin1)).
  lia.
Qed.

Lemma addresses_exclude_ends_inside (fuel : nat) :
  forall self others,
  Forall (inside original) self ->
  (Z.to_nat (IPNetworks.len self) < fuel)%nat ->
  addresses_exclude fuel self others <> OutOfFuel.
Proof.
  induction fuel as [| fuel IH]; intros self others Hself Hf; [lia |].
  cbn [addresses_exclude].
  pose proof (subnets_of_ends self others) as He.
  destruct (subnets_of self others) as [[|] | |] eqn:Ht; cbn [bind];
    try discriminate; [| contradiction].
  pose proof (exclude_from_ends (S fuel) 0 others self Hself) as Hf1.
  destruct (exclude_from (S fuel) 0 others self) as [self1 | |] eqn:H1; cbn [bind];
    try discriminate; [| apply Hf1; lia].
  destruct (exclude_from_inside original (S fuel) 0 others self self1 Hself H1)
    as [Hin1 _].
  pose proof (while_turn_shrinks (S fuel) self others self1 Hself Ht H1).
  pose proof (IPNetworks_len_nonneg self1 (inside_well_formed original self1 Hin1)).
  apply IH; [exact Hin1 | lia].
Qed.

End Progress.

(** More fuel does not change what a loop that ended has done. *)
Lemma exclude_from_more_fuel (fuel : nat) :
  forall fuel' i others self,
  (fuel <= fuel')%nat ->
  exclude_from fuel i others self <> OutOfFuel ->
  exclude_from fuel' i others self = exclude_from fuel i others self.
Proof.
  induction fuel as [| fuel IH]; intros fuel' i others self Hle H;
    [now elim H |].
  destruct fuel' as [| fuel']; [lia |].
  cbn [exclude_from] in *.
  destruct (nth_error self i) as [s |]; [| reflexivity].
  destruct (exclude_others s others self) as [self1 | |]; cbn [bind] in *;
    try reflexivity.
  apply IH; [lia | exact H].
Qed.

Lemma addresses_exclude_more_fuel (fuel : nat) :
  forall fuel' self others,
  (fuel <= fuel')%nat ->
  addresses_exclude fuel self others <> OutOfFuel ->
  addresses_exclude fuel' self others = addresses_exclude fuel self others.
Proof.
  induction fuel as [| fuel IH]; intros fuel' self others Hle H;
    [now elim H |].
  destruct fuel' as [| fuel']; [lia |].
  cbn [addresses_exclude] in *.
  destruct (subnets_of self others) as [[|] | |]; cbn [bind] in *; try reflexivity.
  assert (Hf : exclude_from (S fuel) 0 others self <> OutOfFuel).
  { intros E. rewrite E in H. now apply H. }
  rewrite (exclude_from_more_fuel (S fuel) (S fuel') 0 others self) by (lia || exact Hf).
  destruct (exclude_from (S fuel) 0 others self) as [self1 | |]; cbn [bind] in *;
    try reflexivity.
  apply IH; [lia | exact H].
Qed.

(** X2. [addresses_exclude] ends: a list of well-formed networks is worked
    off within as many turns as it counts addresses. With that much fuel
    the model returns or raises, and more fuel gives the same. *)
Theorem addresses_exclude_ends
  (fuel : nat) (self others : list IPNetwork) :
  Forall well_formed self ->
  (Z.to_nat (IPNetworks.len self) < fuel)%nat ->
  ended (addresses_exclude fuel self others)
  /\ forall fuel', (fuel <= fuel')%nat ->
       addresses_exclude fuel' self others = addresses_exclude fuel self others.
Proof.
  intros Hwf Hf.
  pose proof (addresses_exclude_ends_inside self fuel self others
                (inside_original self Hwf) Hf) as He.
  split.
  - unfold ended. destruct (addresses_exclude fuel self others) as [r | e |].
    + left. now exists r.
    + right. now exists e.
    + contradiction.
  - intros fuel' Hle. now apply addresses_exclude_more_fuel.
Qed.

(** X3. What [addresses_exclude] returns is the list untouched when no
    member lies inside a member of [others] (a member that only contains one
    of them is not cut), and a list of fewer addresses otherwise. *)
Theorem addresses_exclude_keeps_or_shrinks
  (fuel : nat) (self others self' : list IPNetwork) :
  Forall well_formed self ->
  addresses_exclude fuel self others = Ok self' ->
  (subnets_of self others = Ok false /\ self' = self)
  \/ (subnets_of self others = Ok true
      /\ IPNetworks.len self' < IPNetworks.len self).
Proof.
  intros Hwf H. destruct fuel as [| fuel]; [discriminate |].
  cbn [addresses_exclude] in H.
  pose proof (inside_original self Hwf) as Hin.
  destruct (subnets_of self others) as [[|] | |] eqn:Ht; cbn [bind] in H;
    try discriminate.
  - right. split; [reflexivity |].
    destruct (exclude_from (S fuel) 0 others self) as [self1 | |] eqn:H1;
      cbn [bind] in H; try discriminate.
    pose proof (while_turn_shrinks self (S fuel) self others self1 Hin Ht H1).
    destruct (exclude_from_inside self (S fuel) 0 others self self1 Hin H1)
      as [Hin1 _].
    destruct (addresses_exclude_inside self fuel self1 others self' Hin1 H)
      as [_ Hlen].
    lia.
  - left. split; [reflexivity | congruence].
Qed.




(** *** Lists of both IP versions *)

Lemma list_remove_kept {A : Type} (eqb : A -> A -> bool) (x : A) (l l' : list A) :
  list_remove eqb x l = Ok l' -> forall y, In y l -> In y l' \/ eqb y x = true.
Proof.
  revert l'. induction l as [| a l IH]; simpl; intros l' H y Hy; [contradiction |].
  destruct (eqb a x) eqn:He.
  - injection H as <-. destruct Hy as [<- | Hy]; [now right | now left].
  - destruct (list_remove eqb x l) as [r | |]; simpl in H; try discriminate.
    injection H as <-. destruct Hy as [<- | Hy]; [left; now left |].
    destruct (IH r eq_refl y Hy) as [Hr | Hr]; [left; now right | now right].
Qed.

Lemma network_eqb_version (a b : IPNetwork) :
  network_eqb a b = true -> version a = version b.
Proof.
  unfold network_eqb. intros H.
  apply andb_true_iff in H. destruct H as [H _].
  apply andb_true_iff in H. destruct H as [H _].
  now apply ipversion_eqb_eq.
Qed.

Lemma subnet_of_ok_version (a b : IPNetwork) (r : bool) :
  subnet_of a b = Ok r -> version a = version b.
Proof.
  unfold subnet_of. destruct (ipversion_eqb (version a) (version b)) eqn:Hv;
    simpl; [intros _ | discriminate].
  now apply ipversion_eqb_eq.
Qed.

(** A member's turn that ends has compared it with every member of
    [others], and takes away only what equals it. *)
Lemma exclude_others_versions (s : IPNetwork) (others : list IPNetwork) :
  forall self self',
  exclude_others s others self = Ok self' ->
  (forall o, In o others -> version o = version s)
  /\ forall y, In y self -> In y self' \/ version y = version s.
Proof.
  induction others as [| o others IH]; intros self self' H; simpl in H.
  - injection H as <-. split; [intros o [] | intros y Hy; now left].
  - destruct (subnet_of o s) as [[|] | |] eqn:Hos; cbn [bind] in H; try discriminate.
    + destruct (list_remove network_eqb s self) as [self1 | |] eqn:Hr;
        cbn [bind] in H; try discriminate.
      destruct (address_exclude s o) as [pieces | |]; cbn [bind] in H;
        try discriminate.
      destruct (IH _ _ H) as [Hv Hk]. split.
      * intros o' [<- | Ho']; [now apply subnet_of_ok_version with true | now apply Hv].
      * intros y Hy. destruct (list_remove_kept _ _ _ _ Hr y Hy) as [Hy1 | He].
        -- apply Hk, in_or_app. now left.
        -- right. now apply network_eqb_version.
    + destruct (subnet_of s o) as [[|] | |] eqn:Hso; cbn [bind] in H;
        try discriminate.
      * destruct (list_remove network_eqb s self) as [self1 | |] eqn:Hr;
          cbn [bind] in H; try discriminate.
        destruct (IH _ _ H) as [Hv Hk]. split.
        -- intros o' [<- | Ho']; [now apply subnet_of_ok_version with false | now apply Hv].
        -- intros y Hy. destruct (list_remove_kept _ _ _ _ Hr y Hy) as [Hy1 | He].
           ++ now apply Hk.
           ++ right. now apply network_eqb_version.
      * destruct (IH _ _ H) as [Hv Hk]. split; [| exact Hk].
        intros o' [<- | Ho']; [now apply subnet_of_ok_version with false | now apply Hv].
Qed.

Lemma exclude_from_versions (fuel : nat) :
  forall i others self self',
  exclude_from fuel i others self = Ok self' ->
  forall y, In y self ->
    In y self' \/ forall o, In o others -> version o = version y.
Proof.
  induction fuel as [| fuel IH]; intros i others self self' H y Hy; [discriminate |].
  cbn [exclude_from] in H.
  destruct (nth_error self i) as [s |].
  - destruct (exclude_others s others self) as [self1 | |] eqn:H1; cbn [bind] in H;
      try discriminate.
    destruct (exclude_others_versions s others self self1 H1) as [Hv Hk].
    destruct (Hk y Hy) as [Hy1 | E].
    + now apply (IH (S i) others self1 self' H).
    + right. intros o Ho. rewrite E. now apply Hv.
  - injection H as <-. now left.
Qed.

(** What returns has compared every member with every member of [others]. *)
Lemma addresses_exclude_versions (fuel : nat) :
  forall self others self',
  addresses_exclude fuel self others = Ok self' ->
  forall s o, In s self -> In o others -> version s = version o.
Proof.
  induction fuel as [| fuel IH]; intros self others self' H s o Hs Ho; [discriminate |].
  cbn [addresses_exclude] in H.
  destruct (subnets_of self others) as [[|] | |] eqn:Ht; cbn [bind] in H;
    try discriminate.
  - destruct (exclude_from (S fuel) 0 others self) as [self1 | |] eqn:H1;
      cbn [bind] in H; try discriminate.
    destruct (exclude_from_versions _ _ _ _ _ H1 s Hs) as [Hs1 | Hv].
    + now apply (IH self1 others self' H).
    + symmetry. now apply Hv.
  - apply subnet_of_ok_version with false.
    now apply (subnets_of_false self others Ht).
Qed.

(** X5. IPv4 and IPv6 do not mix: when a member of the list and a member of
    [others] are of different versions, [addresses_exclude] does not return,
    it raises, wherever in the two lists they stand. *)
Theorem addresses_exclude_mixed_raises
  (fuel : nat) (self others : list IPNetwork) (s o : IPNetwork) :
  Forall well_formed self ->
  (Z.to_nat (IPNetworks.len self) < fuel)%nat ->
  In s self -> In o others -> version s <> version o ->
  exists e, addresses_exclude fuel self others = Raise e.
Proof.
  intros Hwf Hf Hs Ho Hv.
  pose proof (addresses_exclude_ends_inside self fuel self others
                (inside_original self Hwf) Hf) as He.
  destruct (addresses_exclude fuel self others) as [self' | e |] eqn:H.
  - exfalso. apply Hv. now apply (addresses_exclude_versions fuel self others self' H).
  - now exists e.
  - contradiction.
Qed.

(** *** Targets that overlap *)




(** *** What is left after the cut *)

Lemma two_subnets_covers (s s1 s2 : IPNetwork) (a : IPAddress) :
  well_formed s -> two_subnets s = Ok (s1, s2) ->
  covers s a -> covers s1 a \/ covers s2 a.
Proof.
  intros Hwf H Hc. unfold two_subnets in H.
  destruct (Z.eq_dec (prefixlen s) (max_prefixlen (version s))) as [Hp | Hp].
  { unfold subnets in H. apply Z.eqb_eq in Hp. rewrite Hp in H. discriminate. }
  rewrite subnets_halves in H by assumption.
  destruct (make_network _ _ _) as [c1 | |] eqn:H1 in H; try discriminate.
  simpl in H.
  destruct (make_network _ _ _) as [c2 | |] eqn:H2 in H; try discriminate.
  simpl in H. injection H as <- <-.
  apply make_network_ok in H1, H2. destruct H1 as [E1 W1], H2 as [E2 W2].
  pose proof (broadcast_address_eq _ W1) as B1.
  pose proof (broadcast_address_eq _ W2) as B2.
  pose proof (broadcast_address_eq _ Hwf) as B.
  apply well_formed_iff in Hwf. destruct Hwf as (Hr & Ha & Hm).
  set (k := max_prefixlen (version s) - prefixlen s) in *.
  assert (Hk : 2 ^ k = 2 * 2 ^ (k - 1)).
  { replace k with (Z.succ (k - 1)) at 1 by lia. apply Z.pow_succ_r. lia. }
  subst c1 c2. simpl in B1, B2.
  replace (max_prefixlen (version s) - (prefixlen s + 1)) with (k - 1) in B1, B2 by lia.
  destruct Hc as [Hv Hi]. rewrite B in Hi.
  unfold covers. simpl. rewrite B1, B2.
  destruct (Z.lt_ge_cases (ip a) (network_address s + 2 ^ (k - 1))).
  - left. split; [exact Hv | lia].
  - right. split; [exact Hv | lia].
Qed.

Lemma network_eqb_covers (n m : IPNetwork) (a : IPAddress) :
  network_eqb n m = true -> (covers n a <-> covers m a).
Proof.
  unfold network_eqb. intros H.
  apply andb_true_iff in H. destruct H as [H Hm].
  apply andb_true_iff in H. destruct H as [Hv Ha].
  apply ipversion_eqb_eq in Hv. apply Z.eqb_eq in Ha, Hm.
  unfold covers, broadcast_address, hostmask. now rewrite Ha, Hm, Hv.
Qed.

Lemma address_exclude_loop_covers (a : IPAddress) (k : nat) :
  forall (s1 s2 other : IPNetwork) (l : list IPNetwork),
  well_formed s1 -> well_formed s2 ->
  address_exclude_loop k s1 s2 other = Ok l ->
  covers s1 a \/ covers s2 a -> ~ covers other a ->
  exists p, In p l /\ covers p a.
Proof.
  assert (Hlast : forall s1 s2 other l,
             (if network_eqb s1 other then Ok [s2]
              else if network_eqb s2 other then Ok [s1]
              else Raise AssertionError) = Ok l ->
             covers s1 a \/ covers s2 a -> ~ covers other a ->
             exists p, In p l /\ covers p a).
  { intros s1 s2 other l H Hc Hn.
    destruct (network_eqb s1 other) eqn:E1.
    - injection H as <-. exists s2. split; [now left |].
      destruct Hc as [Hc | Hc]; [| exact Hc].
      elim Hn. now apply (network_eqb_covers s1 other a E1).
    - destruct (network_eqb s2 other) eqn:E2; [| discriminate].
      injection H as <-. exists s1. split; [now left |].
      destruct Hc as [Hc | Hc]; [exact Hc |].
      elim Hn. now apply (network_eqb_covers s2 other a E2). }
  induction k as [| k IH]; intros s1 s2 other l W1 W2 H Hc Hn; simpl in H.
  - destruct (negb (network_eqb s1 other) && negb (network_eqb s2 other));
      [discriminate | now apply (Hlast s1 s2 other)].
  - destruct (negb (network_eqb s1 other) && negb (network_eqb s2 other));
      [| now apply (Hlast s1 s2 other)].
    destruct (subnet_of other s1) as [[|] | |]; try discriminate; simpl in H.
    + destruct (two_subnets s1) as [[t1 t2] | |] eqn:Ht; try discriminate.
      simpl in H.
      destruct (address_exclude_loop k t1 t2 other) as [rest | |] eqn:Hr;
        try discriminate.
      injection H as <-.
      destruct Hc as [Hc | Hc]; [| exists s2; split; [now left | exact Hc]].
      destruct (two_subnets_within s1 t1 t2 W1 Ht) as [[V1 _] [V2 _]].
      destruct (IH t1 t2 other rest V1 V2 Hr) as (p & Hp & Hpa);
        [now apply two_subnets_covers with s1 | exact Hn |].
      exists p. split; [now right | exact Hpa].
    + destruct (subnet_of other s2) as [[|] | |]; try discriminate; simpl in H.
      destruct (two_subnets s2) as [[t1 t2] | |] eqn:Ht; try discriminate.
      simpl in H.
      destruct (address_exclude_loop k t1 t2 other) as [rest | |] eqn:Hr;
        try discriminate.
      injection H as <-.
      destruct Hc as [Hc | Hc]; [exists s1; split; [now left | exact Hc] |].
      destruct (two_subnets_within s2 t1 t2 W2 Ht) as [[V1 _] [V2 _]].
      destruct (IH t1 t2 other rest V1 V2 Hr) as (p & Hp & Hpa);
        [now apply two_subnets_covers with s2 | exact Hn |].
      exists p. split; [now right | exact Hpa].
Qed.

(** The pieces of [address_exclude] hold every address of the network
    that is none of the network taken out. *)
Lemma address_exclude_covers (s o : IPNetwork) (l : list IPNetwork) (a : IPAddress) :
  well_formed s -> address_exclude s o = Ok l ->
  covers s a -> ~ covers o a -> exists p, In p l /\ covers p a.
Proof.
  intros Hwf H Hc Hn. unfold address_exclude in H.
  destruct (negb (ipversion_eqb (version s) (version o))); [discriminate |].
  destruct (subnet_of o s) as [[|] | |]; cbn [bind negb] in H; try discriminate.
  destruct (network_eqb o s) eqn:He.
  { elim Hn. now apply (network_eqb_covers o s a He). }
  destruct (make_network _ _ _) as [o' | |] eqn:Ho; try discriminate; cbn [bind] in H.
  apply make_network_ok in Ho. destruct Ho as [Eo _].
  assert (E : o' = o) by (rewrite Eo; now destruct o). clear Eo. subst o'.
  destruct (two_subnets s) as [[s1 s2] | |] eqn:Ht; try discriminate; cbn [bind] in H.
  destruct (two_subnets_within s s1 s2 Hwf Ht) as [[W1 _] [W2 _]].
  apply (address_exclude_loop_covers a _ s1 s2 o l W1 W2 H); [| exact Hn].
  now apply two_subnets_covers with s.
Qed.

Section Kept.
Variable original : list IPNetwork.
Variable a : IPAddress.

Lemma exclude_others_keeps (s : IPNetwork) (others : list IPNetwork) :
  forall self self',
  well_formed s ->
  exclude_others s others self = Ok self' ->
  (forall o, In o others -> ~ covers o a) ->
  drawn_from self a -> drawn_from self' a.
Proof.
  induction others as [| o others IH]; intros self self' Hs H Hout Hd; simpl in H.
  - now injection H as <-.
  - assert (Hout' : forall o', In o' others -> ~ covers o' a)
      by (intros o' Ho'; apply Hout; now right).
    destruct (subnet_of o s) as [[|] | |]; cbn [bind] in H; try discriminate.
    + destruct (list_remove network_eqb s self) as [self1 | |] eqn:Hr;
        cbn [bind] in H; try discriminate.
      destruct (address_exclude s o) as [pieces | |] eqn:Hp; cbn [bind] in H;
        try discriminate.
      apply (IH (self1 ++ pieces) self' Hs H Hout').
      destruct Hd as (n & Hn & Hc).
      destruct (list_remove_kept _ _ _ _ Hr n Hn) as [Hn1 | He].
      * exists n. split; [apply in_or_app; now left | exact Hc].
      * destruct (address_exclude_covers s o pieces a Hs Hp) as (q & Hq & Hqa).
        -- now apply (network_eqb_covers n s a He).
        -- apply Hout. now left.
        -- exists q. split; [apply in_or_app; now right | exact Hqa].
    + destruct (subnet_of s o) as [[|] | |] eqn:Hso; cbn [bind] in H;
        try discriminate.
      * destruct (list_remove network_eqb s self) as [self1 | |] eqn:Hr;
          cbn [bind] in H; try discriminate.
        apply (IH self1 self' Hs H Hout').
        destruct Hd as (n & Hn & Hc).
        destruct (list_remove_kept _ _ _ _ Hr n Hn) as [Hn1 | He].
        -- exists n. now split.
        -- exfalso. apply (Hout o); [now left |].
           apply covers_within with s; [now apply subnet_of_within |].
           now apply (network_eqb_covers n s a He).
      * now apply (IH self self' Hs H Hout').
Qed.

Lemma exclude_from_keeps (fuel : nat) :
  forall i others self self',
  Forall (inside original) self ->
  exclude_from fuel i others self = Ok self' ->
  (forall o, In o others -> ~ covers o a) ->
  drawn_from self a -> drawn_from self' a.
Proof.
  induction fuel as [| fuel IH]; intros i others self self' Hself H Hout Hd;
    [discriminate |].
  cbn [exclude_from] in H.
  destruct (nth_error self i) as [s |] eqn:Hi.
  - destruct (exclude_others s others self) as [self1 | |] eqn:H1; cbn [bind] in H;
      try discriminate.
    assert (Hs : inside original s).
    { rewrite Forall_forall in Hself. apply Hself. eapply nth_error_In; eassumption. }
    destruct (exclude_others_inside original s others self self1 Hs Hself H1)
      as [Hin1 _].
    apply (IH (S i) others self1 self' Hin1 H Hout).
    now apply (exclude_others_keeps s others self self1 (proj1 Hs) H1 Hout).
  - now injection H as <-.
Qed.

Lemma addresses_exclude_keeps (fuel : nat) :
  forall self others self',
  Forall (inside original) self ->
  addresses_exclude fuel self others = Ok self' ->
  (forall o, In o others -> ~ covers o a) ->
  drawn_from self a -> drawn_from self' a.
Proof.
  induction fuel as [| fuel IH]; intros self others self' Hself H Hout Hd;
    [discriminate |].
  cbn [addresses_exclude] in H.
  destruct (subnets_of self others) as [[|] | |]; cbn [bind] in H; try discriminate.
  - destruct (exclude_from (S fuel) 0 others self) as [self1 | |] eqn:H1;
      cbn [bind] in H; try discriminate.
    destruct (exclude_from_inside original (S fuel) 0 others self self1 Hself H1)
      as [Hin1 _].
    apply (IH self1 others self' Hin1 H Hout).
    now apply (exclude_from_keeps (S fuel) 0 others self self1 Hself H1 Hout).
  - now injection H as <-.
Qed.

End Kept.

(** X15. Exclusion loses no address it should keep: an address that a
    member of the list covered before the call, and that no member of
    [others] covers, is covered by a member of the list when
    [addresses_exclude] has returned. *)
Theorem addresses_exclude_keeps_outside
  (fuel : nat) (self others self' : list IPNetwork) (a : IPAddress) :
  Forall well_formed self ->
  addresses_exclude fuel self others = Ok self' ->
  drawn_from self a ->
  (forall o, In o others -> ~ covers o a) ->
  drawn_from self' a.
Proof.
  intros Hwf H Hd Hout.
  exact (addresses_exclude_keeps self a fuel self others self'
           (inside_original self Hwf) H Hout Hd).
Qed.

End exclusion_more.

(** * More on MAC addresses and ranges *)
Module MAC_more.
Import Text MAC_facts MACRange_facts table_facts rand_facts.

Lemma octets_shape : forallb octet_shape (range 0 256) = true.
Proof. vm_compute. reflexivity. Qed.

Lemma octet_shape_ok (b : Z) : 0 <= b <= 255 -> octet_shape b = true.
Proof.
  intros Hb. apply (proj1 (forallb_forall octet_shape (range 0 256)) octets_shape).
  unfold range. apply in_map_iff. exists (Z.to_nat b). split; [lia |].
  apply in_seq. simpl. lia.
Qed.

(** X7. [str] of a 48-bit address writes its six octets, the most
    significant first, with colons between; each octet is written as its
    number in lowercase hexadecimal digits without a leading zero: one digit
    below 16, two from 16 on. *)
Theorem str_writes_octets (mac : Z) :
  0 <= mac < 2 ^ 48 ->
  MAC.__str__ mac
  = Ok (String.concat ":" (map (fun i => format_x (octet mac i)) [5; 4; 3; 2; 1; 0]%nat))
  /\ forall i : nat,
       all_lower_hex (format_x (octet mac i)) = true
       /\ String.length (format_x (octet mac i))
          = (if (octet mac i <? 16)%Z then 1 else 2)%nat
       /\ int16 (format_x (octet mac i)) = Ok (octet mac i).
Proof.
  intros Hm. split.
  - unfold MAC.__str__, MAC.to_bytes.
    destruct (Z.ltb_spec mac 0); [lia |].
    change (256 ^ Z.of_nat 6) with (2 ^ 48).
    destruct (Z.geb_spec mac (2 ^ 48)); [lia |]. reflexivity.
  - intros i. pose proof (octet_range mac i) as Hr.
    pose proof (octet_shape_ok _ Hr) as Hs. unfold octet_shape in Hs.
    apply andb_true_iff in Hs. destruct Hs as [H1 H2].
    apply Nat.eqb_eq in H2.
    split; [exact H1 |]. split; [exact H2 |]. apply octet_text, Hr.
Qed.

(** *** Reading the groups *)

Lemma split_not_hex_cons (s : string) :
  exists p ps, split_not_hex s = p :: ps.
Proof.
  induction s as [| c s (p & ps & E)]; simpl.
  - now exists EmptyString, [].
  - destruct (is_hex c).
    + rewrite E. now exists (String c p), ps.
    + now exists EmptyString, (split_not_hex s).
Qed.

Lemma read_groups_split (s : string) :
  forall acc,
  read_groups acc s
  = match split_not_hex s with
    | p :: ps =>
        y <- first_group acc p ;;
        r <- comprehension int16 ps ;;
        Ok (y :: r)
    | [] => Ok []
    end.
Proof.
  induction s as [| c s IH]; intros acc; simpl.
  - destruct acc; reflexivity.
  - unfold is_hex. destruct (hex_value c) as [v |] eqn:Hc.
    + rewrite IH. destruct (split_not_hex_cons s) as (p & ps & E). rewrite E.
      destruct acc as [a |]; simpl; rewrite Hc; reflexivity.
    + destruct acc as [a |]; simpl; [| reflexivity].
      rewrite IH. destruct (split_not_hex_cons s) as (p & ps & E). rewrite E.
      reflexivity.
Qed.

Lemma parse_read_groups (s : string) :
  MAC.parse s = (parts <- read_groups None s ;; MAC.from_bytes parts).
Proof.
  unfold MAC.parse. rewrite read_groups_split.
  destruct (split_not_hex_cons s) as (p & ps & E). rewrite E. reflexivity.
Qed.

Lemma read_groups_alike (s : string) :
  forall s' acc, alike s s' = true -> read_groups acc s = read_groups acc s'.
Proof.
  induction s as [| c s IH]; intros [| c' s'] acc H; simpl in H; try discriminate.
  - reflexivity.
  - simpl. destruct (hex_value c) as [v |], (hex_value c') as [v' |];
      try discriminate.
    + apply andb_true_iff in H. destruct H as [Hv H].
      apply Z.eqb_eq in Hv. subst v'. now apply IH.
    + destruct acc; [| reflexivity]. now rewrite (IH s' None H).
Qed.

(** X8. [MAC.parse] looks at the digits' values and at where the groups end
    only: it reads no difference between upper and lower case, nor between
    one separating character and another. *)
Theorem parse_alike (s s' : string) :
  alike s s' = true -> MAC.parse s = MAC.parse s'.
Proof.
  intros H. rewrite !parse_read_groups. now rewrite (read_groups_alike s s' None H).
Qed.

(** X9. The range [MACRange] builds from a text: the prefix length is the
    number after the slash, the base is the address written with its low
    [48 - mask] bits cleared, so the range holds the address written, lies
    in the 48-bit space, and [len] is [2 ^ (48 - mask)]. *)
Theorem init_block (text : str) (r : MACRange.t) :
  MACRange.__init__ text = Ok r ->
  exists g ds m,
    MACRange.search text = Some (g, Some ds)
    /\ int10 ds = Ok (MACRange.mask r)
    /\ MAC.parse g = Ok m
    /\ 0 <= MACRange.mask r <= 48
    /\ MACRange.mac r mod 2 ^ (48 - MACRange.mask r) = 0
    /\ MACRange.mac r <= m < MACRange.mac r + 2 ^ (48 - MACRange.mask r)
    /\ 0 <= MACRange.mac r
    /\ MACRange.mac r + 2 ^ (48 - MACRange.mask r) <= 2 ^ 48
    /\ MACRange.__len__ r = Ok (2 ^ (48 - MACRange.mask r)).
Proof.
  intros H. pose proof (init_ok_mask text r H) as Hmask.
  pose proof (init_aligned text r H) as (Hv & H0 & H1).
  pose proof (MACRange_len_eq r Hv) as Hlen. unfold size in H1, Hlen.
  unfold MACRange.__init__ in H.
  destruct (MACRange.search text) as [[g [ds |]] |] eqn:Hs; try discriminate.
  pose proof (proj1 (search_mask text g ds) Hs) as (nl & Hg & _).
  destruct (parse_mac_text g Hg) as (m & Hm & Rm).
  destruct (int10 ds) as [v | |] eqn:Hd; try discriminate. unfold bind at 1 in H.
  rewrite Hm in H. unfold bind at 1 in H.
  unfold lshift in H. destruct (Z.ltb_spec (48 - v) 0); [discriminate |].
  unfold bind in H.
  assert (E : r = MACRange.mk v (MAC.__and__ m (Z.lnot (Z.shiftl 1 (48 - v) - 1))))
    by congruence.
  exists g, ds, m. subst r.
  unfold MACRange.mask, MACRange.mac, MAC.__and__ in *.
  rewrite Z.shiftl_1_l, clear_low_bits in * by lia.
  assert (Hk : 0 < 2 ^ (48 - v)) by (apply Z.pow_pos_nonneg; lia).
  pose proof (Z.mul_div_le m (2 ^ (48 - v)) Hk).
  pose proof (Z.mul_succ_div_gt m (2 ^ (48 - v)) Hk).
  repeat split; try assumption; try lia.
  apply Z.mod_mul. lia.
Qed.

End MAC_more.

(** * More on the body of the script *)
Module script_more.
Import Main ipaddress_facts IPNetworks_facts rand_facts scheduler_facts
       MACRange_facts table_facts exclusion_more.

(** *** The two draws *)

Lemma IPNetworks_rand_walk_ends (self : list IPNetwork) :
  forall offset, IPNetworks.rand_walk self offset <> OutOfFuel.
Proof.
  induction self as [| n self IH]; intros offset; simpl; [discriminate |].
  destruct (offset >=? num_addresses n); [apply IH |].
  unfold address_add, make_address.
  destruct (_ <? 0); [discriminate |]. destruct (_ >? _); discriminate.
Qed.

Lemma IPNetworks_rand_frame (self : list IPNetwork) (w w' : world)
  (o : outcome (option IPAddress)) :
  IPNetworks.rand self w = (o, w') ->
  o <> OutOfFuel /\ trace w' = trace w /\ gen w' = gen w
  /\ (pos w <= pos w' <= S (pos w))%nat
  /\ (returns o = true -> pos w' = S (pos w)).
Proof.
  unfold IPNetworks.rand, mbind, randrange, lift.
  destruct (IPNetworks.len self <=? 0); intros H; injection H as <- <-.
  - repeat split; try discriminate; simpl; lia.
  - repeat split; try (simpl; lia). apply IPNetworks_rand_walk_ends.
Qed.

Lemma IPNetworks_rand_ok (self : list IPNetwork) (w w' : world)
  (address : option IPAddress) :
  Forall well_formed self ->
  IPNetworks.rand self w = (Ok address, w') ->
  exists a, address = Some a /\ drawn_from self a.
Proof.
  intros Hwf H. unfold IPNetworks.rand, mbind, randrange, lift in H.
  destruct (Z.leb_spec (IPNetworks.len self) 0) as [Hle | Hlt]; [discriminate |].
  rewrite Z.sub_0_r, Z.add_0_l in H.
  pose proof (Z.mod_pos_bound (gen w (pos w)) (IPNetworks.len self) Hlt) as Hmod.
  destruct (IPNetworks_rand_walk_spec self Hwf _ Hmod)
    as (pre & n & post & rem & E & _ & Hrem & Hw).
  rewrite Hw in H. injection H as <- _.
  eexists. split; [reflexivity |]. exists n. split; [rewrite E; apply in_elt |].
  unfold covers. cbn [ip aversion]. unfold num_addresses in Hrem.
  split; [reflexivity | lia].
Qed.

Lemma MACRange_len_ends (r : MACRange.t) : MACRange.__len__ r <> OutOfFuel.
Proof.
  unfold MACRange.__len__, lshift. destruct (_ <? 0); cbn [bind]; [discriminate |].
  destruct (_ >? _); discriminate.
Qed.

Lemma comprehension_ends {A B : Type} (f : A -> outcome B) (l : list A) :
  (forall x, f x <> OutOfFuel) -> comprehension f l <> OutOfFuel.
Proof.
  intros Hf. induction l as [| x l IH]; simpl; [discriminate |].
  pose proof (Hf x). destruct (f x); cbn [bind]; try discriminate; [| contradiction].
  destruct (comprehension f l); cbn [bind]; try discriminate. contradiction.
Qed.

Lemma MACRanges_rand_walk_ends (self : list MACRange.t) :
  forall offset, MACRanges.rand_walk self offset <> OutOfFuel.
Proof.
  induction self as [| r self IH]; intros offset; simpl; [discriminate |].
  pose proof (MACRange_len_ends r).
  destruct (MACRange.__len__ r) as [size | |]; cbn [bind]; try discriminate;
    [| contradiction].
  destruct (offset >=? size); [apply IH | discriminate].
Qed.

Lemma MACRanges_rand_frame (self : list MACRange.t) (w w' : world)
  (o : outcome (option Z)) :
  MACRanges.rand self w = (o, w') ->
  o <> OutOfFuel /\ trace w' = trace w /\ gen w' = gen w
  /\ (pos w <= pos w' <= S (pos w))%nat
  /\ (returns o = true -> pos w' = S (pos w)).
Proof.
  unfold MACRanges.rand, mbind, lift at 1.
  pose proof (comprehension_ends MACRange.__len__ self MACRange_len_ends) as Hc.
  unfold MACRanges.len.
  destruct (comprehension MACRange.__len__ self) as [sizes | e |]; cbn [bind];
    [| intros H; injection H as <- <-; repeat split; try discriminate; lia
     | contradiction].
  unfold randrange, lift.
  destruct (_ <=? 0); intros H; injection H as <- <-.
  - repeat split; try discriminate; simpl; lia.
  - repeat split; try (simpl; lia). apply MACRanges_rand_walk_ends.
Qed.

Lemma MACRanges_rand_ok (macs : list MACRange.t) (w w' : world) (mac : option Z) :
  Forall aligned macs ->
  MACRanges.rand macs w = (Ok mac, w') -> mac_from macs mac.
Proof.
  intros Ha H. pose proof (aligned_valid_range macs Ha) as Hv.
  unfold MACRanges.rand, mbind, lift, randrange in H.
  rewrite MACRanges_len_eq in H by assumption.
  destruct (Z.leb_spec (total_size macs) 0) as [Hle | Hlt]; [discriminate |].
  rewrite Z.sub_0_r, Z.add_0_l in H.
  pose proof (Z.mod_pos_bound (gen w (pos w)) (total_size macs) Hlt) as Hmod.
  destruct (MACRanges_rand_walk_spec macs Hv _ Hmod)
    as (pre & m & post & rem & E & _ & Hrem & Hw).
  rewrite Hw in H. injection H as <- _.
  exists m, (MACRange.mac m + rem). split; [rewrite E; apply in_elt |].
  split; [reflexivity | lia].
Qed.

(** *** The table *)

Lemma address_eqb_eq (a b : IPAddress) : address_eqb a b = true <-> a = b.
Proof.
  unfold address_eqb. destruct a as [va ia], b as [vb ib]. simpl. split.
  - intros H. apply andb_true_iff in H. destruct H as [Hi Hv].
    apply Z.eqb_eq in Hi. apply ipversion_eqb_eq in Hv. congruence.
  - intros E. injection E as -> ->. now rewrite Z.eqb_refl, ipversion_eqb_refl.
Qed.

Lemma setitem_In (spoofed : table) (a : IPAddress) (mac : option Z) :
  forall a' mac', In (a', mac') (setitem spoofed a mac) ->
    In (a', mac') spoofed \/ (a' = a /\ mac' = mac).
Proof.
  induction spoofed as [| [k v] spoofed IH]; intros a' mac' H; simpl in H.
  - destruct H as [E | []]. right. split; congruence.
  - destruct (address_eqb k a) eqn:He.
    + apply address_eqb_eq in He. destruct H as [E | H].
      * right. split; congruence.
      * left. now right.
    + destruct H as [E | H]; [left; now left |].
      destruct (IH a' mac' H) as [Hin | Hnew]; [left; now right | now right].
Qed.

Lemma setitem_keys (spoofed : table) (a : IPAddress) (mac : option Z) :
  forall k, In k (map fst (setitem spoofed a mac)) ->
    In k (map fst spoofed) \/ k = a.
Proof.
  intros k H. apply in_map_iff in H. destruct H as ([k' v] & <- & H).
  destruct (setitem_In spoofed a mac k' v H) as [Hin | [-> _]]; [| now right].
  left. apply in_map_iff. now exists (k', v).
Qed.

Lemma setitem_NoDup (spoofed : table) (a : IPAddress) (mac : option Z) :
  NoDup (map fst spoofed) -> NoDup (map fst (setitem spoofed a mac)).
Proof.
  induction spoofed as [| [k v] spoofed IH]; intros H; simpl.
  - repeat constructor. intros [].
  - destruct (address_eqb k a) eqn:He; [exact H |].
    simpl in *. inversion H as [| ? ? Hk Hrest]; subst. constructor.
    + intros Hin. destruct (setitem_keys spoofed a mac k Hin) as [Hold | ->];
        [contradiction |].
      assert (E : address_eqb a a = true) by now apply address_eqb_eq.
      congruence.
    + now apply IH.
Qed.

Lemma setitem_length (spoofed : table) (a : IPAddress) (mac : option Z) :
  (List.length (setitem spoofed a mac) <= S (List.length spoofed))%nat.
Proof.
  induction spoofed as [| [k v] spoofed IH]; simpl; [lia |].
  destruct (address_eqb k a); simpl; lia.
Qed.

Lemma table_from_setitem (pool : list IPNetwork) (macs : list MACRange.t)
  (spoofed : table) (a : IPAddress) (mac : option Z) :
  table_from pool macs spoofed -> drawn_from pool a -> mac_from macs mac ->
  table_from pool macs (setitem spoofed a mac).
Proof.
  intros [Hn Hall] Ha Hm. split; [now apply setitem_NoDup |].
  intros a' mac' H. destruct (setitem_In spoofed a mac a' mac' H) as [Hin | [-> ->]].
  - now apply Hall.
  - now split.
Qed.

Lemma drawn_from_inside (original pool : list IPNetwork) (a : IPAddress) :
  Forall (inside original) pool -> drawn_from pool a -> drawn_from original a.
Proof.
  intros Hin (n & Hn & Hc). rewrite Forall_forall in Hin.
  destruct (Hin n Hn) as [_ (m & Hm & Hnm)].
  exists m. split; [exact Hm | eapply covers_within; eassumption].
Qed.

(** *** The loop that builds it *)

Section Build.
Variable original : list IPNetwork.
Variable macs : list MACRange.t.
Variable fuel : nat.

(** A turn that returns has drawn twice and left the pool a part of what
    it was; the table stays one of the original pool and of the ranges. *)
Lemma build_loop_from (turns : nat) :
  Forall aligned macs ->
  forall spoofs spoofed w pool spoofed' w',
  Forall (inside original) spoofs ->
  table_from original macs spoofed ->
  build_loop turns fuel macs spoofs spoofed w = (Ok (pool, spoofed'), w') ->
  Forall (inside original) pool
  /\ IPNetworks.len pool <= IPNetworks.len spoofs
  /\ table_from original macs spoofed'
  /\ (List.length spoofed' <= List.length spoofed + turns)%nat
  /\ w' = mkWorld (gen w) (pos w + 2 * turns) (trace w).
Proof.
  intros Ha. induction turns as [| turns IH];
    intros spoofs spoofed w pool spoofed' w' Hin Ht H.
  - injection H as <- <- <-.
    split; [exact Hin |]. split; [lia |]. split; [exact Ht |]. split; [lia |].
    now rewrite Nat.add_0_r, world_eta.
  - cbn [build_loop] in H. unfold mbind at 1 in H.
    destruct (IPNetworks.rand spoofs w) as [[address | |] w1] eqn:H1;
      try discriminate.
    destruct (IPNetworks_rand_frame _ _ _ _ H1) as (_ & T1 & G1 & _ & P1).
    destruct (IPNetworks_rand_ok spoofs w w1 address
                (inside_well_formed original spoofs Hin) H1) as (a & -> & Hd).
    unfold mbind at 1 in H. unfold lift at 1 in H.
    destruct (ip_network_of (Some a)) as [single | |]; try discriminate.
    unfold mbind at 1 in H. unfold lift at 1 in H.
    destruct (IPNetworks.addresses_exclude fuel spoofs [single]) as [spoofs' | |] eqn:H2;
      try discriminate.
    destruct (addresses_exclude_inside original fuel spoofs [single] spoofs' Hin H2)
      as [Hin' Hlen'].
    unfold mbind at 1 in H.
    destruct (MACRanges.rand macs w1) as [[mac | |] w2] eqn:H3; try discriminate.
    destruct (MACRanges_rand_frame _ _ _ _ H3) as (_ & T2 & G2 & _ & P2).
    pose proof (MACRanges_rand_ok macs w1 w2 mac Ha H3) as Hm.
    destruct (IH spoofs' (setitem spoofed a mac) w2 pool spoofed' w' Hin') as
      (Hp & Hl & Hf & Hn & Hw); [| exact H |].
    { apply table_from_setitem; [exact Ht | | exact Hm].
      now apply drawn_from_inside with spoofs. }
    pose proof (setitem_length spoofed a mac).
    split; [exact Hp |]. split; [lia |]. split; [exact Hf |]. split; [lia |].
    rewrite Hw, G2, G1, T2, T1. f_equal.
    rewrite (P2 eq_refl), (P1 eq_refl). lia.
Qed.

(** Whatever a turn ends as, the loop has printed and sent nothing. *)
Lemma build_loop_quiet (turns : nat) :
  forall spoofs spoofed w o w',
  build_loop turns fuel macs spoofs spoofed w = (o, w') ->
  trace w' = trace w /\ gen w' = gen w
  /\ (pos w <= pos w' <= pos w + 2 * turns)%nat.
Proof.
  induction turns as [| turns IH]; intros spoofs spoofed w o w' H.
  - injection H as <- <-. repeat split; lia.
  - cbn [build_loop] in H. unfold mbind at 1 in H.
    destruct (IPNetworks.rand spoofs w) as [o1 w1] eqn:H1.
    destruct (IPNetworks_rand_frame _ _ _ _ H1) as (_ & T1 & G1 & P1 & _).
    destruct o1 as [address | e |];
      [| injection H as <- <-; repeat split; try assumption; lia
       | injection H as <- <-; repeat split; try assumption; lia].
    unfold mbind at 1 in H. unfold lift at 1 in H.
    destruct (ip_network_of address) as [single | |];
      [| injection H as <- <-; repeat split; try assumption; lia
       | injection H as <- <-; repeat split; try assumption; lia].
    unfold mbind at 1 in H. unfold lift at 1 in H.
    destruct (IPNetworks.addresses_exclude fuel spoofs [single]) as [spoofs' | |];
      [| injection H as <- <-; repeat split; try assumption; lia
       | injection H as <- <-; repeat split; try assumption; lia].
    unfold mbind at 1 in H.
    destruct (MACRanges.rand macs w1) as [o2 w2] eqn:H3.
    destruct (MACRanges_rand_frame _ _ _ _ H3) as (_ & T2 & G2 & P2 & _).
    destruct o2 as [mac | e |];
      [| injection H as <- <-; repeat split; try congruence; lia
       | injection H as <- <-; repeat split; try congruence; lia].
    destruct address as [a |];
      [| injection H as <- <-; repeat split; try congruence; lia].
    destruct (IH _ _ _ _ _ H) as (T & G & P).
    repeat split; try congruence; lia.
Qed.

(** With fuel for the exclusion of the whole pool, every turn ends. *)
Lemma build_loop_ends (turns : nat) :
  forall spoofs spoofed w,
  Forall (inside original) spoofs ->
  (Z.to_nat (IPNetworks.len spoofs) < fuel)%nat ->
  fst (build_loop turns fuel macs spoofs spoofed w) <> OutOfFuel.
Proof.
  induction turns as [| turns IH]; intros spoofs spoofed w Hin Hf; [discriminate |].
  cbn [build_loop]. unfold mbind at 1.
  destruct (IPNetworks.rand spoofs w) as [o1 w1] eqn:H1.
  destruct (IPNetworks_rand_frame _ _ _ _ H1) as (E1 & _).
  destruct o1 as [address | e |]; [| discriminate | contradiction].
  unfold mbind at 1. unfold lift at 1.
  destruct (ip_network_of address) as [single | |] eqn:Hs; [| discriminate |].
  2: { destruct address as [a |]; [| discriminate].
       now elim (make_network_ends _ _ _ Hs). }
  unfold mbind at 1. unfold lift at 1.
  pose proof (addresses_exclude_ends_inside original fuel spoofs [single] Hin Hf) as E2.
  destruct (IPNetworks.addresses_exclude fuel spoofs [single]) as [spoofs' | |] eqn:H2;
    [| discriminate | contradiction].
  destruct (addresses_exclude_inside original fuel spoofs [single] spoofs' Hin H2)
    as [Hin' Hlen'].
  unfold mbind at 1.
  destruct (MACRanges.rand macs w1) as [o2 w2] eqn:H3.
  destruct (MACRanges_rand_frame _ _ _ _ H3) as (E3 & _).
  destruct o2 as [mac | e |]; [| discriminate | contradiction].
  destruct address as [a |]; [| discriminate].
  apply IH; [exact Hin' |].
  pose proof (IPNetworks_len_nonneg spoofs' (inside_well_formed original spoofs' Hin')).
  lia.
Qed.

End Build.

Lemma turns_bound (count : number) (n : Z) (turns : nat) :
  0 <= n -> range_turns (min count n) = Ok turns -> Z.of_nat turns <= n.
Proof.
  intros Hn. unfold min.
  destruct (int_lt n count) eqn:Hlt; simpl.
  - intros H. injection H as <-. lia.
  - destruct count as [z | f]; simpl in *; [| discriminate].
    intros H. injection H as <-. apply Z.ltb_ge in Hlt. lia.
Qed.

(** X10. The table the loop builds. It takes [range(min(count, len))] turns,
    no more than the pool counts addresses, and draws twice a turn; it has
    at most one entry a turn and no key twice; every key is an address of
    the pool it was given, every value an address of one of the MAC ranges;
    the pool it leaves is a part of the pool it was given; and it has
    printed and sent nothing. *)
Theorem build_table_provenance
  (fuel : nat) (macs : list MACRange.t) (count : number) (spoofs : list IPNetwork)
  (w w' : world) (pool : list IPNetwork) (spoofed : table) :
  Forall well_formed spoofs -> Forall aligned macs ->
  build fuel macs count spoofs w = (Ok (pool, spoofed), w') ->
  exists turns,
    range_turns (min count (IPNetworks.len spoofs)) = Ok turns
    /\ Z.of_nat turns <= IPNetworks.len spoofs
    /\ (List.length spoofed <= turns)%nat
    /\ table_from spoofs macs spoofed
    /\ Forall (inside spoofs) pool
    /\ IPNetworks.len pool <= IPNetworks.len spoofs
    /\ w' = mkWorld (gen w) (pos w + 2 * turns) (trace w).
Proof.
  intros Hwf Ha H. unfold build, mbind, lift in H.
  destruct (range_turns (min count (IPNetworks.len spoofs))) as [turns | |] eqn:Ht;
    try discriminate.
  exists turns. split; [reflexivity |].
  split; [now apply turns_bound with count; [apply IPNetworks_len_nonneg |] |].
  destruct (build_loop_from spoofs macs fuel turns Ha spoofs [] w pool spoofed w'
              (inside_original spoofs Hwf)) as (Hp & Hl & Hf & Hn & Hw).
  - split; [constructor | intros a mac []].
  - exact H.
  - simpl in Hn. split; [exact Hn |]. split; [exact Hf |].
    split; [exact Hp |]. split; [exact Hl | exact Hw].
Qed.

(** X11. The loop that builds the table ends, whatever is drawn: with fuel
    for the exclusion of the whole pool the model returns or raises. And
    however it ends, it has printed and sent nothing. *)
Theorem build_ends_quietly
  (fuel : nat) (macs : list MACRange.t) (count : number) (spoofs : list IPNetwork)
  (w : world) :
  Forall well_formed spoofs ->
  (Z.to_nat (IPNetworks.len spoofs) < fuel)%nat ->
  exists o w',
    build fuel macs count spoofs w = (o, w')
    /\ ended o /\ trace w' = trace w /\ gen w' = gen w.
Proof.
  intros Hwf Hf. unfold build, mbind, lift.
  destruct (min count (IPNetworks.len spoofs)) as [z | f]; simpl.
  - pose proof (build_loop_ends spoofs macs fuel (Z.to_nat z) spoofs [] w
                  (inside_original spoofs Hwf) Hf) as He.
    destruct (build_loop (Z.to_nat z) fuel macs spoofs [] w) as [o w'] eqn:H.
    destruct (build_loop_quiet macs fuel _ _ _ _ _ _ H) as (T & G & _).
    exists o, w'. split; [reflexivity |]. split; [| now split].
    simpl in He. destruct o as [r | e |]; [left; now exists r | right; now exists e |].
    contradiction.
  - exists (Raise TypeError), w. split; [reflexivity |].
    split; [right; now exists TypeError | now split].
Qed.

(** *** Draws and the pool *)

(** A network of more than one address lies inside no single address. *)
Lemma wide_not_within_single (s o : IPNetwork) :
  well_formed s -> prefixlen s < max_prefixlen (version s) ->
  well_formed o -> prefixlen o = max_prefixlen (version o) ->
  ~ within s o.
Proof.
  intros Ws Hs Wo Ho (Hv & H1 & H2).
  rewrite (broadcast_address_eq s Ws), (broadcast_address_eq o Wo) in H2.
  rewrite Ho, Z.sub_diag in H2. simpl in H2.
  apply well_formed_iff in Ws. destruct Ws as (Hp & _).
  assert (Hk : 2 ^ 1 <= 2 ^ (max_prefixlen (version s) - prefixlen s))
    by (apply Z.pow_le_mono_r; lia).
  simpl in Hk. lia.
Qed.

Lemma exclude_address_unchanged (fuel : nat) (spoofs spoofs' : list IPNetwork)
  (a : IPAddress) (single : IPNetwork) :
  Forall well_formed spoofs ->
  Forall (fun n => prefixlen n < max_prefixlen (version n)) spoofs ->
  ip_network_of_address a = Ok single ->
  IPNetworks.addresses_exclude fuel spoofs [single] = Ok spoofs' ->
  spoofs' = spoofs.
Proof.
  intros Hwf Hwide Hs H. destruct fuel as [| fuel]; [discriminate |].
  cbn [IPNetworks.addresses_exclude] in H.
  destruct (IPNetworks.subnets_of spoofs [single]) as [[|] | |] eqn:Ht;
    cbn [bind] in H; try discriminate; [| congruence].
  exfalso. destruct (subnets_of_true spoofs [single] Ht) as (s & o & Hin & Ho & Hso).
  destruct Ho as [<- | []].
  unfold ip_network_of_address in Hs. apply make_network_ok in Hs.
  destruct Hs as [E Wo]. rewrite Forall_forall in Hwf, Hwide.
  apply (wide_not_within_single s single); auto.
  - now subst single.
  - now apply subnet_of_within.
Qed.

Lemma build_loop_wide (fuel : nat) (macs : list MACRange.t) (turns : nat) :
  forall spoofs spoofed w pool spoofed' w',
  Forall well_formed spoofs ->
  Forall (fun n => prefixlen n < max_prefixlen (version n)) spoofs ->
  build_loop turns fuel macs spoofs spoofed w = (Ok (pool, spoofed'), w') ->
  pool = spoofs.
Proof.
  induction turns as [| turns IH]; intros spoofs spoofed w pool spoofed' w' Hwf Hwide H.
  - now injection H as <- _ _.
  - cbn [build_loop] in H. unfold mbind at 1 in H.
    destruct (IPNetworks.rand spoofs w) as [[address | |] w1]; try discriminate.
    unfold mbind at 1 in H. unfold lift at 1 in H.
    destruct (ip_network_of address) as [single | |] eqn:Hs; try discriminate.
    unfold mbind at 1 in H. unfold lift at 1 in H.
    destruct (IPNetworks.addresses_exclude fuel spoofs [single]) as [spoofs' | |] eqn:H2;
      try discriminate.
    unfold mbind at 1 in H.
    destruct (MACRanges.rand macs w1) as [[mac | |] w2]; try discriminate.
    destruct address as [a |]; [| discriminate].
    assert (E : spoofs' = spoofs)
      by exact (exclude_address_unchanged fuel spoofs spoofs' a single Hwf Hwide Hs H2).
    subst spoofs'. exact (IH _ _ _ _ _ _ Hwf Hwide H).
Qed.

(** X16. A draw takes nothing off a pool whose networks all hold more than
    one address: the one-address network of the drawn address contains
    none of them, so [addresses_exclude] leaves them whole and the pool the
    loop ends with is the pool it began with. The address just drawn stays
    in the pool and may be drawn again. *)
Theorem build_leaves_wide_pool
  (fuel : nat) (macs : list MACRange.t) (count : number) (spoofs : list IPNetwork)
  (w w' : world) (pool : list IPNetwork) (spoofed : table) :
  Forall well_formed spoofs ->
  Forall (fun n => prefixlen n < max_prefixlen (version n)) spoofs ->
  build fuel macs count spoofs w = (Ok (pool, spoofed), w') ->
  pool = spoofs.
Proof.
  intros Hwf Hwide H. unfold build, mbind, lift in H.
  destruct (range_turns (min count (IPNetworks.len spoofs))) as [turns | |];
    try discriminate.
  exact (build_loop_wide fuel macs turns spoofs [] w pool spoofed w' Hwf Hwide H).
Qed.

(** *** Runs that return *)

Lemma IPNetworks_len_pos (self : list IPNetwork) :
  Forall well_formed self -> self <> [] -> 0 < IPNetworks.len self.
Proof.
  intros Hwf Hne. destruct Hwf as [| n l Hn Hl]; [contradiction |].
  rewrite IPNetworks_len_cons.
  pose proof (num_addresses_pos n Hn). pose proof (IPNetworks_len_nonneg l Hl). lia.
Qed.

Lemma IPNetworks_rand_returns (self : list IPNetwork) (w : world) :
  Forall well_formed self -> self <> [] ->
  exists n rem,
    In n self /\ 0 <= rem < num_addresses n
    /\ IPNetworks.rand self w
       = (Ok (Some (mkAddress (version n) (network_address n + rem))),
          mkWorld (gen w) (S (pos w)) (trace w)).
Proof.
  intros Hwf Hne. pose proof (IPNetworks_len_pos self Hwf Hne) as Hpos.
  pose proof (Z.mod_pos_bound (gen w (pos w)) (IPNetworks.len self) Hpos) as Hmod.
  destruct (IPNetworks_rand_walk_spec self Hwf _ Hmod)
    as (pre & n & post & rem & E & _ & Hrem & Hw).
  exists n, rem. split; [rewrite E; apply in_elt |]. split; [exact Hrem |].
  unfold IPNetworks.rand, mbind, lift, randrange.
  destruct (Z.leb_spec (IPNetworks.len self) 0); [lia |].
  rewrite Z.sub_0_r, Z.add_0_l, Hw. reflexivity.
Qed.

Lemma MACRanges_rand_returns (macs : list MACRange.t) (w : world) :
  Forall aligned macs -> macs <> [] ->
  exists mac,
    MACRanges.rand macs w = (Ok mac, mkWorld (gen w) (S (pos w)) (trace w)).
Proof.
  intros Ha Hne. pose proof (aligned_valid_range macs Ha) as Hv.
  assert (Hpos : 0 < total_size macs).
  { destruct Hv as [| r l Hr Hl]; [contradiction |].
    rewrite total_size_cons.
    pose proof (size_pos r Hr). pose proof (total_size_nonneg l Hl). lia. }
  pose proof (Z.mod_pos_bound (gen w (pos w)) (total_size macs) Hpos) as Hmod.
  destruct (MACRanges_rand_walk_spec macs Hv _ Hmod)
    as (pre & m & post & rem & _ & _ & _ & Hw).
  exists (Some (MACRange.mac m + rem)).
  unfold MACRanges.rand, mbind, lift, randrange.
  rewrite MACRanges_len_eq by assumption.
  destruct (Z.leb_spec (total_size macs) 0); [lia |].
  rewrite Z.sub_0_r, Z.add_0_l, Hw. reflexivity.
Qed.

(** The one-address network of an address of a well-formed network. *)
Lemma ip_network_of_member (n : IPNetwork) (rem : Z) :
  well_formed n -> 0 <= rem < num_addresses n ->
  let single := mkNetwork (version n) (network_address n + rem)
                  (max_prefixlen (version n)) in
  ip_network_of (Some (mkAddress (version n) (network_address n + rem))) = Ok single
  /\ well_formed single.
Proof.
  intros Hwf Hrem single.
  assert (W : well_formed single).
  { apply well_formed_iff. unfold single. cbn [version network_address prefixlen].
    pose proof (max_prefixlen_pos (version n)).
    pose proof (broadcast_address_le n Hwf) as Hb.
    pose proof (proj1 (well_formed_iff n) Hwf) as (_ & Hn & _).
    unfold num_addresses in Hrem. unfold ALL_ONES in Hb.
    rewrite Z.sub_diag. simpl. rewrite Z.mod_1_r.
    split; [lia |]. split; [lia | reflexivity]. }
  split; [exact W | exact W].
Qed.

Lemma subnets_of_one_none (s : IPNetwork) (others : list IPNetwork) :
  (forall o, In o others -> subnet_of s o = Ok false) ->
  IPNetworks.subnets_of_one s others = Ok false.
Proof.
  induction others as [| o others IH]; intros H; simpl; [reflexivity |].
  rewrite (H o (or_introl eq_refl)). cbn [bind]. apply IH.
  intros o' Ho'. apply H. now right.
Qed.

Lemma subnets_of_none (self others : list IPNetwork) :
  (forall s o, In s self -> In o others -> subnet_of s o = Ok false) ->
  IPNetworks.subnets_of self others = Ok false.
Proof.
  induction self as [| s self IH]; intros H; simpl; [reflexivity |].
  rewrite subnets_of_one_none by (intros o Ho; apply H; [now left | exact Ho]).
  cbn [bind]. apply IH. intros s' o Hs' Ho. apply H; [now right | exact Ho].
Qed.

Lemma build_loop_returns (fuel : nat) (macs : list MACRange.t) (turns : nat) :
  forall spoofs spoofed w,
  Forall well_formed spoofs ->
  Forall (fun n => prefixlen n < max_prefixlen (version n)) spoofs ->
  (forall n m, In n spoofs -> In m spoofs -> version n = version m) ->
  (turns <> 0%nat -> spoofs <> []) ->
  Forall aligned macs -> macs <> [] ->
  exists spoofed' w',
    build_loop turns (S fuel) macs spoofs spoofed w = (Ok (spoofs, spoofed'), w').
Proof.
  induction turns as [| turns IH];
    intros spoofs spoofed w Hwf Hwide Hver Hne Ha Hm.
  - exists spoofed, w. reflexivity.
  - assert (Hne' : spoofs <> []) by (apply Hne; discriminate).
    destruct (IPNetworks_rand_returns spoofs w Hwf Hne') as (n & rem & Hn & Hrem & Hr).
    pose proof Hwf as Hwf'. rewrite Forall_forall in Hwf'.
    destruct (ip_network_of_member n rem (Hwf' n Hn) Hrem) as [Hs Ws].
    set (single := mkNetwork (version n) (network_address n + rem)
                     (max_prefixlen (version n))) in *.
    assert (Hx : IPNetworks.addresses_exclude (S fuel) spoofs [single] = Ok spoofs).
    { cbn [IPNetworks.addresses_exclude].
      rewrite subnets_of_none; [reflexivity |].
      intros s o Hin [<- | []].
      destruct (subnet_of s single) as [[|] | e |] eqn:Hso.
      - exfalso. rewrite Forall_forall in Hwide.
        apply (wide_not_within_single s single); auto.
        now apply subnet_of_within.
      - reflexivity.
      - exfalso. unfold subnet_of in Hso.
        assert (E : version s = version single)
          by (change (version s = version n); apply Hver; assumption).
        rewrite E, ipversion_eqb_refl in Hso. discriminate.
      - now elim (subnet_of_ends s single). }
    destruct (MACRanges_rand_returns macs
                (mkWorld (gen w) (S (pos w)) (trace w)) Ha Hm) as (mac & Hmac).
    destruct (IH spoofs
                (setitem spoofed (mkAddress (version n) (network_address n + rem)) mac)
                (mkWorld (gen w) (S (S (pos w))) (trace w))
                Hwf Hwide Hver (fun _ => Hne') Ha Hm) as (spoofed' & w' & Hl).
    exists spoofed', w'.
    cbn [build_loop]. unfold mbind at 1. rewrite Hr.
    unfold mbind at 1. unfold lift at 1. rewrite Hs.
    unfold mbind at 1. unfold lift at 1. rewrite Hx.
    unfold mbind at 1. rewrite Hmac. exact Hl.
Qed.

(** X17. When the loop that builds the table returns. On a non-empty list
    of MAC ranges as the constructor builds them and a pool of well-formed
    networks of one IP version that all hold more than one address, the
    loop returns a table and the pool as it was, for every count that
    [range(min(count, len))] accepts and whatever is drawn. *)
Theorem build_returns_on_wide_pool
  (fuel : nat) (macs : list MACRange.t) (count : number) (spoofs : list IPNetwork)
  (turns : nat) (w : world) :
  Forall well_formed spoofs ->
  Forall (fun n => prefixlen n < max_prefixlen (version n)) spoofs ->
  (forall n m, In n spoofs -> In m spoofs -> version n = version m) ->
  Forall aligned macs -> macs <> [] ->
  range_turns (min count (IPNetworks.len spoofs)) = Ok turns ->
  exists spoofed w',
    build (S fuel) macs count spoofs w = (Ok (spoofs, spoofed), w').
Proof.
  intros Hwf Hwide Hver Ha Hm Ht.
  destruct (build_loop_returns fuel macs turns spoofs [] w Hwf Hwide Hver)
    as (spoofed & w' & H); try assumption.
  - intros Hn ->.
    pose proof (turns_bound count (IPNetworks.len []) turns (Z.le_refl 0) Ht) as Hb.
    unfold IPNetworks.len in Hb. simpl in Hb. lia.
  - exists spoofed, w'. unfold build, mbind, lift. rewrite Ht. exact H.
Qed.

(** *** The pass *)

Lemma in_range (a b x : Z) : In x (range a b) <-> a <= x < b.
Proof.
  unfold range. rewrite in_map_iff. split.
  - intros (i & <- & Hi). apply in_seq in Hi. lia.
  - intros Hx. exists (Z.to_nat (x - a)). split; [lia |]. apply in_seq. lia.
Qed.

Lemma hosts_host_of (n : IPNetwork) (a : IPAddress) :
  well_formed n -> In a (hosts n) -> host_of n a.
Proof.
  intros Hwf. pose proof (num_addresses_pos n Hwf) as Hpos.
  unfold num_addresses in Hpos.
  pose proof (proj1 (well_formed_iff n) Hwf) as (Hp & _).
  unfold hosts, host_of, covers.
  destruct (Z.eqb_spec (prefixlen n) (max_prefixlen (version n) - 1)) as [E1 | N1].
  { intros H. apply in_map_iff in H. destruct H as (x & <- & Hx).
    apply in_range in Hx. cbn [ip aversion].
    split; [split; [reflexivity | lia] | lia]. }
  destruct (Z.eqb_spec (prefixlen n) (max_prefixlen (version n))) as [E2 | N2].
  { intros [<- | []]. cbn [ip aversion].
    split; [split; [reflexivity | lia] | lia]. }
  destruct (version n) eqn:Hv; intros H; apply in_map_iff in H;
    destruct H as (x & <- & Hx); apply in_range in Hx; cbn [ip aversion].
  - split; [split; [reflexivity | lia] |]. intros _. split; lia.
  - split; [split; [reflexivity | lia] |]. intros _. split; [lia | discriminate].
Qed.

(** X12. What a pass sends. Every call of the transport names as source a key
    of the table, with the text of its value as hardware address, and as
    destination a host address of a target: an address of the target
    network which, unless the network holds one or two addresses only, is
    not its network address, nor in IPv4 its broadcast address. *)
Theorem pass_reaches_hosts_only
  (spoofed : table) (targets : list IPNetwork) (w : world) :
  valid_table spoofed -> Forall well_formed targets ->
  exists events,
    pass spoofed targets w = (Ok tt, after w events)
    /\ forall pdst psrc hwsrc, In (pdst, psrc, hwsrc) (calls events) ->
         (exists mac, In (psrc, mac) spoofed /\ str_of mac = Ok hwsrc)
         /\ exists target, In target targets /\ host_of target pdst.
Proof.
  intros Hv Hwf. exists (pass_events spoofed targets).
  split; [now apply pass_run |].
  intros pdst psrc hwsrc H. rewrite calls_pass_events in H.
  apply in_map_iff in H. destruct H as ([[address mac] host] & E & H).
  simpl in E. injection E as <- <- <-.
  unfold triples in H. apply in_flat_map in H. destruct H as ([k v] & Hk & H).
  apply in_flat_map in H. destruct H as (target & Ht & H).
  apply in_map_iff in H. destruct H as (h & E & Hh).
  simpl in E. injection E as <- <- <-.
  unfold valid_table in Hv. rewrite Forall_forall in Hv, Hwf.
  split.
  - exists v. split; [exact Hk |]. apply str_of_valid. exact (Hv _ Hk).
  - exists target. split; [exact Ht |]. apply hosts_host_of; [now apply Hwf | exact Hh].
Qed.

(** *** The script as a whole *)

Lemma comprehension_In {A B : Type} (f : A -> outcome B) (l : list A) :
  forall r, comprehension f l = Ok r ->
  forall y, In y r -> exists x, In x l /\ f x = Ok y.
Proof.
  induction l as [| x l IH]; intros r H y Hy; cbn [comprehension] in H.
  - injection H as <-. contradiction.
  - destruct (f x) as [y0 | |] eqn:Hx; try discriminate. cbn [bind] in H.
    destruct (comprehension f l) as [r0 | |]; try discriminate. cbn [bind] in H.
    injection H as <-. destruct Hy as [<- | Hy].
    + exists x. split; [now left | exact Hx].
    + destruct (IH r0 eq_refl y Hy) as (x' & Hx' & Hf).
      exists x'. split; [now right | exact Hf].
Qed.

Lemma calls_app (e1 e2 : list event) : calls (e1 ++ e2) = calls e1 ++ calls e2.
Proof. apply flat_map_app. Qed.

Lemma sleep_frame (n : Z) (w w2 : world) (o : outcome unit) :
  sleep n w = (o, w2) ->
  (o = Ok tt /\ w2 = mkWorld (gen w) (pos w) (trace w ++ [Sleep n]))
  \/ (returns o = false /\ w2 = w).
Proof.
  unfold sleep, lift, emit. destruct (_ || _).
  - intros H. injection H as <- <-. now right.
  - destruct (n <? 0); intros H; injection H as <- <-; [now right | now left].
Qed.

(** Whatever the loop does, its calls of the transport are those of a
    pass. *)
Lemma scheduler_calls (spoofed : table) (targets : list IPNetwork)
  (seconds : option Z) :
  valid_table spoofed ->
  forall fuel w o w',
  scheduler fuel spoofed targets seconds w = (o, w') ->
  exists events,
    w' = after w events
    /\ forall c, In c (calls events) -> In c (calls (pass_events spoofed targets)).
Proof.
  intros Hv. induction fuel as [| fuel IH]; intros w o w' H.
  - injection H as <- <-. exists []. split; [now rewrite after_nil | intros c []].
  - cbn [scheduler] in H. unfold mbind at 1 in H. rewrite pass_run in H by assumption.
    assert (Hpass : exists events,
               after w (pass_events spoofed targets) = after w events
               /\ forall c, In c (calls events) ->
                    In c (calls (pass_events spoofed targets))).
    { exists (pass_events spoofed targets). now split. }
    destruct seconds as [n |];
      [| injection H as <- <-; exact Hpass].
    destruct (truthy (Some n));
      [| injection H as <- <-; exact Hpass].
    unfold mbind at 1 in H. unfold emit at 1 in H. unfold mbind at 1 in H.
    cbn [after gen pos trace] in H.
    destruct (sleep n _) as [o2 w2] eqn:Hs.
    destruct (sleep_frame _ _ _ _ Hs) as [[-> ->] | [Hr ->]].
    + cbn [gen pos trace] in H.
      destruct (IH _ _ _ H) as (events & -> & Hc).
      exists (pass_events spoofed targets ++ [Print_sleeping n; Sleep n] ++ events).
      split.
      * unfold after. cbn [gen pos trace]. f_equal.
        rewrite <- !app_assoc. reflexivity.
      * intros c Hin. rewrite !calls_app in Hin.
        apply in_app_or in Hin. destruct Hin as [Hin | Hin]; [exact Hin |].
        apply in_app_or in Hin. destruct Hin as [[] | Hin]. now apply Hc.
    + exists (pass_events spoofed targets ++ [Print_sleeping n]).
      split.
      * destruct o2 as [[] | e |]; [discriminate | |]; injection H as <- <-;
          unfold after; cbn [gen pos trace]; now rewrite <- app_assoc.
      * intros c Hin. rewrite calls_app in Hin.
        apply in_app_or in Hin. destruct Hin as [Hin | []]. exact Hin.
Qed.

(** Where the calls of a pass come from. *)
Lemma pass_events_calls (spoofed : table) (targets : list IPNetwork)
  (pdst psrc : IPAddress) (hwsrc : string) :
  valid_table spoofed -> Forall well_formed targets ->
  In (pdst, psrc, hwsrc) (calls (pass_events spoofed targets)) ->
  (exists mac, In (psrc, mac) spoofed /\ str_of mac = Ok hwsrc)
  /\ exists target, In target targets /\ host_of target pdst.
Proof.
  intros Hv Hwf H. rewrite calls_pass_events in H.
  apply in_map_iff in H. destruct H as ([[address mac] host] & E & H).
  simpl in E. injection E as <- <- <-.
  unfold triples in H. apply in_flat_map in H. destruct H as ([k v] & Hk & H).
  apply in_flat_map in H. destruct H as (target & Ht & H).
  apply in_map_iff in H. destruct H as (h & E & Hh).
  simpl in E. injection E as <- <- <-.
  unfold valid_table in Hv. rewrite Forall_forall in Hv, Hwf.
  split.
  - exists v. split; [exact Hk |]. apply str_of_valid. exact (Hv _ Hk).
  - exists target. split; [exact Ht |]. apply hosts_host_of; [now apply Hwf | exact Hh].
Qed.

Lemma comprehension_well_formed (ip_network : Text.str -> outcome IPNetwork)
  (texts : list Text.str) (nets : list IPNetwork) :
  (forall text n, ip_network text = Ok n -> well_formed n) ->
  comprehension ip_network texts = Ok nets -> Forall well_formed nets.
Proof.
  intros Hp H. apply Forall_forall. intros n Hn.
  destruct (comprehension_In _ _ _ H n Hn) as (text & _ & Ht).
  now apply Hp with text.
Qed.

(** The script has stopped in the set-up, the world as it was. *)
Ltac stopped_in_setup H :=
  injection H as <- <-; exists [];
  split; [now rewrite app_nil_r |];
  split; [intros Hne; now elim Hne | intros ? ? ? []].

(** X13. Every frame the script sends comes from its options, and none is
    sent before the set-up is through. Whatever a run ends as, the events it
    added are none unless both lists of networks were read, the exclusion
    returned, every [--mac] text was accepted and the table was built,
    silently; and every call of the transport among them has as source an
    address of a [--spoof] network, as destination a host address of a
    [--target] network, and as hardware address the text of an address of a
    [--mac] range. *)
Theorem main_sends_from_options
  (ip_network : Text.str -> outcome IPNetwork) (fuel : nat) (args : Args)
  (w w' : world) (o : outcome unit) :
  (forall text n, ip_network text = Ok n -> well_formed n) ->
  main ip_network fuel args w = (o, w') ->
  exists events,
    trace w' = trace w ++ events
    /\ (events <> [] ->
        exists targets spoofs0 spoofs macs pool spoofed w1,
          comprehension ip_network (target args) = Ok targets
          /\ comprehension ip_network (spoof_ args) = Ok spoofs0
          /\ IPNetworks.addresses_exclude fuel spoofs0 targets = Ok spoofs
          /\ comprehension MACRange.__init__ (mac args) = Ok macs
          /\ build fuel macs (count args) spoofs w = (Ok (pool, spoofed), w1)
          /\ trace w1 = trace w
          /\ scheduler fuel spoofed targets (seconds args) w1 = (o, w'))
    /\ forall pdst psrc hwsrc, In (pdst, psrc, hwsrc) (calls events) ->
         (exists text n,
             In text (spoof_ args) /\ ip_network text = Ok n /\ covers n psrc)
         /\ (exists text n,
                In text (target args) /\ ip_network text = Ok n
                /\ host_of n pdst)
         /\ (exists text r m,
                In text (mac args) /\ MACRange.__init__ text = Ok r
                /\ MACRange.mac r <= m < MACRange.mac r + size r
                /\ MAC.__str__ m = Ok hwsrc).
Proof.
  intros Hp H. unfold main in H. unfold mbind at 1 in H. unfold lift at 1 in H.
  destruct (comprehension ip_network (target args)) as [targets | e |] eqn:E1;
    [| stopped_in_setup H | stopped_in_setup H].
  unfold mbind at 1 in H. unfold lift at 1 in H.
  destruct (comprehension ip_network (spoof_ args)) as [spoofs0 | e |] eqn:E2;
    [| stopped_in_setup H | stopped_in_setup H].
  unfold mbind at 1 in H. unfold lift at 1 in H.
  destruct (IPNetworks.addresses_exclude fuel spoofs0 targets) as [spoofs | e |] eqn:E3;
    [| stopped_in_setup H | stopped_in_setup H].
  unfold mbind at 1 in H. unfold lift at 1 in H.
  destruct (comprehension MACRange.__init__ (mac args)) as [macs | e |] eqn:E4;
    [| stopped_in_setup H | stopped_in_setup H].
  unfold mbind at 1 in H.
  destruct (build fuel macs (count args) spoofs w) as [ob w1] eqn:E5.
  pose proof (comprehension_well_formed ip_network _ _ Hp E1) as Wt.
  pose proof (comprehension_well_formed ip_network _ _ Hp E2) as W0.
  pose proof (comprehension_init_aligned _ _ E4) as Ha.
  destruct (addresses_exclude_inside spoofs0 fuel spoofs0 targets spoofs
              (inside_original spoofs0 W0) E3) as [Hin0 _].
  pose proof (inside_well_formed spoofs0 spoofs Hin0) as Ws.
  pose proof E5 as E5'. unfold build, mbind, lift in E5'.
  destruct (range_turns (min (count args) (IPNetworks.len spoofs))) as [turns | e |];
    [| injection E5' as <- <-; stopped_in_setup H
     | injection E5' as <- <-; stopped_in_setup H].
  destruct (build_loop_quiet macs fuel _ _ _ _ _ _ E5') as (T & _).
  destruct ob as [[pool spoofed] | e |];
    [| injection H as <- <-; exists [];
       split; [now rewrite app_nil_r |];
       split; [intros Hne; now elim Hne | intros ? ? ? []]
     | injection H as <- <-; exists [];
       split; [now rewrite app_nil_r |];
       split; [intros Hne; now elim Hne | intros ? ? ? []]].
  destruct (build_loop_from spoofs macs fuel turns Ha spoofs [] w pool spoofed w1
              (inside_original spoofs Ws)) as (_ & _ & Hf & _ & _);
    [split; [constructor | intros a mac []] | exact E5' |].
  pose proof (build_valid_table fuel (mac args) macs (count args) spoofs w w1
                (pool, spoofed) E4 E5) as Hv.
  simpl in Hv.
  destruct (scheduler_calls spoofed targets (seconds args) Hv fuel w1 o w' H)
    as (events & -> & Hc).
  exists events. split; [simpl; now rewrite T |].
  split.
  { intros _. exists targets, spoofs0, spoofs, macs, pool, spoofed, w1.
    repeat split; assumption. }
  intros pdst psrc hwsrc Hin.
  destruct (pass_events_calls spoofed targets pdst psrc hwsrc Hv Wt (Hc _ Hin))
    as [(mac & Hk & Hs) (target & Ht & Hh)].
  destruct Hf as [_ Hall]. destruct (Hall psrc mac Hk) as [Hd (r & m & Hr & -> & Hm)].
  split; [| split].
  - destruct (drawn_from_inside spoofs0 spoofs psrc Hin0 Hd) as (n & Hn & Hcov).
    destruct (comprehension_In _ _ _ E2 n Hn) as (text & Htext & Hparse).
    now exists text, n.
  - destruct (comprehension_In _ _ _ E1 target Ht) as (text & Htext & Hparse).
    now exists text, target.
  - destruct (comprehension_In _ _ _ E4 r Hr) as (text & Htext & Hinit).
    exists text, r, m. repeat split; try assumption; apply Hm.
Qed.

End script_more.

(** * Witnesses on concrete networks *)
Module Witnesses.
Import IPNetworks_facts rand_facts scheduler_facts MAC_facts MACRange_facts Main.

Lemma two_entries_valid : valid_table two_entries.
Proof. repeat constructor; simpl; lia. Qed.

Lemma addresses_exclude_no_subnet_witness :
  subnet_of (net4 10 0 0 8 29) (net4 10 0 0 0 30) = Ok false
  /\ network_eqb (net4 10 0 0 8 29) (net4 10 0 0 0 30) = false
  /\ net4 10 0 0 8 29 <> net4 10 0 0 0 30.
Proof.
  apply (addresses_exclude_no_subnet 10
           [net4 10 0 0 0 28; net4 10 0 0 0 30] [net4 10 0 0 0 30]
           [net4 10 0 0 8 29; net4 10 0 0 4 30]).
  - vm_compute. reflexivity.
  - simpl. auto.
  - simpl. auto.
Defined.

Lemma addresses_exclude_covers_subset_witness :
  (exists m, In m [net4 10 0 0 0 28; net4 10 0 0 0 30] /\ covers m (addr4 10 0 0 9))
  /\ IPNetworks.len [net4 10 0 0 8 29; net4 10 0 0 4 30]
     <= IPNetworks.len [net4 10 0 0 0 28; net4 10 0 0 0 30].
Proof.
  destruct (addresses_exclude_covers_subset 10
              [net4 10 0 0 0 28; net4 10 0 0 0 30] [net4 10 0 0 0 30]
              [net4 10 0 0 8 29; net4 10 0 0 4 30]) as [Hcov Hlen].
  - repeat constructor.
  - vm_compute. reflexivity.
  - split; [| exact Hlen]. apply Hcov.
    exists (net4 10 0 0 8 29). split; [simpl; auto |].
    unfold covers. split; [reflexivity |].
    split; apply Z.leb_le; vm_compute; reflexivity.
Defined.

Lemma rand_weighted_walk_witness :
  (MACRanges.len [macs47; macs40] = Ok (total_size [macs47; macs40])
   /\ 0 < total_size [macs47; macs40]
   /\ exists pre m post rem,
        [macs47; macs40] = pre ++ m :: post
        /\ gen counting (pos counting) mod total_size [macs47; macs40]
           = total_size pre + rem
        /\ MACRanges.len pre = Ok (total_size pre)
        /\ MACRange.__len__ m = Ok (size m)
        /\ 0 <= rem < size m
        /\ MACRanges.rand [macs47; macs40] counting
           = (Ok (Some (MACRange.mac m + rem)),
              mkWorld (gen counting) (S (pos counting)) (trace counting)))
  /\ (IPNetworks.len [net4 10 0 0 4 31; net4 10 0 0 8 29]
      = total_addresses [net4 10 0 0 4 31; net4 10 0 0 8 29]
      /\ 0 < total_addresses [net4 10 0 0 4 31; net4 10 0 0 8 29]
      /\ exists pre n post rem,
           [net4 10 0 0 4 31; net4 10 0 0 8 29] = pre ++ n :: post
           /\ gen counting (pos counting)
                mod total_addresses [net4 10 0 0 4 31; net4 10 0 0 8 29]
              = total_addresses pre + rem
           /\ IPNetworks.len pre = total_addresses pre
           /\ num_addresses n = net_size n
           /\ 0 <= rem < net_size n
           /\ covers n (mkAddress (version n) (network_address n + rem))
           /\ IPNetworks.rand [net4 10 0 0 4 31; net4 10 0 0 8 29] counting
              = (Ok (Some (mkAddress (version n) (network_address n + rem))),
                 mkWorld (gen counting) (S (pos counting)) (trace counting)))
  /\ MACRanges.rand_walk ([macs47] ++ macs40 :: []) (total_size [macs47] + 1)
     = Ok (Some (MACRange.mac macs40 + 1))
  /\ IPNetworks.rand_walk ([net4 10 0 0 4 31] ++ net4 10 0 0 8 29 :: [])
       (total_addresses [net4 10 0 0 4 31] + 1)
     = Ok (Some (mkAddress (version (net4 10 0 0 8 29))
                   (network_address (net4 10 0 0 8 29) + 1)))
  /\ MACRanges.rand [macs47; macs40] counting
     = (Ok (Some 2199023255553), mkWorld (gen counting) 1 [])
  /\ IPNetworks.rand [net4 10 0 0 4 31; net4 10 0 0 8 29] counting
     = (Ok (Some (addr4 10 0 0 9)), mkWorld (gen counting) 1 []).
Proof.
  split; [| split; [| split; [| split; [| split]]]].
  - apply (proj1 rand_weighted_walk [macs47; macs40] counting).
    + discriminate.
    + repeat constructor; unfold valid_range; simpl; lia.
  - apply (proj1 (proj2 rand_weighted_walk)
             [net4 10 0 0 4 31; net4 10 0 0 8 29] counting).
    + discriminate.
    + repeat constructor.
  - apply (proj1 (proj2 (proj2 rand_weighted_walk)) [macs47] [] macs40 1).
    + repeat constructor; unfold valid_range; simpl; lia.
    + unfold size. simpl. lia.
  - apply (proj2 (proj2 (proj2 rand_weighted_walk))
             [net4 10 0 0 4 31] [] (net4 10 0 0 8 29) 1).
    + repeat constructor.
    + unfold net_size. simpl. lia.
  - vm_compute. reflexivity.
  - vm_compute. reflexivity.
Defined.

Lemma pass_calls_transport_per_triple_witness :
  exists events,
    pass two_entries [net4 10 0 0 0 30] zeros = (Ok tt, after zeros events)
    /\ calls events
       = [(addr4 10 0 0 1, addr4 10 0 0 5, "2:0:0:0:0:1"%string);
          (addr4 10 0 0 2, addr4 10 0 0 5, "2:0:0:0:0:1"%string);
          (addr4 10 0 0 1, addr4 10 0 0 9, "2:0:0:0:0:2"%string);
          (addr4 10 0 0 2, addr4 10 0 0 9, "2:0:0:0:0:2"%string)]
    /\ List.length (calls events) = 4%nat.
Proof.
  exact (pass_calls_transport_per_triple two_entries [net4 10 0 0 0 30] zeros
           two_entries_valid).
Defined.



Lemma parse_str_roundtrip_witness :
  exists text, MAC.__str__ 2199023255553 = Ok text /\ MAC.parse text = Ok 2199023255553.
Proof.
  apply (parse_str_roundtrip 2199023255553). split; [lia | reflexivity].
Defined.

Lemma mac_text_example : mac_text "02:00:00:00:00:00".
Proof.
  exists "02:00:00:00:00:"%string, "0"%char, "0"%char.
  repeat split. repeat constructor.
Qed.

Lemma well_formed_text_example :
  well_formed_text (Text.code_points "02:00:00:00:00:00/40").
Proof.
  exists "02:00:00:00:00:00"%string, [52; 48], [].
  split; [exact mac_text_example |].
  split; [discriminate |]. split; [reflexivity |].
  split; [simpl; lia |]. split; [now left |].
  split; [vm_compute; split; discriminate | reflexivity].
Defined.

Lemma well_formed_text_arabic : well_formed_text arabic_prefix.
Proof.
  exists "02:00:00:00:00:00"%string, [1636; 1632], [].
  split; [exact mac_text_example |].
  split; [discriminate |]. split; [reflexivity |].
  split; [simpl; lia |]. split; [now left |].
  split; [vm_compute; split; discriminate | reflexivity].
Defined.

Lemma not_well_formed_49 :
  ~ well_formed_text (Text.code_points "02:00:00:00:00:00/49").
Proof.
  intros Hw. apply init_ok_iff in Hw. destruct Hw as (r & Hr).
  vm_compute in Hr. discriminate.
Qed.

Lemma init_raises_before_io_witness :
  (exists r, MACRange.__init__ (Text.code_points "02:00:00:00:00:00/40") = Ok r
             /\ 0 <= MACRange.mask r <= 48)
  /\ (exists r, MACRange.__init__ arabic_prefix = Ok r
                /\ 0 <= MACRange.mask r <= 48)
  /\ (exists e, MACRange.__init__ (Text.code_points "02:00:00:00:00:00/49") = Raise e
                /\ (e = AttributeError \/ e = TypeError \/ e = ValueError))
  /\ (exists o,
        main ip_network_few 10%nat args_bad_mac counting = (o, counting)
        /\ returns o = false
        /\ (forall targets spoofs spoofs',
              comprehension ip_network_few (target args_bad_mac) = Ok targets ->
              comprehension ip_network_few (spoof_ args_bad_mac) = Ok spoofs ->
              IPNetworks.addresses_exclude 10 spoofs targets = Ok spoofs' ->
              raises o = true)).
Proof.
  split; [| split; [| split]].
  - apply (proj1 (init_raises_before_io (Text.code_points "02:00:00:00:00:00/40"))).
    exact well_formed_text_example.
  - apply (proj1 (init_raises_before_io arabic_prefix)).
    exact well_formed_text_arabic.
  - apply (proj1 (proj2 (init_raises_before_io
                           (Text.code_points "02:00:00:00:00:00/49")))).
    exact not_well_formed_49.
  - apply (proj2 (proj2 (init_raises_before_io
                           (Text.code_points "02:00:00:00:00:00/49")))
             ip_network_few 10%nat args_bad_mac counting).
    + now left.
    + exact not_well_formed_49.
Defined.

(** C7 as stated fails for a prefix length in [0 .. 48] that is written
    in more than 4300 digits: the text is as the specification wants it,
    and [int] refuses it. *)
Lemma init_refuses_long_prefix :
  well_formed_as_specified long_prefix
  /\ MACRange.__init__ long_prefix = Raise ValueError
  /\ ~ well_formed_text long_prefix.
Proof.
  assert (H : MACRange.__init__ long_prefix = Raise ValueError)
    by (vm_compute; reflexivity).
  split; [| split; [exact H |]].
  - exists "02:00:00:00:00:00"%string, (repeat 48 (Z.to_nat 4299) ++ [52; 48]), [].
    split; [exact mac_text_example |].
    split; [vm_compute; discriminate |]. split; [vm_compute; reflexivity |].
    split; [now left |].
    split; [vm_compute; split; discriminate |].
    unfold long_prefix. now rewrite app_nil_r.
  - intros Hw. apply init_ok_iff in Hw. destruct Hw as (r & Hr).
    rewrite H in Hr. discriminate.
Qed.

End Witnesses.

(** * Witnesses for the further properties *)
Module More_witnesses.
Import exclusion_more MAC_more script_more scheduler_facts Main.

Lemma addresses_exclude_ends_witness :
  ended (IPNetworks.addresses_exclude 30
           [net4 10 0 0 0 28; net4 10 0 0 0 30] [net4 10 0 0 0 30])
  /\ forall fuel', (30 <= fuel')%nat ->
       IPNetworks.addresses_exclude fuel'
         [net4 10 0 0 0 28; net4 10 0 0 0 30] [net4 10 0 0 0 30]
       = IPNetworks.addresses_exclude 30
           [net4 10 0 0 0 28; net4 10 0 0 0 30] [net4 10 0 0 0 30].
Proof.
  apply (addresses_exclude_ends 30
           [net4 10 0 0 0 28; net4 10 0 0 0 30] [net4 10 0 0 0 30]).
  - repeat constructor.
  - vm_compute. lia.
Defined.

Lemma addresses_exclude_keeps_or_shrinks_witness :
  (IPNetworks.subnets_of [net4 10 0 0 0 28; net4 10 0 0 0 30] [net4 10 0 0 0 30]
   = Ok false
   /\ [net4 10 0 0 8 29; net4 10 0 0 4 30] = [net4 10 0 0 0 28; net4 10 0 0 0 30])
  \/ (IPNetworks.subnets_of [net4 10 0 0 0 28; net4 10 0 0 0 30] [net4 10 0 0 0 30]
      = Ok true
      /\ IPNetworks.len [net4 10 0 0 8 29; net4 10 0 0 4 30]
         < IPNetworks.len [net4 10 0 0 0 28; net4 10 0 0 0 30]).
Proof.
  apply (addresses_exclude_keeps_or_shrinks 10
           [net4 10 0 0 0 28; net4 10 0 0 0 30] [net4 10 0 0 0 30]
           [net4 10 0 0 8 29; net4 10 0 0 4 30]).
  - repeat constructor.
  - vm_compute. reflexivity.
Defined.


Lemma addresses_exclude_mixed_raises_witness :
  exists e,
    IPNetworks.addresses_exclude 10 [net4 10 0 0 0 30] [mkNetwork V6 0 64] = Raise e.
Proof.
  apply (addresses_exclude_mixed_raises 10 [net4 10 0 0 0 30] [mkNetwork V6 0 64]
           (net4 10 0 0 0 30) (mkNetwork V6 0 64)).
  - repeat constructor.
  - vm_compute. lia.
  - now left.
  - now left.
  - discriminate.
Defined.


Lemma str_writes_octets_witness :
  MAC.__str__ 2199023255553
  = Ok (String.concat ":"
          (map (fun i => Text.format_x (octet 2199023255553 i)) [5; 4; 3; 2; 1; 0]%nat))
  /\ forall i : nat,
       all_lower_hex (Text.format_x (octet 2199023255553 i)) = true
       /\ String.length (Text.format_x (octet 2199023255553 i))
          = (if (octet 2199023255553 i <? 16)%Z then 1 else 2)%nat
       /\ Text.int16 (Text.format_x (octet 2199023255553 i))
          = Ok (octet 2199023255553 i).
Proof.
  apply (str_writes_octets 2199023255553). split; [lia | reflexivity].
Defined.

Lemma parse_alike_witness :
  MAC.parse "02:0a:00:00:00:ff" = MAC.parse "02-0A-00.00.00-Ff".
Proof.
  apply (parse_alike "02:0a:00:00:00:ff" "02-0A-00.00.00-Ff"). reflexivity.
Defined.

Lemma init_block_witness :
  exists g ds m,
    MACRange.search (Text.code_points "02:00:00:00:00:07/40") = Some (g, Some ds)
    /\ Text.int10 ds = Ok (MACRange.mask macs40)
    /\ MAC.parse g = Ok m
    /\ 0 <= MACRange.mask macs40 <= 48
    /\ MACRange.mac macs40 mod 2 ^ (48 - MACRange.mask macs40) = 0
    /\ MACRange.mac macs40 <= m < MACRange.mac macs40 + 2 ^ (48 - MACRange.mask macs40)
    /\ 0 <= MACRange.mac macs40
    /\ MACRange.mac macs40 + 2 ^ (48 - MACRange.mask macs40) <= 2 ^ 48
    /\ MACRange.__len__ macs40 = Ok (2 ^ (48 - MACRange.mask macs40)).
Proof.
  apply (init_block (Text.code_points "02:00:00:00:00:07/40") macs40).
  vm_compute. reflexivity.
Defined.

Lemma macs40_aligned : Forall aligned [macs40].
Proof.
  repeat constructor; unfold valid_range, size; simpl; lia.
Qed.

Lemma build_table_provenance_witness :
  exists turns,
    range_turns (min (Int 10) (IPNetworks.len [net4 10 0 0 0 28])) = Ok turns
    /\ Z.of_nat turns <= IPNetworks.len [net4 10 0 0 0 28]
    /\ (List.length [(addr4 10 0 0 0, Some 2199023255552%Z)] <= turns)%nat
    /\ table_from [net4 10 0 0 0 28] [macs40] [(addr4 10 0 0 0, Some 2199023255552)]
    /\ Forall (inside [net4 10 0 0 0 28]) [net4 10 0 0 0 28]
    /\ IPNetworks.len [net4 10 0 0 0 28] <= IPNetworks.len [net4 10 0 0 0 28]
    /\ mkWorld (gen zeros) 20 (trace zeros)
       = mkWorld (gen zeros) (pos zeros + 2 * turns) (trace zeros).
Proof.
  apply (build_table_provenance 10 [macs40] (Int 10) [net4 10 0 0 0 28] zeros
           (mkWorld (gen zeros) 20 (trace zeros)) [net4 10 0 0 0 28]
           [(addr4 10 0 0 0, Some 2199023255552)]).
  - repeat constructor.
  - exact macs40_aligned.
  - vm_compute. reflexivity.
Defined.

Lemma build_ends_quietly_witness :
  exists o w',
    build 20 [macs40] (Int 10) [net4 10 0 0 0 28] counting = (o, w')
    /\ ended o /\ trace w' = trace counting /\ gen w' = gen counting.
Proof.
  apply (build_ends_quietly 20 [macs40] (Int 10) [net4 10 0 0 0 28] counting).
  - repeat constructor.
  - vm_compute. lia.
Defined.

Lemma two_entries_table : valid_table two_entries.
Proof. repeat constructor; simpl; lia. Qed.

Lemma pass_reaches_hosts_only_witness :
  exists events,
    pass two_entries [net4 10 0 0 0 29] zeros = (Ok tt, after zeros events)
    /\ forall pdst psrc hwsrc, In (pdst, psrc, hwsrc) (calls events) ->
         (exists mac, In (psrc, mac) two_entries /\ str_of mac = Ok hwsrc)
         /\ exists target, In target [net4 10 0 0 0 29] /\ host_of target pdst.
Proof.
  apply (pass_reaches_hosts_only two_entries [net4 10 0 0 0 29] zeros).
  - exact two_entries_table.
  - repeat constructor.
Defined.

Lemma ip_network_few_well_formed (text : Text.str) (n : IPNetwork) :
  ip_network_few text = Ok n -> well_formed n.
Proof.
  unfold ip_network_few. destruct (str_eqb _ _).
  - intros H. injection H as <-. reflexivity.
  - destruct (str_eqb _ _); [| discriminate].
    intros H. injection H as <-. reflexivity.
Qed.

Lemma main_sends_from_options_witness :
  calls (trace (snd (main ip_network_few 10%nat args_two counting)))
  = [(addr4 10 0 0 1, addr4 10 0 0 11, "2:0:0:0:0:8"%string);
     (addr4 10 0 0 2, addr4 10 0 0 11, "2:0:0:0:0:8"%string);
     (addr4 10 0 0 1, addr4 10 0 0 13, "2:0:0:0:0:12"%string);
     (addr4 10 0 0 2, addr4 10 0 0 13, "2:0:0:0:0:12"%string)]
  /\ exists events,
       trace (snd (main ip_network_few 10%nat args_two counting))
       = trace counting ++ events
       /\ (events <> [] ->
           exists targets spoofs0 spoofs macs pool spoofed w1,
             comprehension ip_network_few (target args_two) = Ok targets
             /\ comprehension ip_network_few (spoof_ args_two) = Ok spoofs0
             /\ IPNetworks.addresses_exclude 10 spoofs0 targets = Ok spoofs
             /\ comprehension MACRange.__init__ (mac args_two) = Ok macs
             /\ build 10 macs (count args_two) spoofs counting
                = (Ok (pool, spoofed), w1)
             /\ trace w1 = trace counting
             /\ scheduler 10 spoofed targets (seconds args_two) w1
                = (fst (main ip_network_few 10%nat args_two counting),
                   snd (main ip_network_few 10%nat args_two counting)))
       /\ forall pdst psrc hwsrc, In (pdst, psrc, hwsrc) (calls events) ->
            (exists text n,
                In text (spoof_ args_two) /\ ip_network_few text = Ok n
                /\ covers n psrc)
            /\ (exists text n,
                   In text (target args_two) /\ ip_network_few text = Ok n
                   /\ host_of n pdst)
            /\ (exists text r m,
                   In text (mac args_two) /\ MACRange.__init__ text = Ok r
                   /\ MACRange.mac r <= m < MACRange.mac r + size r
                   /\ MAC.__str__ m = Ok hwsrc).
Proof.
  split; [vm_compute; reflexivity |].
  apply (main_sends_from_options ip_network_few 10%nat args_two counting
           (snd (main ip_network_few 10%nat args_two counting))
           (fst (main ip_network_few 10%nat args_two counting))).
  - exact ip_network_few_well_formed.
  - apply surjective_pairing.
Defined.


Lemma scheduler_refused_interval_witness :
  scheduler 1 two_entries [net4 10 0 0 0 30] (Some (-1)) zeros
  = (Raise ValueError,
     after zeros (pass_events two_entries [net4 10 0 0 0 30] ++ [Print_sleeping (-1)]))
  /\ scheduler 1 two_entries [net4 10 0 0 0 30] (Some (-9223372037)) zeros
     = (Raise OverflowError,
        after zeros (pass_events two_entries [net4 10 0 0 0 30]
                     ++ [Print_sleeping (-9223372037)]))
  /\ scheduler 1 two_entries [net4 10 0 0 0 30] (Some 9223372037) zeros
     = (Raise OverflowError,
        after zeros (pass_events two_entries [net4 10 0 0 0 30]
                     ++ [Print_sleeping 9223372037])).
Proof.
  split; [| split].
  - apply (scheduler_refused_interval two_entries [net4 10 0 0 0 30] (-1) 0 zeros).
    + exact two_entries_table.
    + lia.
  - apply (scheduler_refused_interval two_entries [net4 10 0 0 0 30]
             (-9223372037) 0 zeros).
    + exact two_entries_table.
    + lia.
  - apply (scheduler_refused_interval two_entries [net4 10 0 0 0 30]
             9223372037 0 zeros).
    + exact two_entries_table.
    + lia.
Defined.

Lemma addresses_exclude_keeps_outside_witness :
  drawn_from [net4 10 0 0 8 29; net4 10 0 0 4 30] (addr4 10 0 0 9).
Proof.
  apply (addresses_exclude_keeps_outside 10
           [net4 10 0 0 0 28; net4 10 0 0 0 30] [net4 10 0 0 0 30]
           [net4 10 0 0 8 29; net4 10 0 0 4 30] (addr4 10 0 0 9)).
  - repeat constructor.
  - vm_compute. reflexivity.
  - exists (net4 10 0 0 0 28). split; [now left |].
    split; [reflexivity |]. split; apply Z.leb_le; vm_compute; reflexivity.
  - intros o [<- | []] (_ & _ & H). apply Z.leb_le in H. vm_compute in H.
    discriminate.
Defined.

Lemma build_leaves_wide_pool_witness : [net4 10 0 0 0 28] = [net4 10 0 0 0 28].
Proof.
  apply (build_leaves_wide_pool 10 [macs40] (Int 10) [net4 10 0 0 0 28] zeros
           (mkWorld (gen zeros) 20 (trace zeros)) [net4 10 0 0 0 28]
           [(addr4 10 0 0 0, Some 2199023255552)]).
  - repeat constructor.
  - repeat constructor.
  - vm_compute. reflexivity.
Defined.

Lemma build_returns_on_wide_pool_witness :
  exists spoofed w',
    build 1 [macs40] (Int 10) [net4 10 0 0 0 28] counting
    = (Ok ([net4 10 0 0 0 28], spoofed), w').
Proof.
  apply (build_returns_on_wide_pool 0 [macs40] (Int 10) [net4 10 0 0 0 28] 10 counting).
  - repeat constructor.
  - repeat constructor.
  - intros n m [<- | []] [<- | []]. reflexivity.
  - exact macs40_aligned.
  - discriminate.
  - reflexivity.
Defined.

End More_witnesses.
